(** * ktask: the parallel work decomposer of kernel/ktask.c

    A shallow embedding of the chunker, the resource limits on queued work
    items, the worker-count decision, the worker loop and the two entry
    points, followed by the properties the design document states about
    them.

    Conventions.
    - [size_t] values are integers in [0, 2^64); every addition and
      subtraction the source performs on them is written with [wrap].
    - [int] node ids are integers; [NUMA_NO_NODE] is -1.
    - Cursors ([void *]) are 64-bit addresses.
    - Code that can divide by zero or index past the node array returns
      [option]; [None] is the fault. *)

From Stdlib Require Import ZArith Lia List.
From stdpp Require Import base option list.

Local Open Scope Z_scope.

(** ** Machine integers *)

Definition SIZE_WIDTH : Z := 64.

Definition wrap (x : Z) : Z := x mod 2 ^ SIZE_WIDTH.

Definition is_size_t (x : Z) : Prop := 0 <= x < 2 ^ SIZE_WIDTH.

(** Unsigned division and remainder: undefined for a zero divisor. *)
Definition udiv (x y : Z) : option Z := if y =? 0 then None else Some (x / y).

Definition umod (x y : Z) : option Z := if y =? 0 then None else Some (x mod y).

(** ** Kernel helper macros

    [rounddown], [DIV_ROUND_UP], [min], [max] and [mult_frac] come from
    include/linux/kernel.h, which is not part of the sources at hand. *)

(** Modelled from the spec: the macro [rounddown(x, y)], read as "round
    [x] down to a multiple of [y]"; it takes a remainder by [y]. *)
Definition rounddown (x y : Z) : option Z := r ← umod x y; Some (x - r).

(** Modelled from the spec: the macro [DIV_ROUND_UP(n, d)], the ceiling
    of [n / d], which the kernel computes as [((n) + (d) - 1) / (d)].  At
    its one use both operands are [size_t], so the sum is taken modulo
    2^64: the result is the ceiling only as long as [n + d - 1] does not
    wrap. *)
Definition DIV_ROUND_UP (n d : Z) : option Z := udiv (wrap (n + d - 1)) d.

(** Modelled from the spec: the macro [mult_frac(x, n, d)], read as
    [floor (x * n / d)]. *)
Definition mult_frac (x n d : Z) : Z := x * n / d.

(** ** Constants of ktask.c *)

Definition KTASK_CPUFRAC_NUMER : Z := 4.
Definition KTASK_CPUFRAC_DENOM : Z := 5.
Definition KTASK_LOAD_BAL_SHIFT : Z := 2.
Definition KTASK_DEFAULT_MAX_THREADS : Z := 4.
Definition ktask_max_threads : Z := KTASK_DEFAULT_MAX_THREADS.

(** From include/linux/ktask.h and include/linux/numa.h. *)
Definition KTASK_RETURN_SUCCESS : Z := 0.
Definition NUMA_NO_NODE : Z := -1.

(** ** The chunker: [ktask_chunk_size] *)

Definition ktask_chunk_size (task_size min_chunk_size nworks : Z) : option Z :=
  if nworks =? 1 then Some task_size
  else
    q ← udiv task_size nworks;
    let chunk_size := Z.shiftr q KTASK_LOAD_BAL_SHIFT in
    chunk_size ← (if min_chunk_size <? chunk_size
                  then rounddown chunk_size min_chunk_size
                  else Some chunk_size);
    Some (Z.max chunk_size min_chunk_size).

(** The chunker as the design document words it (section 4.1,
    "Algorithm"). *)
Definition chunk_size_spec (total min_grain workers : Z) : Z :=
  if workers =? 1 then total
  else
    let candidate := Z.shiftr (total / workers) 2 in
    let candidate' :=
      if min_grain <? candidate then min_grain * (candidate / min_grain)
      else candidate in
    Z.max candidate' min_grain.

(** The three postconditions of the chunker's contract (section 4.1,
    "Contract"). *)
Definition chunker_contract (total min_grain workers size : Z) : Prop :=
  min_grain <= size ∧
  (workers = 1 → size <= total) ∧
  (min_grain < size → (min_grain | size)).

(** ** Data model *)

(** [struct ktask_node]: a start cursor, a remaining size and a node id. *)
Record ktask_node := {
  kn_start : Z;
  kn_task_size : Z;
  kn_nid : Z;
}.

(** [struct ktask_ctl].  The processing callback [kc_thread_func] and its
    argument belong to the caller: its return values are supplied by the
    schedule of a run (see [choice]). *)
Record ktask_ctl := {
  kc_iter_func : Z → Z → Z;
  kc_min_chunk_size : Z;
  kc_max_threads : Z;
}.

(** [struct ktask_task]; [kt_ktask_done] is the completion, [true] once
    [complete] has been called on it. *)
Record ktask_task := {
  kt_ctl : ktask_ctl;
  kt_total_size : Z;
  kt_chunk_size : Z;
  kt_nodes : list ktask_node;
  kt_nr_nodes : Z;
  kt_nr_nodes_left : Z;
  kt_nworks : Z;
  kt_nworks_fini : Z;
  kt_error : Z;
  kt_ktask_done : bool;
}.

(** [struct ktask_work], without its list and workqueue linkage. *)
Record ktask_work := {
  kw_ktask_node_i : nat;
  kw_queue_nid : Z;
}.

Definition set_kn (start size : Z) (kn : ktask_node) : ktask_node :=
  {| kn_start := start; kn_task_size := size; kn_nid := kn_nid kn |}.

Definition set_kt_total_size (v : Z) (kt : ktask_task) : ktask_task :=
  {| kt_ctl := kt_ctl kt; kt_total_size := v; kt_chunk_size := kt_chunk_size kt;
     kt_nodes := kt_nodes kt; kt_nr_nodes := kt_nr_nodes kt;
     kt_nr_nodes_left := kt_nr_nodes_left kt; kt_nworks := kt_nworks kt;
     kt_nworks_fini := kt_nworks_fini kt; kt_error := kt_error kt;
     kt_ktask_done := kt_ktask_done kt |}.

Definition set_kt_chunk_size (v : Z) (kt : ktask_task) : ktask_task :=
  {| kt_ctl := kt_ctl kt; kt_total_size := kt_total_size kt; kt_chunk_size := v;
     kt_nodes := kt_nodes kt; kt_nr_nodes := kt_nr_nodes kt;
     kt_nr_nodes_left := kt_nr_nodes_left kt; kt_nworks := kt_nworks kt;
     kt_nworks_fini := kt_nworks_fini kt; kt_error := kt_error kt;
     kt_ktask_done := kt_ktask_done kt |}.

Definition set_kt_nodes (v : list ktask_node) (kt : ktask_task) : ktask_task :=
  {| kt_ctl := kt_ctl kt; kt_total_size := kt_total_size kt;
     kt_chunk_size := kt_chunk_size kt;
     kt_nodes := v; kt_nr_nodes := kt_nr_nodes kt;
     kt_nr_nodes_left := kt_nr_nodes_left kt; kt_nworks := kt_nworks kt;
     kt_nworks_fini := kt_nworks_fini kt; kt_error := kt_error kt;
     kt_ktask_done := kt_ktask_done kt |}.

Definition set_kt_nr_nodes_left (v : Z) (kt : ktask_task) : ktask_task :=
  {| kt_ctl := kt_ctl kt; kt_total_size := kt_total_size kt;
     kt_chunk_size := kt_chunk_size kt;
     kt_nodes := kt_nodes kt; kt_nr_nodes := kt_nr_nodes kt;
     kt_nr_nodes_left := v; kt_nworks := kt_nworks kt;
     kt_nworks_fini := kt_nworks_fini kt; kt_error := kt_error kt;
     kt_ktask_done := kt_ktask_done kt |}.

Definition set_kt_nworks (v : Z) (kt : ktask_task) : ktask_task :=
  {| kt_ctl := kt_ctl kt; kt_total_size := kt_total_size kt;
     kt_chunk_size := kt_chunk_size kt;
     kt_nodes := kt_nodes kt; kt_nr_nodes := kt_nr_nodes kt;
     kt_nr_nodes_left := kt_nr_nodes_left kt; kt_nworks := v;
     kt_nworks_fini := kt_nworks_fini kt; kt_error := kt_error kt;
     kt_ktask_done := kt_ktask_done kt |}.

Definition set_kt_nworks_fini (v : Z) (kt : ktask_task) : ktask_task :=
  {| kt_ctl := kt_ctl kt; kt_total_size := kt_total_size kt;
     kt_chunk_size := kt_chunk_size kt;
     kt_nodes := kt_nodes kt; kt_nr_nodes := kt_nr_nodes kt;
     kt_nr_nodes_left := kt_nr_nodes_left kt; kt_nworks := kt_nworks kt;
     kt_nworks_fini := v; kt_error := kt_error kt;
     kt_ktask_done := kt_ktask_done kt |}.

Definition set_kt_error (v : Z) (kt : ktask_task) : ktask_task :=
  {| kt_ctl := kt_ctl kt; kt_total_size := kt_total_size kt;
     kt_chunk_size := kt_chunk_size kt;
     kt_nodes := kt_nodes kt; kt_nr_nodes := kt_nr_nodes kt;
     kt_nr_nodes_left := kt_nr_nodes_left kt; kt_nworks := kt_nworks kt;
     kt_nworks_fini := kt_nworks_fini kt; kt_error := v;
     kt_ktask_done := kt_ktask_done kt |}.

Definition set_kt_ktask_done (v : bool) (kt : ktask_task) : ktask_task :=
  {| kt_ctl := kt_ctl kt; kt_total_size := kt_total_size kt;
     kt_chunk_size := kt_chunk_size kt;
     kt_nodes := kt_nodes kt; kt_nr_nodes := kt_nr_nodes kt;
     kt_nr_nodes_left := kt_nr_nodes_left kt; kt_nworks := kt_nworks kt;
     kt_nworks_fini := kt_nworks_fini kt; kt_error := kt_error kt;
     kt_ktask_done := v |}.

(** What a run finds around it: whether [ktask_wq] was allocated, the CPU
    and node topology, whether the kernel distinguishes NUMA nodes, the
    node of the calling CPU, and whether the caller is itself a kernel
    thread ([current->flags & PF_KTHREAD]). *)
Record env := {
  ktask_wq : bool;
  num_online_cpus : positive;
  num_online_nodes : Z;
  CONFIG_NUMA : bool;
  numa_node_id : Z;
  caller_kthread : bool;
}.

(** ** Resource limits on queued work items

    [ktask_rlim_cur], [ktask_rlim_max] and the two per-node arrays, all
    guarded by [ktask_rlim_lock].  An array is a list; a load from an
    index outside it yields whatever the neighbouring memory holds
    ([wild]), a store outside it is dropped, and either way the index is
    appended to [rlim_stray]. *)
Record rlim := {
  ktask_rlim_cur : Z;
  ktask_rlim_max : Z;
  ktask_rlim_node_cur : list Z;
  ktask_rlim_node_max : list Z;
  rlim_stray : list Z;
}.

Record wild := { wild_cur : Z; wild_max : Z }.

Definition set_rlim_cur (v : Z) (g : rlim) : rlim :=
  {| ktask_rlim_cur := v; ktask_rlim_max := ktask_rlim_max g;
     ktask_rlim_node_cur := ktask_rlim_node_cur g;
     ktask_rlim_node_max := ktask_rlim_node_max g;
     rlim_stray := rlim_stray g |}.

Definition set_rlim_node_cur (v : list Z) (g : rlim) : rlim :=
  {| ktask_rlim_cur := ktask_rlim_cur g; ktask_rlim_max := ktask_rlim_max g;
     ktask_rlim_node_cur := v;
     ktask_rlim_node_max := ktask_rlim_node_max g;
     rlim_stray := rlim_stray g |}.

Definition note_stray (i : Z) (g : rlim) : rlim :=
  {| ktask_rlim_cur := ktask_rlim_cur g; ktask_rlim_max := ktask_rlim_max g;
     ktask_rlim_node_cur := ktask_rlim_node_cur g;
     ktask_rlim_node_max := ktask_rlim_node_max g;
     rlim_stray := rlim_stray g ++ [i] |}.

(** Code that runs under [ktask_rlim_lock]: a state transformer. *)
Definition gov (A : Type) : Type := rlim → A * rlim.

#[global] Instance gov_ret : MRet gov := λ A x g, (x, g).
#[global] Instance gov_bind : MBind gov :=
  λ A B f m g, let r := m g in f (fst r) (snd r).

Definition in_array (a : list Z) (i : Z) : bool :=
  (0 <=? i) && (i <? Z.of_nat (length a)).

Definition node_cur_get (w : wild) (i : Z) : gov Z := λ g,
  if in_array (ktask_rlim_node_cur g) i
  then (default 0 (ktask_rlim_node_cur g !! Z.to_nat i), g)
  else (wild_cur w, note_stray i g).

Definition node_max_get (w : wild) (i : Z) : gov Z := λ g,
  if in_array (ktask_rlim_node_max g) i
  then (default 0 (ktask_rlim_node_max g !! Z.to_nat i), g)
  else (wild_max w, note_stray i g).

Definition node_cur_set (i v : Z) : gov () := λ g,
  if in_array (ktask_rlim_node_cur g) i
  then ((), set_rlim_node_cur (<[Z.to_nat i := v]> (ktask_rlim_node_cur g)) g)
  else ((), note_stray i g).

(** [++ktask_rlim_node_cur[i]] and [--ktask_rlim_node_cur[i]]. *)
Definition node_cur_incr (w : wild) (i : Z) : gov () :=
  v ← node_cur_get w i; node_cur_set i (wrap (v + 1)).

Definition node_cur_decr (w : wild) (i : Z) : gov () :=
  v ← node_cur_get w i; node_cur_set i (wrap (v - 1)).

Definition rlim_cur_incr : gov () := λ g,
  ((), set_rlim_cur (wrap (ktask_rlim_cur g + 1)) g).

Definition rlim_cur_decr : gov () := λ g,
  ((), set_rlim_cur (wrap (ktask_rlim_cur g - 1)) g).

(** [ktask_rlim_init], given the number of online CPUs and the number of
    CPUs of each possible node; [None] stands for [false]. *)
Definition ktask_rlim_init (nr_cpus : Z) (node_cpus : list Z) : option rlim :=
  if nr_cpus =? 1 then None
  else Some
    {| ktask_rlim_cur := 0;
       ktask_rlim_max := mult_frac nr_cpus KTASK_CPUFRAC_NUMER KTASK_CPUFRAC_DENOM;
       ktask_rlim_node_cur := replicate (length node_cpus) 0;
       ktask_rlim_node_max :=
         map (λ nr_node_cpus,
                mult_frac nr_node_cpus KTASK_CPUFRAC_NUMER KTASK_CPUFRAC_DENOM)
             node_cpus;
       rlim_stray := [] |}.

Definition ktask_init_work (ktask_node_i : nat) (queue_nid : Z) : ktask_work :=
  {| kw_ktask_node_i := ktask_node_i; kw_queue_nid := queue_nid |}.

(** "Allowed to queue on requested node?" in [ktask_init_works]: the node
    the new work item is bound to, the node's counter bumped when that is
    [nid]. *)
Definition reserve_node (w : wild) (nid : Z) : gov Z :=
  if nid =? NUMA_NO_NODE then mret NUMA_NO_NODE
  else
    cur ← node_cur_get w nid;
    max ← node_max_get w nid;
    if cur <? max then node_cur_incr w nid;; mret nid
    else mret NUMA_NO_NODE.

(** One [try_reserve]: the body of the loop of [ktask_init_works], [None]
    when the global limit stops the loop. *)
Definition try_reserve (w : wild) (nid : Z) : gov (option Z) := λ g,
  if ktask_rlim_cur g =? ktask_rlim_max g then (None, g)
  else (queue_nid ← reserve_node w nid; rlim_cur_incr;; mret (Some queue_nid)) g.

(** The loop of [ktask_init_works], [n] iterations left. *)
Fixpoint init_works_loop (w : wild) (nodes : list ktask_node) (n : nat)
    (i nr_works : Z) (works_list : list ktask_work) (g : rlim)
    : option (Z * list ktask_work * rlim) :=
  match n with
  | O => Some (nr_works, works_list, g)
  | S n' =>
      ktask_node_i ← umod i (Z.of_nat (length nodes));
      kn ← nodes !! Z.to_nat ktask_node_i;
      match try_reserve w (kn_nid kn) g with
      | (None, g) => Some (nr_works, works_list, g)
      | (Some queue_nid, g) =>
          let kw := ktask_init_work (Z.to_nat ktask_node_i) queue_nid in
          init_works_loop w nodes n' (i + 1) (wrap (nr_works + 1))
            (works_list ++ [kw]) g
      end
  end.

Definition ktask_init_works (e : env) (w : wild) (nodes : list ktask_node)
    (kt : ktask_task) (g : rlim) : option (Z * list ktask_work * rlim) :=
  let min_chunk_size := kc_min_chunk_size (kt_ctl kt) in
  let max_threads := kc_max_threads (kt_ctl kt) in
  if negb (ktask_wq e) then Some (1, [], g)
  else
    let max_threads :=
      if max_threads =? 0 then ktask_max_threads else max_threads in
    nr_works_check ← DIV_ROUND_UP (kt_total_size kt) min_chunk_size;
    let nr_works_check := Z.min nr_works_check (Z.pos (num_online_cpus e)) in
    let nr_works_check := Z.min nr_works_check max_threads in
    let nr_works := 1 in
    init_works_loop w nodes (Z.to_nat (nr_works_check - nr_works))
      nr_works nr_works [] g.

(** [ktask_fini_works]: give every work item of the list back. *)
Definition release (w : wild) (work : ktask_work) : gov () :=
  (if kw_queue_nid work =? NUMA_NO_NODE then mret ()
   else node_cur_decr w (kw_queue_nid work));;
  rlim_cur_decr.

Fixpoint ktask_fini_works (w : wild) (works_list : list ktask_work) : gov () :=
  match works_list with
  | [] => mret ()
  | work :: rest => release w work;; ktask_fini_works w rest
  end.

(** "Adjust resource limits" in [ktask_node_migrate]: the work item bound
    to [queue_nid] moves towards node [nid]; the result is its new
    binding. *)
Definition re_pin (w : wild) (queue_nid nid : Z) : gov Z :=
  (if queue_nid =? NUMA_NO_NODE then mret ()
   else node_cur_decr w queue_nid);;
  if nid =? NUMA_NO_NODE then mret NUMA_NO_NODE
  else
    cur ← node_cur_get w queue_nid;
    max ← node_max_get w queue_nid;
    if cur <? max then node_cur_incr w nid;; mret nid
    else mret NUMA_NO_NODE.

(** [ktask_node_migrate]: [Some] of the rewritten work item when the work
    is queued again ([true]), [None] when the thread carries on
    ([false]). *)
Definition ktask_node_migrate (e : env) (w : wild) (on_kthread : bool)
    (old_kn kn : ktask_node) (ktask_node_i : nat) (kw : ktask_work)
    : gov (option ktask_work) :=
  if negb (CONFIG_NUMA e) || negb on_kthread
     || (kn_nid kn =? kn_nid old_kn) || (num_online_nodes e =? 1)
  then mret None
  else
    new_queue_nid ← re_pin w (kw_queue_nid kw) (kn_nid kn);
    mret (Some (ktask_init_work ktask_node_i new_queue_nid)).

(** ** The worker loop: [ktask_thread] *)

(** One scheduling decision of a run: which worker takes the job mutex
    next, what its processing callback returned if it comes back from one,
    what [prandom_u32_max] draws if it is called, and what loads outside
    the resource-limit arrays find. *)
Record choice := {
  c_worker : nat;
  c_ret : Z;
  c_rand : Z;
  c_wild : wild;
}.

(** Modelled from the spec: [prandom_u32_max(ep_ro)] of
    include/linux/random.h draws a number in [0, ep_ro), and 0 when
    [ep_ro] is 0.  The draw is the schedule's; [None] marks a number the
    function cannot return. *)
Definition prandom_u32_max (c : choice) (ep_ro : Z) : option Z :=
  if (0 <=? c_rand c) && ((c_rand c <? ep_ro) || (c_rand c =? 0))
  then Some (c_rand c) else None.

(** The scan for a node with work left: the value of [i] when the [for]
    loop over [kt_nodes] stops, [nodes] being the descriptors from index
    [i] on. *)
Fixpoint scan_nodes (nodes : list ktask_node) (new_idx : Z) (i : nat)
    (remaining_nodes_seen : Z) : nat :=
  match nodes with
  | [] => i
  | kn :: rest =>
      if kn_task_size kn =? 0 then scan_nodes rest new_idx (S i) remaining_nodes_seen
      else if new_idx <=? remaining_nodes_seen then i
      else scan_nodes rest new_idx (S i) (remaining_nodes_seen + 1)
  end.

Definition select_node (kt : ktask_task) (new_idx : Z) : nat :=
  scan_nodes (kt_nodes kt) new_idx 0 0.

(** How one pass through the body of the [while] loop, entered with
    [kt_mutex] held, ends: with a chunk of node [kn] to process (the mutex
    is dropped around the callback), with the work item queued again on
    another node, or with the loop left and the thread finished. *)
Inductive outcome :=
  | Claimed (kt : ktask_task) (kn : nat) (start end_ : Z)
  | Migrated (kw : ktask_work) (g : rlim)
  | Returned (kt : ktask_task).

(** Claiming a chunk of [kn], the descriptor at index [i]. *)
Definition ktask_claim (kt : ktask_task) (i : nat) (kn : ktask_node) : outcome :=
  let start := kn_start kn in
  let size := Z.min (kt_chunk_size kt) (kn_task_size kn) in
  let end_ := kc_iter_func (kt_ctl kt) start size in
  let kn := set_kn end_ (wrap (kn_task_size kn - size)) kn in
  let kt := set_kt_nodes (<[i := kn]> (kt_nodes kt)) kt in
  let kt := set_kt_total_size (wrap (kt_total_size kt - size)) kt in
  let kt := if kn_task_size kn =? 0
            then set_kt_nr_nodes_left (wrap (kt_nr_nodes_left kt - 1)) kt
            else kt in
  Claimed kt i start end_.

(** After the loop: count the thread as finished, complete the task when
    it is the last. *)
Definition ktask_thread_exit (kt : ktask_task) : ktask_task :=
  let kt := set_kt_nworks_fini (wrap (kt_nworks_fini kt + 1)) kt in
  if kt_nworks_fini kt =? kt_nworks kt then set_kt_ktask_done true kt else kt.

(** "Save first error code only." *)
Definition save_error (ret : Z) (kt : ktask_task) : ktask_task :=
  if (kt_error kt =? KTASK_RETURN_SUCCESS) && negb (ret =? kt_error kt)
  then set_kt_error ret kt else kt.

(** The loop test and one pass through the body, for the thread whose
    current descriptor has index [i]. *)
Definition ktask_thread_iter (e : env) (c : choice) (on_kthread : bool)
    (g : rlim) (kt : ktask_task) (kw : ktask_work) (i : nat) : option outcome :=
  if (0 <? kt_total_size kt) && (kt_error kt =? KTASK_RETURN_SUCCESS) then
    kn ← kt_nodes kt !! i;
    if kn_task_size kn =? 0 then
      new_idx ← prandom_u32_max c (kt_nr_nodes_left kt);
      let i := select_node kt new_idx in
      let old_kn := kn in
      kn ← kt_nodes kt !! i;
      match ktask_node_migrate e (c_wild c) on_kthread old_kn kn i kw g with
      | (Some kw, g) => Some (Migrated kw g)
      | (None, _) => Some (ktask_claim kt i kn)
      end
    else Some (ktask_claim kt i kn)
  else Some (Returned (ktask_thread_exit kt)).

(** ** A run as a transition system

    Where a worker stands between two holds of [kt_mutex]: its work item
    is queued and [ktask_thread] has not started, it is inside the
    processing callback for the chunk [start, end_) of node [kn], or it
    has returned from [ktask_thread] for good. *)
Inductive pc :=
  | Queued
  | InCall (kn : nat) (start end_ : Z)
  | Finished.

Record worker := {
  w_kw : ktask_work;
  w_kthread : bool;
  w_pc : pc;
}.

(** A finished invocation of the processing callback, in the order in
    which the results are taken under [kt_mutex]. *)
Record call := {
  call_node : nat;
  call_start : Z;
  call_end : Z;
  call_ret : Z;
}.

Record state := {
  st_kt : ktask_task;
  st_rlim : rlim;
  st_workers : list worker;
  st_calls : list call;
}.

Definition settle (s : state) (kt : ktask_task) (calls : list call)
    (i : nat) (w : worker) (o : outcome) : state :=
  match o with
  | Claimed kt kn start end_ =>
      {| st_kt := kt; st_rlim := st_rlim s;
         st_workers :=
           <[i := {| w_kw := w_kw w; w_kthread := w_kthread w;
                     w_pc := InCall kn start end_ |}]> (st_workers s);
         st_calls := calls |}
  | Migrated kw g =>
      {| st_kt := kt; st_rlim := g;
         st_workers :=
           <[i := {| w_kw := kw; w_kthread := true; w_pc := Queued |}]>
             (st_workers s);
         st_calls := calls |}
  | Returned kt =>
      {| st_kt := kt; st_rlim := st_rlim s;
         st_workers :=
           <[i := {| w_kw := w_kw w; w_kthread := w_kthread w;
                     w_pc := Finished |}]> (st_workers s);
         st_calls := calls |}
  end.

(** One hold of [kt_mutex] by worker [c_worker c]: from the start of
    [ktask_thread], or from the return of the processing callback, to the
    next release of the mutex. *)
Definition step (e : env) (c : choice) (s : state) : option state :=
  w ← st_workers s !! c_worker c;
  match w_pc w with
  | Finished => None
  | Queued =>
      o ← ktask_thread_iter e c (w_kthread w) (st_rlim s) (st_kt s) (w_kw w)
            (kw_ktask_node_i (w_kw w));
      Some (settle s (st_kt s) (st_calls s) (c_worker c) w o)
  | InCall kn start end_ =>
      let ret := c_ret c in
      let kt := save_error ret (st_kt s) in
      let calls := st_calls s ++ [ {| call_node := kn; call_start := start;
                                      call_end := end_; call_ret := ret |} ] in
      o ← ktask_thread_iter e c (w_kthread w) (st_rlim s) kt (w_kw w) kn;
      Some (settle s kt calls (c_worker c) w o)
  end.

Fixpoint exec (e : env) (cs : list choice) (s : state) : option state :=
  match cs with
  | [] => Some s
  | c :: cs => s ← step e c s; exec e cs s
  end.

(** ** The entry points *)

(** The first loop of [ktask_run_numa]. *)
Fixpoint sum_nodes (nodes : list ktask_node) (kt : ktask_task) : ktask_task :=
  match nodes with
  | [] => kt
  | kn :: rest =>
      let kt := set_kt_total_size (wrap (kt_total_size kt + kn_task_size kn)) kt in
      let kt := if kn_task_size kn =? 0
                then set_kt_nr_nodes_left (wrap (kt_nr_nodes_left kt - 1)) kt
                else kt in
      sum_nodes rest kt
  end.

Definition ktask_task_init (nodes : list ktask_node) (ctl : ktask_ctl) : ktask_task :=
  sum_nodes nodes
    {| kt_ctl := ctl; kt_total_size := 0; kt_chunk_size := 0;
       kt_nodes := nodes; kt_nr_nodes := Z.of_nat (length nodes);
       kt_nr_nodes_left := Z.of_nat (length nodes);
       kt_nworks := 0; kt_nworks_fini := 0;
       kt_error := KTASK_RETURN_SUCCESS; kt_ktask_done := false |}.

(** [ktask_run_numa] up to the point where the threads run: it has
    returned already, or the works are queued and the caller is about to
    enter [ktask_thread] itself (worker 0). *)
Inductive started :=
  | Immediate (status : Z)
  | Running (s : state).

Definition ktask_run_numa_setup (e : env) (w : wild) (g : rlim)
    (nodes : list ktask_node) (ctl : ktask_ctl) : option started :=
  let kt := ktask_task_init nodes ctl in
  if kt_total_size kt =? 0 then Some (Immediate KTASK_RETURN_SUCCESS)
  else
    r ← ktask_init_works e w nodes kt g;
    let kt := set_kt_nworks r.1.1 kt in
    chunk_size ← ktask_chunk_size (kt_total_size kt) (kc_min_chunk_size ctl)
                   (kt_nworks kt);
    let kt := set_kt_chunk_size chunk_size kt in
    kn ← nodes !! 0%nat;
    let kw := ktask_init_work 0 (kn_nid kn) in
    Some (Running
      {| st_kt := kt; st_rlim := r.2;
         st_workers :=
           {| w_kw := kw; w_kthread := caller_kthread e; w_pc := Queued |}
           :: map (λ kw, {| w_kw := kw; w_kthread := true; w_pc := Queued |})
                  r.1.2;
         st_calls := [] |}).

(** [ktask_run_numa] under the schedule [cs]: the status returned, the
    resource limits left behind and the calls made to the processing
    callback; [None] when [cs] is not a complete schedule of the run. *)
Definition ktask_run_numa (e : env) (w : wild) (g : rlim)
    (nodes : list ktask_node) (ctl : ktask_ctl) (cs : list choice)
    : option (Z * rlim * list call) :=
  r ← ktask_run_numa_setup e w g nodes ctl;
  match r with
  | Immediate status =>
      match cs with [] => Some (status, g, []) | _ => None end
  | Running s =>
      s ← exec e cs s;
      if kt_ktask_done (st_kt s) then
        let works_list := map w_kw (tail (st_workers s)) in
        Some (kt_error (st_kt s),
              (ktask_fini_works w works_list (st_rlim s)).2,
              st_calls s)
      else None
  end.

Definition ktask_run (e : env) (w : wild) (g : rlim) (start task_size : Z)
    (ctl : ktask_ctl) (cs : list choice) : option (Z * rlim * list call) :=
  let node := {| kn_start := start; kn_task_size := task_size;
                 kn_nid := numa_node_id e |} in
  ktask_run_numa e w g [node] ctl cs.

(** The default iterator. *)
Definition ktask_iter_range (position size : Z) : Z := wrap (position + size).

(** ** Start-up: [ktask_rlim_init], [ktask_init], [ktask_queue_work] *)

(** What the allocations of [ktask_init] return: whether each
    [alloc_workqueue] and [alloc_workqueue_attrs] yields an object, and
    the return value of [apply_workqueue_attrs].  The arrays allocated
    with [kcalloc] and [kmalloc_array] are used unchecked by the source,
    and are taken to exist. *)
Record boot := {
  alloc_ktask_wq : bool;
  alloc_ktask_nonuma_wq : bool;
  alloc_attrs : bool;
  apply_workqueue_attrs : Z;
}.

(** The file-scope state [ktask_init] leaves behind: the resource limits
    ([None] when [ktask_rlim_init] returned [false] and the arrays were
    never allocated), the length of [ktask_free_works], and whether
    [ktask_wq] and [ktask_nonuma_wq] are set. *)
Record ktask_globals := {
  kg_rlim : option rlim;
  kg_free_works : Z;
  kg_wq : bool;
  kg_nonuma_wq : bool;
}.

Definition ktask_init (b : boot) (nr_cpus : Z) (node_cpus : list Z) : ktask_globals :=
  match ktask_rlim_init nr_cpus node_cpus with
  | None =>
      {| kg_rlim := None; kg_free_works := 0; kg_wq := false; kg_nonuma_wq := false |}
  | Some g =>
      let free := Z.max 0 (ktask_rlim_max g) in
      let out wq nonuma :=
        {| kg_rlim := Some g; kg_free_works := free; kg_wq := wq;
           kg_nonuma_wq := nonuma |} in
      (* alloc_fail: both workqueues are destroyed and both pointers cleared *)
      let alloc_fail := out false false in
      let apply_fail := alloc_fail in
      if negb (alloc_ktask_wq b) then out false false
      else if negb (alloc_ktask_nonuma_wq b) then alloc_fail
      else if negb (alloc_attrs b) then alloc_fail
      else if negb (apply_workqueue_attrs b =? 0) then apply_fail
      else out true true
  end.

(** Where [ktask_queue_work] puts a work item: the CPU argument and the
    workqueue passed to [queue_work_on]. *)
Inductive cpu_target :=
  | WORK_CPU_UNBOUND
  | cpu_of_node (nid : Z).

Inductive workqueue :=
  | the_ktask_wq
  | the_ktask_nonuma_wq
  | no_workqueue.

Definition ktask_queue_work (kg : ktask_globals) (kw : ktask_work)
    : cpu_target * workqueue :=
  let ktask_wq := if kg_wq kg then the_ktask_wq else no_workqueue in
  if kw_queue_nid kw =? NUMA_NO_NODE then
    (WORK_CPU_UNBOUND, if kg_nonuma_wq kg then the_ktask_nonuma_wq else ktask_wq)
  else (cpu_of_node (kw_queue_nid kw), ktask_wq).

(** * Properties *)

(** ** Machine integers *)

Lemma wrap_small x : is_size_t x → wrap x = x.
Proof. intros H. unfold wrap. apply Z.mod_small. exact H. Qed.

Lemma wrap_range x : is_size_t (wrap x).
Proof. unfold wrap, is_size_t. apply Z.mod_pos_bound. reflexivity. Qed.

Lemma wrap_wrap x : wrap (wrap x) = wrap x.
Proof. apply wrap_small, wrap_range. Qed.

Lemma wrap_add_l x y : wrap (wrap x + y) = wrap (x + y).
Proof. unfold wrap. apply Zplus_mod_idemp_l. Qed.

Lemma wrap_sub_l x y : wrap (wrap x - y) = wrap (x - y).
Proof. unfold wrap. apply Zminus_mod_idemp_l. Qed.

Lemma wrap_zero_inv x : is_size_t x → wrap x = 0 → x = 0.
Proof. intros H. rewrite wrap_small by exact H. auto. Qed.

(** ** The chunker *)

Lemma rounddown_pos x y :
  1 <= y → rounddown x y = Some (y * (x / y)).
Proof.
  intros Hy. unfold rounddown, umod.
  destruct (Z.eqb_spec y 0) as [->|_]; [lia|]. simpl.
  f_equal. pose proof (Z.div_mod x y). lia.
Qed.

Lemma chunk_size_total min_grain workers total :
  1 <= min_grain → 1 <= workers →
  ktask_chunk_size total min_grain workers
  = Some (chunk_size_spec total min_grain workers).
Proof.
  intros Hm Hw. unfold ktask_chunk_size, chunk_size_spec.
  destruct (workers =? 1); [reflexivity|].
  unfold udiv. destruct (Z.eqb_spec workers 0) as [->|_]; [lia|]. simpl.
  change KTASK_LOAD_BAL_SHIFT with 2.
  destruct (min_grain <? Z.shiftr (total / workers) 2); simpl;
    [rewrite rounddown_pos by exact Hm|]; reflexivity.
Qed.

Lemma chunk_size_spec_multi total min_grain workers :
  1 <= min_grain → workers ≠ 1 →
  let size := chunk_size_spec total min_grain workers in
  min_grain <= size ∧ (min_grain | size).
Proof.
  intros Hm Hw. unfold chunk_size_spec.
  destruct (Z.eqb_spec workers 1) as [?|_]; [contradiction|].
  set (c := Z.shiftr (total / workers) 2).
  destruct (Z.ltb_spec min_grain c) as [Hlt|Hge]; simpl.
  - assert (1 <= c / min_grain) by (apply Z.div_le_lower_bound; lia).
    rewrite Z.max_l by nia. split; [nia|].
    exists (c / min_grain). lia.
  - rewrite Z.max_r by lia. split; [lia|]. exists 1. lia.
Qed.

(** C3, as stated: the chunker's result at [total = 10],
    [min_grain = 64], one worker is 10, below [min_grain], so the contract
    of section 4.1 does not hold of it. *)
Lemma chunker_contract_fails_single_worker :
  ktask_chunk_size 10 64 1 = Some 10 ∧ ¬ chunker_contract 10 64 1 10.
Proof.
  split; [reflexivity|]. intros [H _]. lia.
Qed.

(** C3, amended: for [min_grain >= 1] and [workers >= 1] the chunker
    returns a size; with one worker that size is [total] itself (so it is
    at most [total]); with two workers or more it is at least [min_grain]
    and a multiple of [min_grain]. *)
Theorem ktask_chunk_size_contract total min_grain workers :
  1 <= min_grain → 1 <= workers →
  ∃ size, ktask_chunk_size total min_grain workers = Some size ∧
    (workers = 1 → size = total ∧ size <= total) ∧
    (workers ≠ 1 → min_grain <= size ∧ (min_grain | size)).
Proof.
  intros Hm Hw. exists (chunk_size_spec total min_grain workers).
  split; [apply chunk_size_total; assumption|]. split.
  - intros ->. unfold chunk_size_spec. simpl. lia.
  - intros Hne. apply chunk_size_spec_multi; assumption.
Qed.

Lemma ktask_chunk_size_contract_witness :
  ∃ size, ktask_chunk_size 4096 64 4 = Some size ∧
    (4 = 1 → size = 4096 ∧ size <= 4096) ∧
    (4 ≠ 1 → 64 <= size ∧ (64 | size)).
Proof. apply (ktask_chunk_size_contract 4096 64 4); lia. Defined.

(** C4: the chunker computes the algorithm of section 4.1: for
    [min_grain >= 1] and [workers >= 1] it returns [total] when
    [workers = 1] and otherwise [max candidate' min_grain], where
    [candidate = (total / workers) >> 2] and [candidate'] is [candidate]
    rounded down to a multiple of [min_grain] when it exceeds [min_grain];
    for 1024 bytes, a grain of 256 and 4 workers the result is 256. *)
Theorem ktask_chunk_size_refines total min_grain workers :
  1 <= min_grain → 1 <= workers →
  ktask_chunk_size total min_grain workers
  = Some (chunk_size_spec total min_grain workers)
  ∧ ktask_chunk_size 1024 256 4 = Some 256.
Proof.
  intros Hm Hw. split; [apply chunk_size_total; assumption|reflexivity].
Qed.

Lemma ktask_chunk_size_refines_witness :
  ktask_chunk_size 1024 256 4 = Some (chunk_size_spec 1024 256 4)
  ∧ ktask_chunk_size 1024 256 4 = Some 256.
Proof. apply (ktask_chunk_size_refines 1024 256 4); lia. Defined.

(** ** Picking a node with work left *)

Definition has_work (kn : ktask_node) : bool := negb (kn_task_size kn =? 0).

(** The number of descriptors with work left. *)
Fixpoint nodes_with_work (nodes : list ktask_node) : Z :=
  match nodes with
  | [] => 0
  | kn :: rest => (if has_work kn then 1 else 0) + nodes_with_work rest
  end.

Lemma nodes_with_work_nonneg nodes : 0 <= nodes_with_work nodes.
Proof. induction nodes as [|kn rest IH]; simpl; [lia|]. destruct (has_work kn); lia. Qed.

Lemma nodes_with_work_le_length nodes :
  nodes_with_work nodes <= Z.of_nat (length nodes).
Proof.
  induction nodes as [|kn rest IH]; simpl length; simpl nodes_with_work; [lia|].
  destruct (has_work kn); lia.
Qed.

Lemma scan_nodes_spec nodes : ∀ r i seen,
  seen <= r < seen + nodes_with_work nodes →
  ∃ k kn, scan_nodes nodes r i seen = (i + k)%nat ∧
    nodes !! k = Some kn ∧ kn_task_size kn ≠ 0 ∧
    seen + nodes_with_work (take k nodes) = r.
Proof.
  induction nodes as [|kn rest IH]; intros r i seen Hr; simpl in Hr; [lia|].
  simpl scan_nodes. unfold has_work in Hr.
  destruct (Z.eqb_spec (kn_task_size kn) 0) as [Hz|Hnz]; simpl in Hr.
  - destruct (IH r (S i) seen) as (k & kn' & Hscan & Hk & Hw & Hcnt); [lia|].
    exists (S k), kn'. rewrite Hscan. split; [lia|]. split; [exact Hk|].
    split; [exact Hw|]. simpl. unfold has_work.
    destruct (Z.eqb_spec (kn_task_size kn) 0); [simpl; lia|contradiction].
  - destruct (Z.leb_spec r seen) as [Hle|Hgt].
    + exists 0%nat, kn. split; [lia|]. split; [reflexivity|].
      split; [exact Hnz|]. simpl. lia.
    + destruct (IH r (S i) (seen + 1)) as (k & kn' & Hscan & Hk & Hw & Hcnt); [lia|].
      exists (S k), kn'. rewrite Hscan. split; [lia|]. split; [exact Hk|].
      split; [exact Hw|]. simpl. unfold has_work.
      destruct (Z.eqb_spec (kn_task_size kn) 0); [contradiction|simpl; lia].
Qed.

Lemma select_node_spec kt r :
  0 <= r < nodes_with_work (kt_nodes kt) →
  ∃ kn, kt_nodes kt !! select_node kt r = Some kn ∧ kn_task_size kn ≠ 0 ∧
    nodes_with_work (take (select_node kt r) (kt_nodes kt)) = r.
Proof.
  intros Hr. unfold select_node.
  destruct (scan_nodes_spec (kt_nodes kt) r 0%nat 0) as (k & kn & -> & Hk & Hw & Hc);
    [lia|].
  exists kn. simpl. split; [exact Hk|]. split; [exact Hw|lia].
Qed.

Lemma ktask_node_migrate_work e w on_kthread old_kn kn i kw g kw' g' :
  ktask_node_migrate e w on_kthread old_kn kn i kw g = (Some kw', g') →
  kw_ktask_node_i kw' = i.
Proof.
  unfold ktask_node_migrate.
  destruct (negb (CONFIG_NUMA e) || negb on_kthread
            || (kn_nid kn =? kn_nid old_kn) || (num_online_nodes e =? 1)).
  - intros H. inversion H.
  - unfold mbind, gov_bind, mret, gov_ret. intros H. inversion H. reflexivity.
Qed.

(** C6: when the thread's current descriptor is out of work while the
    task is not, and [kt_nr_nodes_left] counts the descriptors with work
    left, then for every draw [r < kt_nr_nodes_left] the scan stops at a
    descriptor that has work and has exactly [r] descriptors with work
    before it (the (r+1)-th such descriptor), and that descriptor is the
    one the thread continues with: it claims its next chunk there or
    queues its work item again for it. *)
Theorem select_node_is_rth_with_work e c on_kthread g kt kw i old_kn :
  kt_nr_nodes_left kt = nodes_with_work (kt_nodes kt) →
  0 <= c_rand c < kt_nr_nodes_left kt →
  0 < kt_total_size kt → kt_error kt = KTASK_RETURN_SUCCESS →
  kt_nodes kt !! i = Some old_kn → kn_task_size old_kn = 0 →
  let j := select_node kt (c_rand c) in
  (∃ kn, kt_nodes kt !! j = Some kn ∧ kn_task_size kn ≠ 0 ∧
         nodes_with_work (take j (kt_nodes kt)) = c_rand c) ∧
  ((∃ kt' start end_,
      ktask_thread_iter e c on_kthread g kt kw i = Some (Claimed kt' j start end_)) ∨
   (∃ queue_nid g',
      ktask_thread_iter e c on_kthread g kt kw i
      = Some (Migrated (ktask_init_work j queue_nid) g'))).
Proof.
  intros Hleft Hr Htot Herr Hi Hz j.
  destruct (select_node_spec kt (c_rand c)) as (kn & Hkn & Hw & Hcnt); [lia|].
  fold j in Hkn, Hcnt. split; [exists kn; auto|].
  unfold ktask_thread_iter.
  destruct (Z.ltb_spec 0 (kt_total_size kt)); [|lia].
  rewrite Herr. simpl. rewrite Hi. simpl. rewrite Hz. simpl.
  unfold prandom_u32_max.
  destruct (Z.leb_spec 0 (c_rand c)); [|lia].
  destruct (Z.ltb_spec (c_rand c) (kt_nr_nodes_left kt)); [|lia].
  simpl. fold j. rewrite Hkn. simpl.
  destruct (ktask_node_migrate e (c_wild c) on_kthread old_kn kn j kw g)
    as [[kw'|] g'] eqn:Hm.
  - right. pose proof (ktask_node_migrate_work _ _ _ _ _ _ _ _ _ _ Hm) as Hj.
    destruct kw' as [j' q]. simpl in Hj. subst j'. exists q, g'. reflexivity.
  - left. unfold ktask_claim. eauto.
Qed.

(** ** Sample hosts and jobs

    A host with five online CPUs on two nodes; its workqueues exist. *)
Definition host (e_numa : bool) : env :=
  {| ktask_wq := true; num_online_cpus := 5; num_online_nodes := 2;
     CONFIG_NUMA := e_numa; numa_node_id := 0; caller_kthread := false |}.

Definition rlim_of (nr_cpus : Z) (node_cpus : list Z) : rlim :=
  default {| ktask_rlim_cur := 0; ktask_rlim_max := 0;
             ktask_rlim_node_cur := []; ktask_rlim_node_max := [];
             rlim_stray := [] |}
          (ktask_rlim_init nr_cpus node_cpus).

Definition no_wild : wild := {| wild_cur := 0; wild_max := 0 |}.

Definition range_ctl (min_chunk_size max_threads : Z) : ktask_ctl :=
  {| kc_iter_func := ktask_iter_range; kc_min_chunk_size := min_chunk_size;
     kc_max_threads := max_threads |}.

Definition pick (i : nat) (ret rand : Z) : choice :=
  {| c_worker := i; c_ret := ret; c_rand := rand; c_wild := no_wild |}.

Definition node (start size nid : Z) : ktask_node :=
  {| kn_start := start; kn_task_size := size; kn_nid := nid |}.

Lemma select_node_is_rth_with_work_witness :
  let kt := ktask_task_init [node 0 0 0; node 64 8 1; node 128 0 0; node 256 4 1]
              (range_ctl 4 0) in
  let kt := set_kt_chunk_size 4 (set_kt_nworks 1 kt) in
  let c := pick 0 0 1 in
  let e := host true in
  let g := rlim_of 5 [2; 3] in
  let kw := ktask_init_work 0 0 in
  let j := select_node kt (c_rand c) in
  (∃ kn, kt_nodes kt !! j = Some kn ∧ kn_task_size kn ≠ 0 ∧
         nodes_with_work (take j (kt_nodes kt)) = c_rand c) ∧
  ((∃ kt' start end_,
      ktask_thread_iter e c false g kt kw 0 = Some (Claimed kt' j start end_)) ∨
   (∃ queue_nid g',
      ktask_thread_iter e c false g kt kw 0
      = Some (Migrated (ktask_init_work j queue_nid) g'))).
Proof.
  intros kt0 kt c e g kw.
  apply (select_node_is_rth_with_work e c false g kt kw 0 (node 0 0 0)).
  - reflexivity.
  - vm_compute. split; [discriminate|reflexivity].
  - reflexivity.
  - reflexivity.
  - reflexivity.
  - reflexivity.
Defined.

(** ** The first loop of [ktask_run_numa] *)

Fixpoint sum_sizes (nodes : list ktask_node) : Z :=
  match nodes with
  | [] => 0
  | kn :: rest => kn_task_size kn + sum_sizes rest
  end.

(** What the type [size_t] says of a node array and its length. *)
Definition node_array (nodes : list ktask_node) : Prop :=
  Z.of_nat (length nodes) < 2 ^ SIZE_WIDTH ∧
  Forall (λ kn, is_size_t (kn_task_size kn)) nodes.

Lemma sum_nodes_fields nodes : ∀ kt,
  let kt' := sum_nodes nodes kt in
  kt_ctl kt' = kt_ctl kt ∧ kt_chunk_size kt' = kt_chunk_size kt ∧
  kt_nodes kt' = kt_nodes kt ∧ kt_nr_nodes kt' = kt_nr_nodes kt ∧
  kt_nworks kt' = kt_nworks kt ∧ kt_nworks_fini kt' = kt_nworks_fini kt ∧
  kt_error kt' = kt_error kt ∧ kt_ktask_done kt' = kt_ktask_done kt.
Proof.
  induction nodes as [|kn rest IH]; intros kt; simpl; [tauto|].
  destruct (kn_task_size kn =? 0);
    match goal with |- context [sum_nodes rest ?k] => destruct (IH k) as (?&?&?&?&?&?&?&?) end;
    simpl in *; repeat split; congruence.
Qed.

Lemma sum_nodes_total nodes : ∀ kt,
  kt_total_size (sum_nodes nodes kt)
  = match nodes with
    | [] => kt_total_size kt
    | _ => wrap (kt_total_size kt + sum_sizes nodes)
    end.
Proof.
  induction nodes as [|kn rest IH]; intros kt; [reflexivity|].
  simpl sum_nodes. rewrite IH. simpl sum_sizes.
  destruct rest as [|kn' rest'].
  - destruct (kn_task_size kn =? 0); simpl; f_equal; lia.
  - destruct (kn_task_size kn =? 0); simpl; rewrite wrap_add_l; f_equal; lia.
Qed.

Lemma sum_nodes_left nodes : ∀ kt,
  nodes_with_work nodes <= Z.of_nat (length nodes) <= kt_nr_nodes_left kt →
  kt_nr_nodes_left kt < 2 ^ SIZE_WIDTH →
  kt_nr_nodes_left (sum_nodes nodes kt)
  = kt_nr_nodes_left kt - (Z.of_nat (length nodes) - nodes_with_work nodes).
Proof.
  induction nodes as [|kn rest IH]; intros kt Hle Hlt; simpl sum_nodes.
  - simpl. lia.
  - pose proof (nodes_with_work_le_length rest) as Hr.
    pose proof (nodes_with_work_nonneg rest) as Hr0.
    simpl length in *. simpl nodes_with_work in *. unfold has_work in *.
    destruct (kn_task_size kn =? 0); simpl in *.
    + rewrite IH; simpl.
      * rewrite wrap_small by (unfold is_size_t; lia). lia.
      * rewrite wrap_small by (unfold is_size_t; lia). lia.
      * pose proof (wrap_range (kt_nr_nodes_left kt - 1)) as Hw.
        unfold is_size_t in Hw. lia.
    + rewrite IH; simpl; lia.
Qed.

Lemma sum_sizes_nonneg nodes :
  Forall (λ kn, is_size_t (kn_task_size kn)) nodes → 0 <= sum_sizes nodes.
Proof.
  induction 1 as [|kn rest Hkn _ IH]; simpl; [lia|]. unfold is_size_t in Hkn. lia.
Qed.

Lemma ktask_task_init_ctl nodes ctl : kt_ctl (ktask_task_init nodes ctl) = ctl.
Proof. unfold ktask_task_init. apply sum_nodes_fields. Qed.

Lemma ktask_task_init_nodes nodes ctl : kt_nodes (ktask_task_init nodes ctl) = nodes.
Proof. unfold ktask_task_init. apply sum_nodes_fields. Qed.

Lemma ktask_task_init_total nodes ctl :
  kt_total_size (ktask_task_init nodes ctl) = wrap (sum_sizes nodes).
Proof.
  unfold ktask_task_init. rewrite sum_nodes_total. simpl.
  destruct nodes; reflexivity.
Qed.

Lemma ktask_task_init_left nodes ctl :
  Z.of_nat (length nodes) < 2 ^ SIZE_WIDTH →
  kt_nr_nodes_left (ktask_task_init nodes ctl) = nodes_with_work nodes.
Proof.
  intros Hlen. unfold ktask_task_init. rewrite sum_nodes_left; simpl.
  - lia.
  - pose proof (nodes_with_work_le_length nodes). lia.
  - exact Hlen.
Qed.

Lemma ktask_task_init_fresh nodes ctl :
  kt_nworks_fini (ktask_task_init nodes ctl) = 0 ∧
  kt_error (ktask_task_init nodes ctl) = KTASK_RETURN_SUCCESS ∧
  kt_ktask_done (ktask_task_init nodes ctl) = false.
Proof.
  unfold ktask_task_init.
  match goal with |- context [sum_nodes ?n ?k] =>
    destruct (sum_nodes_fields n k) as (_ & _ & _ & _ & _ & Hf & He & Hd) end.
  rewrite Hf, He, Hd. auto.
Qed.

Lemma total_pos_nonempty nodes ctl :
  0 < kt_total_size (ktask_task_init nodes ctl) → nodes ≠ [].
Proof. intros H ->. vm_compute in H. discriminate. Qed.

(** ** The worker-count decision: [ktask_init_works] *)

Ltac gov_unfold :=
  unfold try_reserve, reserve_node, re_pin, release, node_cur_incr, node_cur_decr,
    rlim_cur_incr, rlim_cur_decr, node_cur_get, node_max_get, node_cur_set,
    mbind, gov_bind, mret, gov_ret in *.

Ltac gov_cases :=
  repeat (simpl in *;
          match goal with
          | H : ?b = _ |- context [if ?b then _ else _] => rewrite H
          | |- context [if ?b then _ else _] => destruct b eqn:?
          end); simpl in *.

Lemma reserve_node_limits w nid g :
  ktask_rlim_cur (reserve_node w nid g).2 = ktask_rlim_cur g ∧
  ktask_rlim_max (reserve_node w nid g).2 = ktask_rlim_max g ∧
  ktask_rlim_node_max (reserve_node w nid g).2 = ktask_rlim_node_max g.
Proof.
  gov_unfold. destruct (nid =? NUMA_NO_NODE); [simpl; auto|].
  repeat match goal with
         | |- context [if ?b then _ else _] => destruct b; simpl
         end; auto.
Qed.

Lemma try_reserve_some w nid g :
  ktask_rlim_cur g ≠ ktask_rlim_max g →
  ∃ queue_nid g', try_reserve w nid g = (Some queue_nid, g') ∧
    ktask_rlim_cur g' = wrap (ktask_rlim_cur g + 1) ∧
    ktask_rlim_max g' = ktask_rlim_max g.
Proof.
  intros Hne. unfold try_reserve.
  destruct (Z.eqb_spec (ktask_rlim_cur g) (ktask_rlim_max g)); [contradiction|].
  destruct (reserve_node_limits w nid g) as (Hc & Hm & _).
  unfold mbind, gov_bind, mret, gov_ret, rlim_cur_incr. simpl.
  eexists _, _. split; [reflexivity|]. simpl. rewrite Hc, Hm. auto.
Qed.

Lemma try_reserve_none w nid g :
  ktask_rlim_cur g = ktask_rlim_max g → try_reserve w nid g = (None, g).
Proof.
  intros Heq. unfold try_reserve.
  destruct (Z.eqb_spec (ktask_rlim_cur g) (ktask_rlim_max g)); [reflexivity|contradiction].
Qed.

Lemma node_at_mod (nodes : list ktask_node) i :
  nodes ≠ [] → 0 <= i →
  ∃ kn, umod i (Z.of_nat (length nodes)) = Some (i mod Z.of_nat (length nodes)) ∧
        nodes !! Z.to_nat (i mod Z.of_nat (length nodes)) = Some kn.
Proof.
  intros Hne Hi.
  assert (0 < Z.of_nat (length nodes)) as Hlen by (destruct nodes; [congruence|simpl; lia]).
  pose proof (Z.mod_pos_bound i _ Hlen) as Hb.
  destruct (lookup_lt_is_Some_2 nodes (Z.to_nat (i mod Z.of_nat (length nodes))))
    as [kn Hkn]; [lia|].
  exists kn. split; [|exact Hkn].
  unfold umod. destruct (Z.eqb_spec (Z.of_nat (length nodes)) 0); [lia|reflexivity].
Qed.

Lemma init_works_loop_count w nodes n : nodes ≠ [] →
  ∀ i nr_works works_list g,
  0 <= i → 0 <= nr_works → nr_works + Z.of_nat n < 2 ^ SIZE_WIDTH →
  ∃ nr_works' works_list' g',
    init_works_loop w nodes n i nr_works works_list g
    = Some (nr_works', works_list', g') ∧
    nr_works <= nr_works' <= nr_works + Z.of_nat n ∧
    nr_works' - nr_works
    = Z.of_nat (length works_list') - Z.of_nat (length works_list) ∧
    (Forall (λ kw, (kw_ktask_node_i kw < length nodes)%nat) works_list →
     Forall (λ kw, (kw_ktask_node_i kw < length nodes)%nat) works_list') ∧
    (0 <= ktask_rlim_cur g → ktask_rlim_max g < 2 ^ SIZE_WIDTH →
     ktask_rlim_cur g + Z.of_nat n <= ktask_rlim_max g →
     nr_works' = nr_works + Z.of_nat n).
Proof.
  intros Hne. induction n as [|n IH]; intros i nr works g Hi Hnr Hfit.
  - simpl. eexists _, _, _. split; [reflexivity|]. repeat split; auto; lia.
  - simpl init_works_loop.
    destruct (node_at_mod nodes i Hne Hi) as (kn & -> & Hkn). simpl.
    rewrite Hkn. simpl.
    destruct (Z.eq_dec (ktask_rlim_cur g) (ktask_rlim_max g)) as [Heq|Hneq].
    + rewrite try_reserve_none by exact Heq.
      eexists _, _, _. split; [reflexivity|]. repeat split; auto; lia.
    + destruct (try_reserve_some w (kn_nid kn) g Hneq) as (q & g' & -> & Hc & Hm).
      assert (wrap (nr + 1) = nr + 1) as Hw
        by (apply wrap_small; unfold is_size_t; lia).
      rewrite Hw.
      destruct (IH (i + 1) (nr + 1)
                  (works ++ [ktask_init_work
                                (Z.to_nat (i mod Z.of_nat (length nodes))) q]) g')
        as (nr' & works' & g'' & -> & Hb & Hlen & Hat & Hex); [lia|lia|lia|].
      rewrite length_app in Hlen. simpl in Hlen.
      eexists _, _, _. split; [reflexivity|]. split; [lia|]. split; [lia|].
      split.
      { intros Hall. apply Hat. apply Forall_app. split; [exact Hall|].
        apply Forall_singleton. simpl. eapply lookup_lt_Some; eauto. }
      intros Hc0 Hmx Hroom. rewrite Hex; [lia| | |].
      * rewrite Hc. pose proof (wrap_range (ktask_rlim_cur g + 1)) as Hr.
        unfold is_size_t in Hr. lia.
      * lia.
      * rewrite Hc, Hm, wrap_small by (unfold is_size_t; lia). lia.
Qed.

(** The ceiling of [n / d]. *)
Definition ceil_div (n d : Z) : Z :=
  if n mod d =? 0 then n / d else n / d + 1.

(** The number of threads a task asks for (section 4.5, "Worker-count
    decision"): the ceiling of [total / min_grain], clamped to the online
    CPUs, then to [max_threads] (the default, 4, when that is 0). *)
Definition wanted_works (e : env) (kt : ktask_task) : Z :=
  let max_threads :=
    if kc_max_threads (kt_ctl kt) =? 0 then 4 else kc_max_threads (kt_ctl kt) in
  Z.min (Z.min (ceil_div (kt_total_size kt) (kc_min_chunk_size (kt_ctl kt)))
               (Z.pos (num_online_cpus e)))
        max_threads.

Lemma ceil_div_sum n d : 1 <= d → (n + d - 1) / d = ceil_div n d.
Proof.
  intros Hd. unfold ceil_div.
  pose proof (Z.div_mod n d) as Hdm. pose proof (Z.mod_pos_bound n d) as Hb.
  destruct (Z.eqb_spec (n mod d) 0) as [Hz|Hnz].
  - symmetry. apply Z.div_unique with (r := d - 1); lia.
  - symmetry. apply Z.div_unique with (r := n mod d - 1); lia.
Qed.

Lemma DIV_ROUND_UP_wrap n d :
  1 <= d → DIV_ROUND_UP n d = Some (wrap (n + d - 1) / d).
Proof.
  intros Hd. unfold DIV_ROUND_UP, udiv.
  destruct (Z.eqb_spec d 0); [lia|reflexivity].
Qed.

Lemma DIV_ROUND_UP_ceil n d :
  1 <= d → 0 <= n → n + d - 1 < 2 ^ SIZE_WIDTH →
  DIV_ROUND_UP n d = Some (ceil_div n d).
Proof.
  intros Hd Hn Hfit. rewrite DIV_ROUND_UP_wrap by exact Hd.
  rewrite wrap_small by (unfold is_size_t; lia).
  rewrite ceil_div_sum by exact Hd. reflexivity.
Qed.

Lemma ceil_div_bounds n d : 1 <= d → 0 < n → 1 <= ceil_div n d <= n.
Proof.
  intros Hd Hn. unfold ceil_div.
  pose proof (Z.div_mod n d) as Hdm. pose proof (Z.mod_pos_bound n d) as Hb.
  assert (0 <= n / d) by (apply Z.div_pos; lia).
  destruct (Z.eqb_spec (n mod d) 0) as [Hz|Hnz]; nia.
Qed.

Lemma wanted_works_bounds e kt :
  1 <= kc_min_chunk_size (kt_ctl kt) → 0 <= kc_max_threads (kt_ctl kt) →
  0 < kt_total_size kt →
  1 <= wanted_works e kt <= kt_total_size kt.
Proof.
  intros Hm Ht Hn. unfold wanted_works.
  pose proof (ceil_div_bounds _ _ Hm Hn).
  destruct (Z.eqb_spec (kc_max_threads (kt_ctl kt)) 0); lia.
Qed.

(** The bound of the loop of [ktask_init_works], [nr_works_check]: the
    round-up as the code computes it, clamped to the online CPUs, then to
    [max_threads]. *)
Definition checked_works (e : env) (kt : ktask_task) : Z :=
  let min_chunk_size := kc_min_chunk_size (kt_ctl kt) in
  let max_threads :=
    if kc_max_threads (kt_ctl kt) =? 0 then ktask_max_threads
    else kc_max_threads (kt_ctl kt) in
  Z.min (Z.min (wrap (kt_total_size kt + min_chunk_size - 1) / min_chunk_size)
               (Z.pos (num_online_cpus e)))
        max_threads.

Lemma checked_works_le_wanted e kt :
  1 <= kc_min_chunk_size (kt_ctl kt) → 0 <= kt_total_size kt →
  checked_works e kt <= wanted_works e kt.
Proof.
  intros Hm Hn. unfold checked_works, wanted_works.
  change ktask_max_threads with 4.
  assert (wrap (kt_total_size kt + kc_min_chunk_size (kt_ctl kt) - 1)
          / kc_min_chunk_size (kt_ctl kt)
          <= ceil_div (kt_total_size kt) (kc_min_chunk_size (kt_ctl kt))) as Hle.
  { rewrite <- ceil_div_sum by exact Hm. apply Z.div_le_mono; [lia|].
    unfold wrap. apply Z.mod_le; [lia|reflexivity]. }
  lia.
Qed.

Lemma checked_works_no_wrap e kt :
  1 <= kc_min_chunk_size (kt_ctl kt) → 0 <= kt_total_size kt →
  kt_total_size kt + kc_min_chunk_size (kt_ctl kt) - 1 < 2 ^ SIZE_WIDTH →
  checked_works e kt = wanted_works e kt.
Proof.
  intros Hm Hn Hfit. unfold checked_works, wanted_works.
  change ktask_max_threads with 4.
  rewrite wrap_small by (unfold is_size_t; lia).
  rewrite ceil_div_sum by exact Hm. reflexivity.
Qed.

Lemma init_works_result e w g nodes ctl :
  let kt := ktask_task_init nodes ctl in
  0 < kt_total_size kt → 1 <= kc_min_chunk_size ctl → 0 <= kc_max_threads ctl →
  ∃ nworks works_list g',
    ktask_init_works e w nodes kt g = Some (nworks, works_list, g') ∧
    1 <= nworks <= wanted_works e kt ∧
    nworks = 1 + Z.of_nat (length works_list) ∧
    Forall (λ kw, (kw_ktask_node_i kw < length nodes)%nat) works_list ∧
    (ktask_wq e = true →
     0 <= ktask_rlim_cur g → ktask_rlim_max g < 2 ^ SIZE_WIDTH →
     ktask_rlim_cur g + (Z.max 1 (checked_works e kt) - 1) <= ktask_rlim_max g →
     nworks = Z.max 1 (checked_works e kt)) ∧
    (ktask_wq e = false → nworks = 1).
Proof.
  intros kt Htot Hmin Hmax.
  assert (kt_ctl kt = ctl) as Hctl by apply ktask_task_init_ctl.
  assert (is_size_t (kt_total_size kt)) as Hsz
    by (unfold kt; rewrite ktask_task_init_total; apply wrap_range).
  pose proof (wanted_works_bounds e kt) as Hw. rewrite Hctl in Hw.
  specialize (Hw Hmin Hmax Htot).
  pose proof (checked_works_le_wanted e kt) as Hle. rewrite Hctl in Hle.
  specialize (Hle Hmin ltac:(lia)).
  unfold ktask_init_works. rewrite Hctl.
  destruct (ktask_wq e) eqn:Hwq; simpl.
  - rewrite DIV_ROUND_UP_wrap by exact Hmin. simpl.
    assert (Z.min (Z.min (wrap (kt_total_size kt + kc_min_chunk_size ctl - 1)
                          / kc_min_chunk_size ctl)
                         (Z.pos (num_online_cpus e)))
                  (if kc_max_threads ctl =? 0 then ktask_max_threads
                   else kc_max_threads ctl)
            = checked_works e kt) as ->
      by (unfold checked_works; rewrite Hctl; reflexivity).
    destruct (init_works_loop_count w nodes (Z.to_nat (checked_works e kt - 1))
                (total_pos_nonempty nodes ctl Htot) 1 1 [] g)
      as (nr & works & g' & -> & Hb & Hlen & Hat & Hex);
      [lia|lia|unfold is_size_t in Hsz; lia|].
    exists nr, works, g'. split; [reflexivity|]. split; [lia|].
    simpl in Hlen. split; [lia|]. split; [apply Hat; constructor|].
    split; [|discriminate]. intros _ Hc Hm Hroom. rewrite Hex; lia.
  - exists 1, [], g. split; [reflexivity|]. split; [lia|].
    split; [reflexivity|]. split; [constructor|].
    split; [discriminate|reflexivity].
Qed.

(** The statement of C5 for one call of [ktask_init_works]. *)
Definition works_count_claim (e : env) (w : wild) (g : rlim)
    (nodes : list ktask_node) (ctl : ktask_ctl) : Prop :=
  let kt := ktask_task_init nodes ctl in
  ∃ nworks works_list g',
    ktask_init_works e w nodes kt g = Some (nworks, works_list, g') ∧
    1 <= nworks <= wanted_works e kt ∧
    (ktask_wq e = true →
     0 <= ktask_rlim_cur g → ktask_rlim_max g < 2 ^ SIZE_WIDTH →
     ktask_rlim_cur g + (wanted_works e kt - 1) <= ktask_rlim_max g →
     nworks = wanted_works e kt) ∧
    (ktask_wq e = false → nworks = 1).

(** C5, as stated: for a job of 2^64 - 1 units with a grain of 2 the sum
    [total + min_chunk_size - 1] of [DIV_ROUND_UP] is 2^64, which is 0 in
    a [size_t]; the loop of [ktask_init_works] is not entered and the
    function returns 1, although the ceiling of [total / min_chunk_size]
    is 2^63, the minimum with the 5 online CPUs and the default of 4
    threads is 4, and the global limit of 8 and the node's limit of 8
    have room for the 3 extra works. *)
Lemma works_count_fails_when_round_up_wraps :
  let e := host true in
  let nodes := [node 0 (2 ^ 64 - 1) 0] in
  let ctl := range_ctl 2 0 in
  let g := rlim_of 10 [10] in
  let kt := ktask_task_init nodes ctl in
  0 < kt_total_size kt ∧ 1 <= kc_min_chunk_size ctl ∧ 0 <= kc_max_threads ctl ∧
  ktask_init_works e no_wild nodes kt g = Some (1, [], g) ∧
  wanted_works e kt = 4 ∧
  ktask_rlim_cur g + (wanted_works e kt - 1) <= ktask_rlim_max g ∧
  ktask_rlim_node_max g = [8] ∧
  ¬ works_count_claim e no_wild g nodes ctl.
Proof.
  intros e nodes ctl g kt.
  assert (ktask_init_works e no_wild nodes kt g = Some (1, [], g)) as Hiw
    by (vm_compute; reflexivity).
  assert (wanted_works e kt = 4) as Hwant by (vm_compute; reflexivity).
  split; [reflexivity|]. split; [vm_compute; discriminate|].
  split; [vm_compute; discriminate|].
  split; [exact Hiw|]. split; [exact Hwant|].
  split; [vm_compute; discriminate|]. split; [reflexivity|].
  intros (nworks & works & g' & Hr & _ & Hfull & _).
  fold kt in Hr, Hfull. rewrite Hiw in Hr. inversion Hr; subst nworks.
  rewrite Hwant in Hfull.
  assert (1 = 4) as Habs; [|discriminate].
  apply Hfull; [reflexivity|vm_compute; discriminate|reflexivity
               |vm_compute; discriminate].
Qed.

(** C5, amended: for a task with remaining work, a grain of at least 1
    and a [max_threads] that is a [size_t], [ktask_init_works] returns a
    number of works between 1 and the minimum of
    [ceil (total / min_chunk_size)], the online CPUs and [max_threads] (4
    when [max_threads] is 0).  When [total + min_chunk_size - 1] is below
    2^64, it returns that minimum if [ktask_wq] exists and the global
    limit has room for all the extra works (whatever the per-node limits
    are).  In general, with room in the global limit, it returns the
    larger of 1 and the minimum taken with the quotient
    [((total + min_chunk_size - 1) mod 2^64) / min_chunk_size] in place
    of the ceiling.  It returns 1 when [ktask_wq] does not exist. *)
Theorem ktask_init_works_count e w g nodes ctl :
  let kt := ktask_task_init nodes ctl in
  0 < kt_total_size kt → 1 <= kc_min_chunk_size ctl → 0 <= kc_max_threads ctl →
  ∃ nworks works_list g',
    ktask_init_works e w nodes kt g = Some (nworks, works_list, g') ∧
    1 <= nworks <= wanted_works e kt ∧
    (kt_total_size kt + kc_min_chunk_size ctl - 1 < 2 ^ SIZE_WIDTH →
     ktask_wq e = true →
     0 <= ktask_rlim_cur g → ktask_rlim_max g < 2 ^ SIZE_WIDTH →
     ktask_rlim_cur g + (wanted_works e kt - 1) <= ktask_rlim_max g →
     nworks = wanted_works e kt) ∧
    (ktask_wq e = true →
     0 <= ktask_rlim_cur g → ktask_rlim_max g < 2 ^ SIZE_WIDTH →
     ktask_rlim_cur g + (Z.max 1 (checked_works e kt) - 1) <= ktask_rlim_max g →
     nworks = Z.max 1 (checked_works e kt)) ∧
    (ktask_wq e = false → nworks = 1).
Proof.
  intros kt Htot Hmin Hmax.
  destruct (init_works_result e w g nodes ctl Htot Hmin Hmax)
    as (nworks & works & g' & Hr & Hb & _ & _ & Hfull & Hnone).
  exists nworks, works, g'. split; [exact Hr|]. split; [exact Hb|].
  split; [|split; [exact Hfull|exact Hnone]].
  intros Hfit Hwq Hc Hm Hroom.
  assert (kt_ctl kt = ctl) as Hctl by apply ktask_task_init_ctl.
  pose proof (checked_works_no_wrap e kt) as Heq. rewrite Hctl in Heq.
  specialize (Heq Hmin ltac:(lia) Hfit).
  fold kt in Hfull, Hb. rewrite Heq in Hfull.
  rewrite Z.max_r in Hfull by lia. apply Hfull; assumption.
Qed.

Lemma ktask_init_works_count_witness :
  let e := host true in
  let g := rlim_of 5 [2; 3] in
  let ctl := range_ctl 4 0 in
  let kt := ktask_task_init [node 0 8 0; node 100 4 1] ctl in
  ∃ nworks works_list g',
    ktask_init_works e no_wild [node 0 8 0; node 100 4 1] kt g
    = Some (nworks, works_list, g') ∧
    1 <= nworks <= wanted_works e kt ∧
    (kt_total_size kt + kc_min_chunk_size ctl - 1 < 2 ^ SIZE_WIDTH →
     ktask_wq e = true →
     0 <= ktask_rlim_cur g → ktask_rlim_max g < 2 ^ SIZE_WIDTH →
     ktask_rlim_cur g + (wanted_works e kt - 1) <= ktask_rlim_max g →
     nworks = wanted_works e kt) ∧
    (ktask_wq e = true →
     0 <= ktask_rlim_cur g → ktask_rlim_max g < 2 ^ SIZE_WIDTH →
     ktask_rlim_cur g + (Z.max 1 (checked_works e kt) - 1) <= ktask_rlim_max g →
     nworks = Z.max 1 (checked_works e kt)) ∧
    (ktask_wq e = false → nworks = 1).
Proof.
  intros e g ctl.
  apply (ktask_init_works_count e no_wild g [node 0 8 0; node 100 4 1] ctl).
  - reflexivity.
  - vm_compute. discriminate.
  - vm_compute. discriminate.
Defined.

(** ** The resource limits under reserve, re-pin and release *)

(** The operations of the resource governor (section 4.2) and the code
    that performs each. *)
Inductive rlim_op :=
  | Try_reserve (nid : Z)
  | Re_pin (queue_nid nid : Z)
  | Release (queue_nid : Z).

Definition rlim_do (w : wild) (op : rlim_op) (g : rlim) : rlim :=
  match op with
  | Try_reserve nid => (try_reserve w nid g).2
  | Re_pin queue_nid nid => (re_pin w queue_nid nid g).2
  | Release queue_nid => (release w (ktask_init_work 0 queue_nid) g).2
  end.

Definition rlim_run (w : wild) (ops : list rlim_op) (g : rlim) : rlim :=
  foldl (λ g op, rlim_do w op g) g ops.

(** No node has more work items queued than its limit allows. *)
Definition within_node_limits (g : rlim) : Prop :=
  ∀ n cur max,
    ktask_rlim_node_cur g !! n = Some cur →
    ktask_rlim_node_max g !! n = Some max → cur <= max.

Lemma in_array_lookup (a : list Z) i :
  in_array a i = true → ∃ v, a !! Z.to_nat i = Some v.
Proof.
  unfold in_array. intros H. apply andb_true_iff in H as [H0 H1].
  apply Z.leb_le in H0. apply Z.ltb_lt in H1.
  apply lookup_lt_is_Some_2. lia.
Qed.

(** The sibling path: a reservation made by [ktask_init_works] checks the
    counter of the node it then increments, and keeps every node within
    its limit. *)
Lemma try_reserve_within_node_limits w nid g :
  length (ktask_rlim_node_max g) = length (ktask_rlim_node_cur g) →
  Forall (λ max, max < 2 ^ SIZE_WIDTH) (ktask_rlim_node_max g) →
  Forall (λ cur, 0 <= cur) (ktask_rlim_node_cur g) →
  within_node_limits g → within_node_limits (try_reserve w nid g).2.
Proof.
  intros Hlen Hmax Hcur Hin.
  assert (in_array (ktask_rlim_node_max g) nid
          = in_array (ktask_rlim_node_cur g) nid) as Harr
    by (unfold in_array; rewrite Hlen; reflexivity).
  gov_unfold. gov_cases; try exact Hin; rewrite ?Harr in *; try congruence.
  match goal with
  | Hc : in_array (ktask_rlim_node_cur g) nid = true,
    Hm : in_array (ktask_rlim_node_max g) nid = true,
    Hlt : (_ <? _) = true |- _ =>
      apply in_array_lookup in Hc as [cur Hcur'];
      apply in_array_lookup in Hm as [max Hmax'];
      rewrite Hcur', Hmax' in *; simpl in Hlt; apply Z.ltb_lt in Hlt
  end.
  intros n c m Hn Hm. simpl in Hn, Hm.
  destruct (decide (n = Z.to_nat nid)) as [->|Hne].
  - rewrite list_lookup_insert_eq in Hn by (eapply lookup_lt_Some; eauto).
    inversion Hn; subst c. rewrite Hmax' in Hm. inversion Hm; subst m.
    rewrite Forall_forall in Hmax, Hcur.
    pose proof (Hmax max (list_elem_of_lookup_2 _ _ _ Hmax')).
    pose proof (Hcur cur (list_elem_of_lookup_2 _ _ _ Hcur')).
    rewrite wrap_small by (unfold is_size_t; lia). lia.
  - rewrite list_lookup_insert_ne in Hn by congruence. eapply Hin; eauto.
Qed.

(** The state a run has reached after the schedule prefix [cs]. *)
Definition reach (e : env) (w : wild) (g : rlim) (nodes : list ktask_node)
    (ctl : ktask_ctl) (cs : list choice) : option state :=
  r ← ktask_run_numa_setup e w g nodes ctl;
  match r with
  | Immediate _ => None
  | Running s => exec e cs s
  end.

(** C1 fails on the code.  On a host whose two nodes have 2 and 3 CPUs
    the per-node limits are 1 and 2.  Reserving on node 1 and on node 0
    and then re-pinning the first reservation from node 1 to node 0 leaves
    2 work items counted on node 0: the re-pin tests the counter of the
    old binding, node 1, and increments the counter of node 0.  A run of
    [ktask_run_numa] over one descriptor per node performs exactly these
    operations when its worker 1 finishes node 1 and migrates. *)
Theorem re_pin_exceeds_node_limit :
  let g0 := rlim_of 5 [2; 3] in
  let g := rlim_run no_wild [Try_reserve 1; Try_reserve 0; Re_pin 1 0] g0 in
  (ktask_rlim_node_cur g0 = [0; 0] ∧ ktask_rlim_node_max g0 = [1; 2]) ∧
  (ktask_rlim_node_cur g = [2; 0] ∧ ktask_rlim_node_max g = [1; 2] ∧
   ¬ within_node_limits g) ∧
  st_rlim <$> reach (host true) no_wild g0 [node 0 8 0; node 100 4 1]
                (range_ctl 4 0) [pick 1 0 0; pick 1 0 0]
  = Some g.
Proof.
  split; [split; reflexivity|]. split; [|vm_compute; reflexivity].
  split; [reflexivity|]. split; [reflexivity|].
  intros H. specialize (H 0%nat 2 1 eq_refl eq_refl). lia.
Qed.

Lemma in_array_no_node (a : list Z) : in_array a NUMA_NO_NODE = false.
Proof. reflexivity. Qed.

(** A work item bound to no node that migrates towards a node makes
    [ktask_node_migrate] load both arrays at index [NUMA_NO_NODE]. *)
Lemma re_pin_unbound_strays w nid g :
  nid ≠ NUMA_NO_NODE →
  ∃ rest, rlim_stray (re_pin w NUMA_NO_NODE nid g).2
          = rlim_stray g ++ NUMA_NO_NODE :: NUMA_NO_NODE :: rest.
Proof.
  intros Hnid. unfold re_pin.
  destruct (Z.eqb_spec nid NUMA_NO_NODE) as [|_]; [contradiction|].
  change (NUMA_NO_NODE =? NUMA_NO_NODE) with true. cbv iota.
  gov_unfold. rewrite !in_array_no_node. simpl.
  destruct (wild_cur w <? wild_max w); simpl.
  - destruct (in_array (ktask_rlim_node_cur g) nid) eqn:Hn; simpl;
      rewrite Hn; simpl.
    + exists []. rewrite <- app_assoc. reflexivity.
    + exists [nid; nid]. rewrite <- !app_assoc. reflexivity.
  - exists []. rewrite <- app_assoc. reflexivity.
Qed.

(** With a bound work item and a destination that is a possible node (or
    none), every index [ktask_node_migrate] uses is within the arrays. *)
Lemma re_pin_bound_in_range w queue_nid nid g :
  length (ktask_rlim_node_max g) = length (ktask_rlim_node_cur g) →
  in_array (ktask_rlim_node_cur g) queue_nid = true →
  nid = NUMA_NO_NODE ∨ in_array (ktask_rlim_node_cur g) nid = true →
  rlim_stray (re_pin w queue_nid nid g).2 = rlim_stray g.
Proof.
  intros Hlen Hq Hn.
  assert (∀ i v, in_array (<[Z.to_nat queue_nid := v]> (ktask_rlim_node_cur g)) i
                 = in_array (ktask_rlim_node_cur g) i) as Hins
    by (intros; unfold in_array; rewrite length_insert; reflexivity).
  assert (∀ i, in_array (ktask_rlim_node_max g) i
               = in_array (ktask_rlim_node_cur g) i) as Harr
    by (intros; unfold in_array; rewrite Hlen; reflexivity).
  unfold re_pin.
  destruct (Z.eqb_spec queue_nid NUMA_NO_NODE) as [->|_];
    [rewrite in_array_no_node in Hq; discriminate|].
  destruct (Z.eqb_spec nid NUMA_NO_NODE) as [->|Hne].
  - gov_unfold. rewrite Hq. simpl. rewrite Hq. reflexivity.
  - destruct Hn as [?|Hn]; [contradiction|].
    gov_unfold. rewrite Hq. simpl. rewrite Hq. simpl.
    rewrite Hins, Hq. simpl. rewrite Harr, Hq. simpl.
    destruct (_ <? _); simpl; [|reflexivity].
    rewrite Hins, Hn. simpl. rewrite !Hins, Hn. reflexivity.
Qed.

(** C10 fails on the code.  On a host whose two nodes have 1 and 4 CPUs
    node 0 has limit 0, so the work item that [ktask_init_works] starts on
    the descriptor of node 0 is bound to [NUMA_NO_NODE].  Once that worker
    has finished node 0 it migrates to node 1, and in doing so loads
    [ktask_rlim_node_cur] and [ktask_rlim_node_max] at index -1. *)
Theorem ktask_node_migrate_reads_at_no_node :
  let g0 := rlim_of 5 [1; 4] in
  let nodes := [node 0 4 0; node 100 8 1] in
  (w_kw <$> (s ← reach (host true) no_wild g0 nodes (range_ctl 4 0) [pick 2 0 0];
             st_workers s !! 2%nat)
   = Some (ktask_init_work 0 NUMA_NO_NODE)) ∧
  (rlim_stray ∘ st_rlim <$>
     reach (host true) no_wild g0 nodes (range_ctl 4 0) [pick 2 0 0]
   = Some []) ∧
  (rlim_stray ∘ st_rlim <$>
     reach (host true) no_wild g0 nodes (range_ctl 4 0) [pick 2 0 0; pick 2 0 0]
   = Some [NUMA_NO_NODE; NUMA_NO_NODE]).
Proof. repeat split; vm_compute; reflexivity. Qed.

(** ** Nothing to do *)

Lemma setup_immediate e w g nodes ctl :
  wrap (sum_sizes nodes) = 0 →
  ktask_run_numa_setup e w g nodes ctl = Some (Immediate KTASK_RETURN_SUCCESS).
Proof.
  intros Hz. unfold ktask_run_numa_setup.
  rewrite ktask_task_init_total, Hz. reflexivity.
Qed.

(** C8: when the remaining sizes of the node array sum to 0 (the empty
    array included), [ktask_run_numa] returns [KTASK_RETURN_SUCCESS] before
    any work is reserved or any thread is started: under every schedule
    that it accepts (only the empty one) the status is success, no call to
    the processing callback is made and the resource limits are the ones
    it found; so does [ktask_run] on a task of size 0. *)
Theorem ktask_run_numa_nothing_to_do e w g nodes ctl :
  sum_sizes nodes = 0 →
  ktask_run_numa_setup e w g nodes ctl = Some (Immediate KTASK_RETURN_SUCCESS) ∧
  ktask_run_numa e w g nodes ctl [] = Some (KTASK_RETURN_SUCCESS, g, []) ∧
  (∀ cs r, ktask_run_numa e w g nodes ctl cs = Some r →
           cs = [] ∧ r = (KTASK_RETURN_SUCCESS, g, [])) ∧
  (∀ start, ktask_run e w g start 0 ctl [] = Some (KTASK_RETURN_SUCCESS, g, [])).
Proof.
  intros Hz.
  assert (ktask_run_numa_setup e w g nodes ctl
          = Some (Immediate KTASK_RETURN_SUCCESS)) as Hs
    by (apply setup_immediate; rewrite Hz; reflexivity).
  split; [exact Hs|]. split; [|split].
  - unfold ktask_run_numa. rewrite Hs. reflexivity.
  - intros cs r. unfold ktask_run_numa. rewrite Hs. simpl.
    destruct cs; [|discriminate]. intros H. inversion H. auto.
  - intros start. unfold ktask_run, ktask_run_numa.
    rewrite setup_immediate by reflexivity. reflexivity.
Qed.

Lemma ktask_run_numa_nothing_to_do_witness :
  let e := host true in
  let g := rlim_of 5 [2; 3] in
  let nodes := [node 4096 0 0; node 8192 0 1] in
  let ctl := range_ctl 64 4 in
  ktask_run_numa_setup e no_wild g nodes ctl = Some (Immediate KTASK_RETURN_SUCCESS) ∧
  ktask_run_numa e no_wild g nodes ctl [] = Some (KTASK_RETURN_SUCCESS, g, []) ∧
  (∀ cs r, ktask_run_numa e no_wild g nodes ctl cs = Some r →
           cs = [] ∧ r = (KTASK_RETURN_SUCCESS, g, [])) ∧
  (∀ start, ktask_run e no_wild g start 0 ctl [] = Some (KTASK_RETURN_SUCCESS, g, [])).
Proof.
  intros e g nodes ctl.
  apply (ktask_run_numa_nothing_to_do e no_wild g nodes ctl). reflexivity.
Defined.

(** ** Invariants of the task *)

Lemma sum_sizes_insert nodes : ∀ i kn kn',
  nodes !! i = Some kn →
  sum_sizes (<[i := kn']> nodes)
  = sum_sizes nodes - kn_task_size kn + kn_task_size kn'.
Proof.
  induction nodes as [|x rest IH]; intros [|i] kn kn' Hi; simpl in *;
    try discriminate.
  - inversion Hi; subst. lia.
  - rewrite (IH i kn kn' Hi). lia.
Qed.

Lemma nodes_with_work_insert nodes : ∀ i kn kn',
  nodes !! i = Some kn →
  nodes_with_work (<[i := kn']> nodes)
  = nodes_with_work nodes - (if has_work kn then 1 else 0)
    + (if has_work kn' then 1 else 0).
Proof.
  induction nodes as [|x rest IH]; intros [|i] kn kn' Hi; simpl in *;
    try discriminate.
  - inversion Hi; subst. lia.
  - rewrite (IH i kn kn' Hi). lia.
Qed.

Lemma no_work_no_size nodes :
  Forall (λ kn, is_size_t (kn_task_size kn)) nodes →
  nodes_with_work nodes = 0 → sum_sizes nodes = 0.
Proof.
  induction 1 as [|kn rest Hkn Hrest IH]; simpl; [reflexivity|].
  pose proof (nodes_with_work_nonneg rest). unfold has_work.
  destruct (Z.eqb_spec (kn_task_size kn) 0) as [->|]; simpl; [|lia].
  intros Hz. rewrite IH; lia.
Qed.

(** What holds of the task structure whenever [kt_mutex] is free. *)
Record kt_inv (kt : ktask_task) : Prop := {
  inv_nodes : node_array (kt_nodes kt);
  inv_left : kt_nr_nodes_left kt = nodes_with_work (kt_nodes kt);
  inv_total : kt_total_size kt = wrap (sum_sizes (kt_nodes kt));
  inv_chunk : 1 <= kt_chunk_size kt;
}.

Lemma save_error_inv ret kt : kt_inv kt → kt_inv (save_error ret kt).
Proof.
  intros [H1 H2 H3 H4]. unfold save_error.
  destruct (_ && _); [|split; assumption]. split; assumption.
Qed.

Lemma ktask_thread_exit_inv kt : kt_inv kt → kt_inv (ktask_thread_exit kt).
Proof.
  intros [H1 H2 H3 H4]. unfold ktask_thread_exit. simpl.
  destruct (_ =? _); split; assumption.
Qed.

(** The task after a claim. *)
Definition claimed_kt (o : outcome) : option ktask_task :=
  match o with Claimed kt _ _ _ => Some kt | _ => None end.

Lemma claim_size kt kn :
  kt_inv kt → kn ∈ kt_nodes kt → kn_task_size kn ≠ 0 →
  let size := Z.min (kt_chunk_size kt) (kn_task_size kn) in
  1 <= size <= kn_task_size kn ∧ is_size_t (kn_task_size kn - size).
Proof.
  intros [[_ Hn] _ _ Hc] Hin Hnz size. rewrite Forall_forall in Hn.
  pose proof (Hn kn Hin) as Hs. unfold is_size_t in *. subst size. lia.
Qed.

Lemma ktask_claim_inv kt i kn :
  kt_inv kt → kt_nodes kt !! i = Some kn → kn_task_size kn ≠ 0 →
  ∃ kt' end_, ktask_claim kt i kn = Claimed kt' i (kn_start kn) end_ ∧
    kt_inv kt' ∧
    sum_sizes (kt_nodes kt') < sum_sizes (kt_nodes kt) ∧
    length (kt_nodes kt') = length (kt_nodes kt) ∧
    kt_nworks kt' = kt_nworks kt ∧ kt_nworks_fini kt' = kt_nworks_fini kt ∧
    kt_error kt' = kt_error kt ∧ kt_ktask_done kt' = kt_ktask_done kt.
Proof.
  intros Hinv Hi Hnz.
  destruct (claim_size kt kn Hinv (list_elem_of_lookup_2 _ _ _ Hi) Hnz) as [Hsz Hrem].
  destruct Hinv as [[Hlen Hn] Hleft Htot Hc].
  unfold ktask_claim. set (size := Z.min (kt_chunk_size kt) (kn_task_size kn)) in *.
  rewrite (wrap_small _ Hrem).
  set (kn' := set_kn (kc_iter_func (kt_ctl kt) (kn_start kn) size)
                     (kn_task_size kn - size) kn).
  assert (kn_task_size kn' = kn_task_size kn - size) as Hkn' by reflexivity.
  rewrite Hkn'.
  assert (has_work kn = true) as Hw
    by (unfold has_work; destruct (Z.eqb_spec (kn_task_size kn) 0); [contradiction|reflexivity]).
  pose proof (nodes_with_work_insert (kt_nodes kt) i kn kn' Hi) as Hcount.
  pose proof (sum_sizes_insert (kt_nodes kt) i kn kn' Hi) as Hsum.
  change (has_work kn') with (negb (kn_task_size kn - size =? 0)) in Hcount.
  rewrite Hw, Hkn' in *.
  assert (wrap (kt_total_size kt - size)
          = wrap (sum_sizes (<[i:=kn']> (kt_nodes kt)))) as Htot'
    by (rewrite Htot, wrap_sub_l, Hsum; f_equal; lia).
  assert (node_array (<[i:=kn']> (kt_nodes kt))) as Harr.
  { split; [rewrite length_insert; exact Hlen|].
    apply Forall_insert; [exact Hn|]. rewrite Hkn'. exact Hrem. }
  pose proof (nodes_with_work_nonneg (<[i:=kn']> (kt_nodes kt))) as Hnn.
  pose proof (nodes_with_work_le_length (kt_nodes kt)) as Hle.
  destruct (Z.eqb_spec (kn_task_size kn - size) 0) as [Hz|Hnz'].
  - eexists _, _. split; [reflexivity|]. simpl.
    split; [|rewrite length_insert, Hsum; repeat split; lia].
    split; simpl; try assumption.
    simpl in Hcount. rewrite Hleft, wrap_small; [lia|].
    unfold is_size_t. lia.
  - eexists _, _. split; [reflexivity|]. simpl.
    split; [|rewrite length_insert, Hsum; repeat split; lia].
    split; simpl; try assumption.
    simpl in Hcount. lia.
Qed.

Lemma work_left kt : kt_inv kt → 0 < kt_total_size kt →
  1 <= nodes_with_work (kt_nodes kt).
Proof.
  intros [[_ Hn] _ Htot _] Hpos.
  pose proof (nodes_with_work_nonneg (kt_nodes kt)) as H0.
  destruct (Z.eq_dec (nodes_with_work (kt_nodes kt)) 0) as [Hz|]; [|lia].
  rewrite (no_work_no_size _ Hn Hz) in Htot. rewrite Htot in Hpos.
  vm_compute in Hpos. discriminate.
Qed.

Lemma total_nonneg kt : kt_inv kt → 0 <= kt_total_size kt.
Proof.
  intros [_ _ Htot _]. rewrite Htot.
  pose proof (wrap_range (sum_sizes (kt_nodes kt))) as H. unfold is_size_t in H. lia.
Qed.

(** How one pass through the loop can end. *)
Inductive pass (kt : ktask_task) (i : nat) : outcome → Prop :=
  | pass_exit :
      kt_total_size kt = 0 ∨ kt_error kt ≠ KTASK_RETURN_SUCCESS →
      pass kt i (Returned (ktask_thread_exit kt))
  | pass_claim j kn :
      0 < kt_total_size kt → kt_error kt = KTASK_RETURN_SUCCESS →
      kt_nodes kt !! j = Some kn → kn_task_size kn ≠ 0 →
      pass kt i (ktask_claim kt j kn)
  | pass_migrate old_kn j kn queue_nid g :
      0 < kt_total_size kt → kt_error kt = KTASK_RETURN_SUCCESS →
      kt_nodes kt !! i = Some old_kn → kn_task_size old_kn = 0 →
      kt_nodes kt !! j = Some kn → kn_task_size kn ≠ 0 →
      pass kt i (Migrated (ktask_init_work j queue_nid) g).

Lemma ktask_thread_iter_pass e c on_kthread g kt kw i o :
  kt_inv kt →
  ktask_thread_iter e c on_kthread g kt kw i = Some o → pass kt i o.
Proof.
  intros Hinv. unfold ktask_thread_iter.
  pose proof (total_nonneg kt Hinv) as Hnn.
  destruct (Z.ltb_spec 0 (kt_total_size kt)) as [Hpos|Hle]; simpl;
    [|intros H; inversion H; apply pass_exit; lia].
  destruct (Z.eqb_spec (kt_error kt) KTASK_RETURN_SUCCESS) as [Herr|Herr]; simpl;
    [|intros H; inversion H; apply pass_exit; auto].
  destruct (kt_nodes kt !! i) as [old|] eqn:Hi; simpl; [|discriminate].
  destruct (Z.eqb_spec (kn_task_size old) 0) as [Hz|Hnz];
    [|intros H; inversion H; eapply pass_claim; eauto].
  unfold prandom_u32_max.
  destruct (Z.leb_spec 0 (c_rand c)) as [Hr0|]; simpl; [|discriminate].
  destruct (_ || _) eqn:Hr; simpl; [|discriminate].
  pose proof (work_left kt Hinv Hpos) as Hwork.
  destruct (select_node_spec kt (c_rand c)) as (kn & Hkn & Hw & _).
  { apply orb_true_iff in Hr as [Hr|Hr].
    - apply Z.ltb_lt in Hr. rewrite (inv_left kt Hinv) in Hr. lia.
    - apply Z.eqb_eq in Hr. lia. }
  rewrite Hkn. simpl.
  destruct (ktask_node_migrate e (c_wild c) on_kthread old kn
              (select_node kt (c_rand c)) kw g) as [[kw'|] g'] eqn:Hm;
    intros H; inversion H; subst o.
  - pose proof (ktask_node_migrate_work _ _ _ _ _ _ _ _ _ _ Hm) as Hj.
    destruct kw' as [j q]. simpl in Hj. subst j.
    eapply pass_migrate; eauto.
  - eapply pass_claim; eauto.
Qed.



(** ** Invariants of a run *)

Definition finished (w : worker) : bool :=
  match w_pc w with Finished => true | _ => false end.

Fixpoint count_finished (ws : list worker) : Z :=
  match ws with
  | [] => 0
  | w :: rest => (if finished w then 1 else 0) + count_finished rest
  end.

(** The descriptor a worker is at exists. *)
Definition worker_at (n : nat) (w : worker) : Prop :=
  match w_pc w with
  | Queued => (kw_ktask_node_i (w_kw w) < n)%nat
  | InCall kn _ _ => (kn < n)%nat
  | Finished => True
  end.

Record run_inv (s : state) : Prop := {
  inv_kt : kt_inv (st_kt s);
  inv_at : Forall (worker_at (length (kt_nodes (st_kt s)))) (st_workers s);
  inv_nworks : kt_nworks (st_kt s) = Z.of_nat (length (st_workers s));
  inv_nworks_size : Z.of_nat (length (st_workers s)) < 2 ^ SIZE_WIDTH;
  inv_fini : kt_nworks_fini (st_kt s) = count_finished (st_workers s);
  inv_done : kt_ktask_done (st_kt s) = true ↔
             count_finished (st_workers s) = Z.of_nat (length (st_workers s));
  inv_exit : 0 < count_finished (st_workers s) →
             kt_total_size (st_kt s) = 0 ∨
             kt_error (st_kt s) ≠ KTASK_RETURN_SUCCESS;
}.

Lemma count_finished_bounds ws : 0 <= count_finished ws <= Z.of_nat (length ws).
Proof.
  induction ws as [|w rest IH]; simpl count_finished; simpl length; [lia|].
  destruct (finished w); lia.
Qed.

Lemma count_finished_insert ws : ∀ i w w',
  ws !! i = Some w →
  count_finished (<[i := w']> ws)
  = count_finished ws - (if finished w then 1 else 0)
    + (if finished w' then 1 else 0).
Proof.
  induction ws as [|x rest IH]; intros [|i] w w' Hi; simpl in *; try discriminate.
  - inversion Hi; subst. lia.
  - rewrite (IH i w w' Hi). lia.
Qed.

(** How a worker takes the mutex: at the start of [ktask_thread], or back
    from the processing callback with its return value, which is saved
    and recorded first. *)
Inductive entry (c : choice) (s : state) (w : worker)
    : ktask_task → list call → nat → Prop :=
  | entry_start :
      w_pc w = Queued →
      entry c s w (st_kt s) (st_calls s) (kw_ktask_node_i (w_kw w))
  | entry_back kn start end_ :
      w_pc w = InCall kn start end_ →
      entry c s w (save_error (c_ret c) (st_kt s))
        (st_calls s ++ [ {| call_node := kn; call_start := start;
                            call_end := end_; call_ret := c_ret c |} ]) kn.

Lemma save_error_fields ret kt :
  let kt' := save_error ret kt in
  kt_ctl kt' = kt_ctl kt ∧ kt_total_size kt' = kt_total_size kt ∧
  kt_chunk_size kt' = kt_chunk_size kt ∧ kt_nodes kt' = kt_nodes kt ∧
  kt_nr_nodes_left kt' = kt_nr_nodes_left kt ∧
  kt_nworks kt' = kt_nworks kt ∧ kt_nworks_fini kt' = kt_nworks_fini kt ∧
  kt_ktask_done kt' = kt_ktask_done kt ∧
  (kt_error kt ≠ KTASK_RETURN_SUCCESS → kt_error kt' = kt_error kt) ∧
  (kt_error kt = KTASK_RETURN_SUCCESS → kt_error kt' = ret).
Proof.
  unfold save_error.
  destruct (Z.eqb_spec (kt_error kt) KTASK_RETURN_SUCCESS) as [He|He]; simpl.
  - destruct (Z.eqb_spec ret (kt_error kt)) as [Hr|Hr]; simpl;
      repeat split; try tauto; congruence.
  - repeat split; tauto.
Qed.

Lemma entry_fields c s w kt calls i :
  entry c s w kt calls i →
  kt_ctl kt = kt_ctl (st_kt s) ∧
  kt_total_size kt = kt_total_size (st_kt s) ∧
  kt_chunk_size kt = kt_chunk_size (st_kt s) ∧
  kt_nodes kt = kt_nodes (st_kt s) ∧
  kt_nworks kt = kt_nworks (st_kt s) ∧
  kt_nworks_fini kt = kt_nworks_fini (st_kt s) ∧
  kt_ktask_done kt = kt_ktask_done (st_kt s) ∧
  (kt_error (st_kt s) ≠ KTASK_RETURN_SUCCESS → kt_error kt = kt_error (st_kt s)) ∧
  finished w = false.
Proof.
  destruct 1 as [Hpc|kn a b Hpc].
  - unfold finished. rewrite Hpc. repeat split; auto.
  - destruct (save_error_fields (c_ret c) (st_kt s)) as (?&?&?&?&?&?&?&?&?&?).
    unfold finished. rewrite Hpc. repeat split; auto.
Qed.

Lemma entry_at c s w kt calls i n :
  entry c s w kt calls i → worker_at n w → (i < n)%nat.
Proof. destruct 1 as [Hpc|kn a b Hpc]; unfold worker_at; rewrite Hpc; auto. Qed.

Lemma step_entry e c s s' :
  step e c s = Some s' →
  ∃ w kt calls i o,
    st_workers s !! c_worker c = Some w ∧ entry c s w kt calls i ∧
    ktask_thread_iter e c (w_kthread w) (st_rlim s) kt (w_kw w) i = Some o ∧
    s' = settle s kt calls (c_worker c) w o.
Proof.
  unfold step. destruct (st_workers s !! c_worker c) as [w|] eqn:Hw; simpl;
    [|discriminate].
  destruct (w_pc w) as [|kn a b|] eqn:Hpc; [| |discriminate].
  - destruct (ktask_thread_iter _ _ _ _ _ _ _) as [o|] eqn:Ho; simpl; [|discriminate].
    intros H; inversion H.
    exists w, (st_kt s), (st_calls s), (kw_ktask_node_i (w_kw w)), o.
    repeat split; auto. apply entry_start, Hpc.
  - destruct (ktask_thread_iter _ _ _ _ _ _ _) as [o|] eqn:Ho; simpl; [|discriminate].
    intros H; inversion H. eexists w, _, _, _, o.
    repeat split; eauto. apply entry_back, Hpc.
Qed.

Lemma entry_inv c s w kt calls i :
  run_inv s → entry c s w kt calls i → kt_inv kt.
Proof.
  intros Hs. destruct 1; [apply Hs|apply save_error_inv, Hs].
Qed.

(** A step of the run, read off the code. *)
Lemma step_pass e c s s' :
  run_inv s → step e c s = Some s' →
  ∃ w kt calls i o,
    st_workers s !! c_worker c = Some w ∧ entry c s w kt calls i ∧
    kt_inv kt ∧ pass kt i o ∧ s' = settle s kt calls (c_worker c) w o.
Proof.
  intros Hs Hstep.
  destruct (step_entry e c s s' Hstep) as (w & kt & calls & i & o & Hw & He & Ho & ->).
  exists w, kt, calls, i, o. pose proof (entry_inv c s w kt calls i Hs He) as Hk.
  split; [exact Hw|]. split; [exact He|]. split; [exact Hk|].
  split; [eapply ktask_thread_iter_pass; eauto|reflexivity].
Qed.

Lemma ktask_thread_exit_fields kt :
  let kt' := ktask_thread_exit kt in
  kt_ctl kt' = kt_ctl kt ∧ kt_total_size kt' = kt_total_size kt ∧
  kt_chunk_size kt' = kt_chunk_size kt ∧ kt_nodes kt' = kt_nodes kt ∧
  kt_nworks kt' = kt_nworks kt ∧ kt_error kt' = kt_error kt ∧
  kt_nworks_fini kt' = wrap (kt_nworks_fini kt + 1) ∧
  kt_ktask_done kt'
  = (if wrap (kt_nworks_fini kt + 1) =? kt_nworks kt then true
     else kt_ktask_done kt).
Proof.
  unfold ktask_thread_exit. simpl.
  destruct (wrap (kt_nworks_fini kt + 1) =? kt_nworks kt); simpl; repeat split.
Qed.

Lemma step_run_inv e c s s' : run_inv s → step e c s = Some s' → run_inv s'.
Proof.
  intros Hs Hstep.
  destruct (step_pass e c s s' Hs Hstep)
    as (w & kt & calls & i & o & Hw & He & Hk & Hp & ->).
  destruct (entry_fields _ _ _ _ _ _ He) as (_ & Htot & _ & Hnodes & Hnw & Hfi & Hdn & Herr & Hnf).
  destruct Hs as [_ Hat Hn Hnsz Hf Hd Hx].
  pose proof (count_finished_bounds (st_workers s)) as Hcb.
  assert (∀ w', count_finished (<[c_worker c := w']> (st_workers s))
                = count_finished (st_workers s) + (if finished w' then 1 else 0)) as Hcnt
    by (intros w'; rewrite (count_finished_insert _ _ w w' Hw), Hnf; lia).
  assert (count_finished (st_workers s) < Z.of_nat (length (st_workers s))) as Hlt.
  { pose proof (Hcnt {| w_kw := w_kw w; w_kthread := w_kthread w; w_pc := Finished |}) as H1.
    pose proof (count_finished_bounds
                  (<[c_worker c := {| w_kw := w_kw w; w_kthread := w_kthread w;
                                      w_pc := Finished |}]> (st_workers s))) as H2.
    rewrite length_insert in H2. simpl in H1. lia. }
  assert (0 < count_finished (st_workers s) →
          0 < kt_total_size kt → kt_error kt = KTASK_RETURN_SUCCESS → False) as Hcontra.
  { intros Hc Hpos Hok. destruct (Hx Hc) as [Hz|Hne]; [lia|].
    apply Hne. rewrite <- (Herr Hne). exact Hok. }
  destruct Hp as [Hexit|j kn Hpos Hok Hj Hnz|old j kn q g Hpos Hok Hi Hz Hj Hnz].
  - destruct (ktask_thread_exit_fields kt) as (_ & Ht' & _ & Hn' & Hnw' & He' & Hf' & Hd').
    assert (wrap (kt_nworks_fini kt + 1) = count_finished (st_workers s) + 1) as Hwf.
    { rewrite Hfi, Hf. apply wrap_small. unfold is_size_t. lia. }
    split; simpl.
    + apply ktask_thread_exit_inv, Hk.
    + rewrite Hn', Hnodes. apply Forall_insert; [exact Hat|exact I].
    + rewrite length_insert, Hnw', Hnw. exact Hn.
    + rewrite length_insert. exact Hnsz.
    + rewrite Hf', Hwf, Hcnt. reflexivity.
    + rewrite Hd', Hwf, Hcnt, length_insert, Hnw, Hn, Hdn. simpl.
      destruct (Z.eqb_spec (count_finished (st_workers s) + 1)
                           (Z.of_nat (length (st_workers s)))) as [Heq|Hne].
      * tauto.
      * split; [|intros; contradiction]. intros Hdone.
        apply Hd in Hdone. lia.
    + intros _. rewrite Ht', He'. exact Hexit.
  - destruct (ktask_claim_inv kt j kn Hk Hj Hnz)
      as (kt' & end_ & -> & Hk' & _ & Hlen & Hnw' & Hf' & He' & Hd').
    split; simpl.
    + exact Hk'.
    + rewrite Hlen, Hnodes. apply Forall_insert; [exact Hat|].
      unfold worker_at. simpl. rewrite <- Hnodes. eapply lookup_lt_Some; eauto.
    + rewrite length_insert, Hnw', Hnw. exact Hn.
    + rewrite length_insert. exact Hnsz.
    + rewrite Hf', Hfi, Hf, Hcnt. simpl. lia.
    + rewrite Hd', Hdn, Hcnt, length_insert. simpl. rewrite Z.add_0_r. exact Hd.
    + rewrite Hcnt. simpl. rewrite Z.add_0_r. intros Hc.
      exfalso. apply Hcontra; assumption.
  - split; simpl.
    + exact Hk.
    + rewrite Hnodes. apply Forall_insert; [exact Hat|].
      unfold worker_at. simpl. rewrite <- Hnodes. eapply lookup_lt_Some; eauto.
    + rewrite length_insert, Hnw. exact Hn.
    + rewrite length_insert. exact Hnsz.
    + rewrite Hfi, Hf, Hcnt. simpl. lia.
    + rewrite Hdn, Hcnt, length_insert. simpl. rewrite Z.add_0_r. exact Hd.
    + rewrite Hcnt. simpl. rewrite Z.add_0_r. intros Hc.
      exfalso. apply Hcontra; assumption.
Qed.

Lemma exec_run_inv e cs : ∀ s s',
  run_inv s → exec e cs s = Some s' → run_inv s'.
Proof.
  induction cs as [|c cs IH]; intros s s' Hs; simpl.
  - intros H; inversion H; subst; exact Hs.
  - destruct (step e c s) as [s1|] eqn:Hstep; simpl; [|discriminate].
    apply IH. eapply step_run_inv; eauto.
Qed.

(** ** Starting a run *)

(** A control structure the entry points accept: a grain of at least one
    unit and a [max_threads] that is a [size_t]. *)
Definition admissible (ctl : ktask_ctl) : Prop :=
  1 <= kc_min_chunk_size ctl ∧ 0 <= kc_max_threads ctl.

Lemma count_finished_queued ws :
  Forall (λ w, w_pc w = Queued) ws → count_finished ws = 0.
Proof.
  induction 1 as [|w rest Hw _ IH]; simpl; [reflexivity|].
  unfold finished. rewrite Hw, IH. reflexivity.
Qed.

Lemma setup_running e w g nodes ctl :
  node_array nodes → admissible ctl → wrap (sum_sizes nodes) ≠ 0 →
  ∃ s, ktask_run_numa_setup e w g nodes ctl = Some (Running s) ∧
    run_inv s ∧ kt_nodes (st_kt s) = nodes ∧ kt_ctl (st_kt s) = ctl ∧
    st_calls s = [] ∧ kt_error (st_kt s) = KTASK_RETURN_SUCCESS ∧
    Forall (λ w, w_pc w = Queued) (st_workers s) ∧
    1 <= kt_nworks (st_kt s) <= wanted_works e (ktask_task_init nodes ctl) ∧
    ktask_chunk_size (wrap (sum_sizes nodes)) (kc_min_chunk_size ctl)
      (kt_nworks (st_kt s)) = Some (kt_chunk_size (st_kt s)).
Proof.
  intros Harr [Hmin Hmax] Hnz.
  pose proof (wrap_range (sum_sizes nodes)) as Hr. unfold is_size_t in Hr.
  assert (0 < kt_total_size (ktask_task_init nodes ctl)) as Hpos
    by (rewrite ktask_task_init_total; lia).
  destruct (init_works_result e w g nodes ctl Hpos Hmin Hmax)
    as (nworks & works & g' & Hiw & Hb & Hlen & Hat & _ & _).
  pose proof (total_pos_nonempty nodes ctl Hpos) as Hne.
  destruct nodes as [|kn0 rest]; [congruence|].
  set (nodes := kn0 :: rest) in *.
  pose proof (chunk_size_total (kc_min_chunk_size ctl) nworks
                (wrap (sum_sizes nodes)) Hmin (proj1 Hb)) as Hcs.
  unfold ktask_run_numa_setup.
  rewrite ktask_task_init_total.
  destruct (Z.eqb_spec (wrap (sum_sizes nodes)) 0) as [|_]; [contradiction|].
  rewrite Hiw. simpl.
  rewrite ktask_task_init_total, Hcs. simpl.
  eexists. split; [reflexivity|]. simpl.
  pose proof (wanted_works_bounds e (ktask_task_init nodes ctl)) as Hw.
  rewrite ktask_task_init_ctl, ktask_task_init_total in Hw.
  specialize (Hw Hmin Hmax ltac:(lia)).
  assert (Forall (λ w0, w_pc w0 = Queued)
            ({| w_kw := ktask_init_work 0 (kn_nid kn0);
                w_kthread := caller_kthread e; w_pc := Queued |}
             :: map (λ kw, {| w_kw := kw; w_kthread := true; w_pc := Queued |}) works))
    as Hq.
  { constructor; [reflexivity|]. apply Forall_map. apply Forall_true. reflexivity. }
  destruct (ktask_task_init_fresh nodes ctl) as (Hf0 & He0 & Hd0).
  split; [|rewrite ktask_task_init_nodes, ktask_task_init_ctl; repeat split; auto; lia].
  assert (Z.of_nat (length ({| w_kw := ktask_init_work 0 (kn_nid kn0);
                              w_kthread := caller_kthread e; w_pc := Queued |}
             :: map (λ kw, {| w_kw := kw; w_kthread := true; w_pc := Queued |}) works))
          = nworks) as Hlen' by (simpl; rewrite length_map; lia).
  assert (Forall (worker_at (length nodes))
            ({| w_kw := ktask_init_work 0 (kn_nid kn0);
                w_kthread := caller_kthread e; w_pc := Queued |}
             :: map (λ kw, {| w_kw := kw; w_kthread := true; w_pc := Queued |}) works))
    as Hat'.
  { constructor.
    - unfold worker_at. simpl. lia.
    - apply Forall_map. eapply Forall_impl; [exact Hat|].
      intros kw Hkw. unfold worker_at. simpl. exact Hkw. }
  remember ({| w_kw := ktask_init_work 0 (kn_nid kn0);
               w_kthread := caller_kthread e; w_pc := Queued |}
            :: map (λ kw, {| w_kw := kw; w_kthread := true; w_pc := Queued |}) works)
    as ws eqn:Hws.
  clear Hws.
  split; simpl.
  - split; simpl.
    + rewrite ktask_task_init_nodes. exact Harr.
    + rewrite ktask_task_init_nodes. apply ktask_task_init_left, Harr.
    + rewrite ktask_task_init_nodes. apply ktask_task_init_total.
    + change (kn_task_size kn0 + sum_sizes rest) with (sum_sizes nodes).
      unfold chunk_size_spec.
      destruct (Z.eqb_spec nworks 1) as [|Hmulti]; [lia|].
      pose proof (chunk_size_spec_multi (wrap (sum_sizes nodes))
                    (kc_min_chunk_size ctl) nworks Hmin Hmulti) as [Hge _].
      unfold chunk_size_spec in Hge.
      destruct (Z.eqb_spec nworks 1); [contradiction|]. lia.
  - rewrite ktask_task_init_nodes. exact Hat'.
  - lia.
  - lia.
  - rewrite Hf0. symmetry. apply (count_finished_queued _ Hq).
  - rewrite (count_finished_queued _ Hq), Hd0.
    split; [discriminate|lia].
  - rewrite (count_finished_queued _ Hq). lia.
Qed.

(** ** The first error *)

(** The first value other than [KTASK_RETURN_SUCCESS] in a list of return
    values, [KTASK_RETURN_SUCCESS] when there is none. *)
Fixpoint first_error (rets : list Z) : Z :=
  match rets with
  | [] => KTASK_RETURN_SUCCESS
  | ret :: rest => if ret =? KTASK_RETURN_SUCCESS then first_error rest else ret
  end.

Lemma first_error_snoc rets ret :
  first_error (rets ++ [ret])
  = if first_error rets =? KTASK_RETURN_SUCCESS then ret else first_error rets.
Proof.
  induction rets as [|r rest IH]; simpl.
  - destruct (Z.eqb_spec ret KTASK_RETURN_SUCCESS); congruence.
  - destruct (Z.eqb_spec r KTASK_RETURN_SUCCESS) as [|Hr]; [exact IH|].
    destruct (Z.eqb_spec r KTASK_RETURN_SUCCESS); [contradiction|reflexivity].
Qed.

Lemma first_error_success rets :
  first_error rets = KTASK_RETURN_SUCCESS ↔
  Forall (λ ret, ret = KTASK_RETURN_SUCCESS) rets.
Proof.
  induction rets as [|r rest IH]; simpl.
  - split; [constructor|reflexivity].
  - destruct (Z.eqb_spec r KTASK_RETURN_SUCCESS) as [Hr|Hr].
    + rewrite IH. split; [intros; constructor; assumption|].
      intros H. inversion H; assumption.
    + split; [contradiction|]. intros H. inversion H; contradiction.
Qed.

(** The task a pass through the loop leaves behind. *)
Definition task_after (kt : ktask_task) (o : outcome) : ktask_task :=
  match o with
  | Claimed kt' _ _ _ => kt'
  | Migrated _ _ => kt
  | Returned kt' => kt'
  end.

Lemma settle_kt s kt calls i w o :
  st_kt (settle s kt calls i w o) = task_after kt o ∧
  st_calls (settle s kt calls i w o) = calls.
Proof. destruct o; simpl; auto. Qed.

Lemma ktask_claim_fields kt i kn :
  ∃ kt' end_, ktask_claim kt i kn = Claimed kt' i (kn_start kn) end_ ∧
    kt_error kt' = kt_error kt ∧ kt_ctl kt' = kt_ctl kt.
Proof.
  unfold ktask_claim.
  destruct (_ =? 0); eexists _, _; split; try reflexivity; simpl; auto.
Qed.

Lemma ktask_thread_iter_error e c on_kthread g kt kw i o :
  ktask_thread_iter e c on_kthread g kt kw i = Some o →
  kt_error (task_after kt o) = kt_error kt ∧
  kt_ctl (task_after kt o) = kt_ctl kt.
Proof.
  unfold ktask_thread_iter.
  destruct (_ && _).
  - destruct (kt_nodes kt !! i) as [old|]; simpl; [|discriminate].
    destruct (kn_task_size old =? 0).
    + destruct (prandom_u32_max c (kt_nr_nodes_left kt)) as [r|]; simpl; [|discriminate].
      destruct (kt_nodes kt !! select_node kt r) as [kn|]; simpl; [|discriminate].
      destruct (ktask_node_migrate _ _ _ _ _ _ _ _) as [[kw'|] g'];
        intros H; inversion H; [simpl; auto|].
      destruct (ktask_claim_fields kt (select_node kt r) kn) as (kt' & b & -> & ? & ?).
      simpl. auto.
    + intros H; inversion H.
      destruct (ktask_claim_fields kt i old) as (kt' & b & -> & ? & ?). simpl. auto.
  - intros H; inversion H. simpl.
    destruct (ktask_thread_exit_fields kt) as (? & _ & _ & _ & _ & ? & _). auto.
Qed.

(** Once an error is saved, the worker that takes the mutex leaves the
    loop without touching the descriptors. *)
Lemma ktask_thread_iter_failed e c on_kthread g kt kw i :
  kt_error kt ≠ KTASK_RETURN_SUCCESS →
  ktask_thread_iter e c on_kthread g kt kw i = Some (Returned (ktask_thread_exit kt)).
Proof.
  intros Herr. unfold ktask_thread_iter.
  destruct (Z.eqb_spec (kt_error kt) KTASK_RETURN_SUCCESS); [contradiction|].
  rewrite andb_false_r. reflexivity.
Qed.

(** [kt_error] is the first error among the calls made so far. *)
Definition latched (s : state) : Prop :=
  kt_error (st_kt s) = first_error (map call_ret (st_calls s)).

Lemma entry_latched c s w kt calls i :
  latched s → entry c s w kt calls i →
  kt_error kt = first_error (map call_ret calls).
Proof.
  unfold latched. intros Hl [Hpc|kn a b Hpc]; [exact Hl|].
  rewrite map_app. cbn [map call_ret]. rewrite first_error_snoc, <- Hl.
  destruct (save_error_fields (c_ret c) (st_kt s)) as (_&_&_&_&_&_&_&_& Hkeep & Hset).
  destruct (Z.eqb_spec (kt_error (st_kt s)) KTASK_RETURN_SUCCESS); auto.
Qed.

Lemma step_latched e c s s' : latched s → step e c s = Some s' → latched s'.
Proof.
  intros Hl Hstep.
  destruct (step_entry e c s s' Hstep) as (w & kt & calls & i & o & Hw & He & Ho & ->).
  unfold latched. destruct (settle_kt s kt calls (c_worker c) w o) as [-> ->].
  destruct (ktask_thread_iter_error _ _ _ _ _ _ _ _ Ho) as [-> _].
  eapply entry_latched; eauto.
Qed.

Lemma exec_latched e cs : ∀ s s', latched s → exec e cs s = Some s' → latched s'.
Proof.
  induction cs as [|c cs IH]; intros s s' Hs; simpl.
  - intros H; inversion H; subst; exact Hs.
  - destruct (step e c s) as [s1|] eqn:Hstep; simpl; [|discriminate].
    apply IH. eapply step_latched; eauto.
Qed.

Lemma setup_fresh e w g nodes ctl s :
  ktask_run_numa_setup e w g nodes ctl = Some (Running s) →
  st_calls s = [] ∧ kt_error (st_kt s) = KTASK_RETURN_SUCCESS ∧
  kt_ctl (st_kt s) = ctl.
Proof.
  unfold ktask_run_numa_setup.
  destruct (_ =? 0); [discriminate|].
  destruct (ktask_init_works _ _ _ _ _) as [r|]; simpl; [|discriminate].
  destruct (ktask_chunk_size _ _ _) as [chunk|]; simpl; [|discriminate].
  destruct (nodes !! 0%nat) as [kn|]; simpl; [|discriminate].
  intros H; inversion H. simpl.
  destruct (ktask_task_init_fresh nodes ctl) as (_ & He & _).
  rewrite ktask_task_init_ctl. auto.
Qed.

Lemma reach_inv e w g nodes ctl cs s :
  reach e w g nodes ctl cs = Some s →
  ∃ s0, ktask_run_numa_setup e w g nodes ctl = Some (Running s0) ∧
        exec e cs s0 = Some s.
Proof.
  unfold reach. destruct (ktask_run_numa_setup e w g nodes ctl) as [[st|s0]|];
    simpl; try discriminate. eauto.
Qed.

Lemma reach_latched e w g nodes ctl cs s :
  reach e w g nodes ctl cs = Some s → latched s.
Proof.
  intros Hr. destruct (reach_inv _ _ _ _ _ _ _ Hr) as (s0 & Hs0 & Hex).
  destruct (setup_fresh _ _ _ _ _ _ Hs0) as (Hc & He & _).
  eapply exec_latched; [|exact Hex]. unfold latched. rewrite Hc, He. reflexivity.
Qed.

Lemma ktask_run_numa_inv e w g nodes ctl cs status g' calls :
  ktask_run_numa e w g nodes ctl cs = Some (status, g', calls) →
  (ktask_run_numa_setup e w g nodes ctl = Some (Immediate status) ∧
   cs = [] ∧ g' = g ∧ calls = []) ∨
  (∃ s, reach e w g nodes ctl cs = Some s ∧ kt_ktask_done (st_kt s) = true ∧
        status = kt_error (st_kt s) ∧ calls = st_calls s ∧
        g' = (ktask_fini_works w (map w_kw (tail (st_workers s))) (st_rlim s)).2).
Proof.
  unfold ktask_run_numa, reach.
  destruct (ktask_run_numa_setup e w g nodes ctl) as [[st|s0]|]; simpl;
    try discriminate.
  - destruct cs; [|discriminate]. intros H; inversion H. left. auto.
  - destruct (exec e cs s0) as [s|]; simpl; [|discriminate].
    destruct (kt_ktask_done (st_kt s)) eqn:Hd; [|discriminate].
    intros H; inversion H. right. exists s. auto.
Qed.

(** C7: [kt_error] is written once.  In every state a run reaches it is
    the first value other than success among the return values of the
    processing callback, in the order in which the workers take
    [kt_mutex] again; once it is not success, a step keeps it, leaves
    every descriptor and the total as they are and makes the stepping
    worker leave its loop (no chunk is claimed); and [ktask_run_numa]
    returns that value, which is success exactly when every call of the
    processing callback returned success. *)
Theorem first_error_is_latched e w g nodes ctl :
  (∀ cs s, reach e w g nodes ctl cs = Some s →
     kt_error (st_kt s) = first_error (map call_ret (st_calls s))) ∧
  (∀ cs s c s', reach e w g nodes ctl cs = Some s → step e c s = Some s' →
     kt_error (st_kt s) ≠ KTASK_RETURN_SUCCESS →
     kt_error (st_kt s') = kt_error (st_kt s) ∧
     kt_nodes (st_kt s') = kt_nodes (st_kt s) ∧
     kt_total_size (st_kt s') = kt_total_size (st_kt s) ∧
     ∃ wk, st_workers s !! c_worker c = Some wk ∧
       st_workers s'
       = <[c_worker c := {| w_kw := w_kw wk; w_kthread := w_kthread wk;
                            w_pc := Finished |}]> (st_workers s)) ∧
  (∀ cs status g' calls,
     ktask_run_numa e w g nodes ctl cs = Some (status, g', calls) →
     status = first_error (map call_ret calls) ∧
     (status = KTASK_RETURN_SUCCESS ↔
      Forall (λ c, call_ret c = KTASK_RETURN_SUCCESS) calls)).
Proof.
  split; [|split].
  - intros cs s Hr. apply (reach_latched _ _ _ _ _ _ _ Hr).
  - intros cs s c s' _ Hstep Herr.
    destruct (step_entry e c s s' Hstep) as (wk & kt & calls & i & o & Hw & He & Ho & ->).
    destruct (entry_fields _ _ _ _ _ _ He) as (_ & Htot & _ & Hnodes & _ & _ & _ & Hkeep & _).
    assert (kt_error kt ≠ KTASK_RETURN_SUCCESS) as Herr'
      by (rewrite (Hkeep Herr); exact Herr).
    rewrite (ktask_thread_iter_failed e c (w_kthread wk) (st_rlim s) kt (w_kw wk) i Herr')
      in Ho.
    inversion Ho; subst o. simpl.
    destruct (ktask_thread_exit_fields kt) as (_ & -> & _ & -> & _ & -> & _).
    rewrite (Hkeep Herr), Htot, Hnodes. repeat split; auto. exists wk. auto.
  - intros cs status g' calls Hrun.
    assert (status = first_error (map call_ret calls)) as Hst.
    { destruct (ktask_run_numa_inv _ _ _ _ _ _ _ _ _ Hrun)
        as [(Hs & _ & _ & ->)|(s & Hr & _ & -> & -> & _)].
      - unfold ktask_run_numa_setup in Hs.
        destruct (_ =? 0); [inversion Hs; reflexivity|].
        destruct (ktask_init_works _ _ _ _ _) as [r|]; simpl in Hs; [|discriminate].
        destruct (ktask_chunk_size _ _ _) as [chunk|]; simpl in Hs; [|discriminate].
        destruct (nodes !! 0%nat) as [kn|]; simpl in Hs; discriminate.
      - apply (reach_latched _ _ _ _ _ _ _ Hr). }
    split; [exact Hst|]. rewrite Hst, first_error_success, Forall_map. reflexivity.
Qed.

Lemma first_error_is_latched_witness :
  7 = first_error (map call_ret
        [ {| call_node := 1; call_start := 100; call_end := 104; call_ret := 7 |};
          {| call_node := 0; call_start := 0; call_end := 4; call_ret := 9 |} ]) ∧
  (7 = KTASK_RETURN_SUCCESS ↔
   Forall (λ c, call_ret c = KTASK_RETURN_SUCCESS)
     [ {| call_node := 1; call_start := 100; call_end := 104; call_ret := 7 |};
       {| call_node := 0; call_start := 0; call_end := 4; call_ret := 9 |} ]).
Proof.
  eapply (proj2 (proj2 (first_error_is_latched (host true) no_wild (rlim_of 5 [2; 3])
            [node 0 8 0; node 100 4 1] (range_ctl 4 0)))
          [pick 1 0 0; pick 0 0 0; pick 1 7 0; pick 0 9 0; pick 2 0 0]
          7 (rlim_of 5 [2; 3])).
  vm_compute. reflexivity.
Defined.

(** ** Termination *)














Lemma all_finished ws :
  count_finished ws = Z.of_nat (length ws) → Forall (λ w, finished w = true) ws.
Proof.
  induction ws as [|w rest IH]; simpl count_finished; simpl length; [constructor|].
  pose proof (count_finished_bounds rest).
  destruct (finished w) eqn:Hf; [|lia].
  intros H'. constructor; [exact Hf|apply IH; lia].
Qed.


Ltac concrete_node_array :=
  split; [reflexivity|];
  repeat constructor; vm_compute; try discriminate; reflexivity.


(** ** Coverage *)

(** Whether address [x] lies in the range [start, end_). *)
Definition within (start end_ x : Z) : bool := (start <=? x) && (x <? end_).

(** Address [x] of descriptor [i] is in the range of call [c]. *)
Definition in_call (i : nat) (x : Z) (c : call) : Prop :=
  call_node c = i ∧ call_start c <= x < call_end c.

(** The ranges handed to the processing callback cover each descriptor's
    initial range, and two calls made for one descriptor share no
    address. *)
Definition covers_each (nodes : list ktask_node) (calls : list call) : Prop :=
  (∀ i kn x, nodes !! i = Some kn →
     (∃ c, c ∈ calls ∧ in_call i x c) ↔
     kn_start kn <= x < kn_start kn + kn_task_size kn) ∧
  (∀ j k c1 c2 x, j ≠ k → calls !! j = Some c1 → calls !! k = Some c2 →
     call_node c1 = call_node c2 →
     ¬ (call_start c1 <= x < call_end c1 ∧ call_start c2 <= x < call_end c2)).

(** The ranges of two descriptors share no address. *)
Definition descriptors_disjoint (nodes : list ktask_node) : Prop :=
  ∀ i j kn1 kn2 x, i ≠ j → nodes !! i = Some kn1 → nodes !! j = Some kn2 →
    ¬ (kn_start kn1 <= x < kn_start kn1 + kn_task_size kn1 ∧
       kn_start kn2 <= x < kn_start kn2 + kn_task_size kn2).

(** Coverage as section 8 words it: every call is made for one of the
    descriptors, any two calls are disjoint, whichever descriptors they
    are made for, and the calls made for a descriptor cover its initial
    range exactly. *)
Definition covers_exactly (nodes : list ktask_node) (calls : list call) : Prop :=
  (∀ c, c ∈ calls → is_Some (nodes !! call_node c)) ∧
  (∀ j k c1 c2 x, j ≠ k → calls !! j = Some c1 → calls !! k = Some c2 →
     ¬ (call_start c1 <= x < call_end c1 ∧ call_start c2 <= x < call_end c2)) ∧
  (∀ i kn x, nodes !! i = Some kn →
     (∃ c, c ∈ calls ∧ in_call i x c) ↔
     kn_start kn <= x < kn_start kn + kn_task_size kn).

(** The statement of C2 for one run. *)
Definition coverage_claim (e : env) (w : wild) (g : rlim)
    (nodes : list ktask_node) (ctl : ktask_ctl) : Prop :=
  ∀ cs g' calls,
    ktask_run_numa e w g nodes ctl cs = Some (KTASK_RETURN_SUCCESS, g', calls) →
    covers_exactly nodes calls.

(** The number of calls, finished or in progress, whose range for
    descriptor [i] holds [x]. *)
Definition hit_call (i : nat) (x : Z) (c : call) : Z :=
  if decide (call_node c = i) then
    if within (call_start c) (call_end c) x then 1 else 0
  else 0.

Definition hit_worker (i : nat) (x : Z) (w : worker) : Z :=
  match w_pc w with
  | InCall kn start end_ =>
      if decide (kn = i) then if within start end_ x then 1 else 0 else 0
  | _ => 0
  end.

Fixpoint hits_calls (i : nat) (x : Z) (calls : list call) : Z :=
  match calls with
  | [] => 0
  | c :: rest => hit_call i x c + hits_calls i x rest
  end.

Fixpoint hits_workers (i : nat) (x : Z) (ws : list worker) : Z :=
  match ws with
  | [] => 0
  | w :: rest => hit_worker i x w + hits_workers i x rest
  end.

Definition hits (i : nat) (x : Z) (s : state) : Z :=
  hits_calls i x (st_calls s) + hits_workers i x (st_workers s).

(** Cursors and sizes of a node array that stay below 2^64. *)
Definition node_ranges (nodes : list ktask_node) : Prop :=
  Forall (λ kn, 0 <= kn_start kn ∧
                kn_start kn + kn_task_size kn < 2 ^ SIZE_WIDTH) nodes.

(** What holds of the claimed ranges during a run over [nodes0]. *)
Record cover_inv (nodes0 : list ktask_node) (s : state) : Prop := {
  cov_iter : ∀ position size,
    kc_iter_func (kt_ctl (st_kt s)) position size = ktask_iter_range position size;
  cov_len : length (kt_nodes (st_kt s)) = length nodes0;
  cov_sum : sum_sizes (kt_nodes (st_kt s)) < 2 ^ SIZE_WIDTH;
  cov_node : ∀ i kn0 kn,
    nodes0 !! i = Some kn0 → kt_nodes (st_kt s) !! i = Some kn →
    0 <= kn_start kn0 <= kn_start kn ∧
    kn_start kn + kn_task_size kn = kn_start kn0 + kn_task_size kn0 ∧
    kn_start kn0 + kn_task_size kn0 < 2 ^ SIZE_WIDTH;
  cov_hits : ∀ i kn0 kn x,
    nodes0 !! i = Some kn0 → kt_nodes (st_kt s) !! i = Some kn →
    hits i x s = if within (kn_start kn0) (kn_start kn) x then 1 else 0;
  cov_out : ∀ i x, nodes0 !! i = None → hits i x s = 0;
}.

Lemma hits_calls_snoc i x calls c :
  hits_calls i x (calls ++ [c]) = hits_calls i x calls + hit_call i x c.
Proof. induction calls as [|c' rest IH]; simpl; [lia|]. rewrite IH. lia. Qed.

Lemma hits_workers_insert i x ws : ∀ k w w',
  ws !! k = Some w →
  hits_workers i x (<[k := w']> ws)
  = hits_workers i x ws - hit_worker i x w + hit_worker i x w'.
Proof.
  induction ws as [|y rest IH]; intros [|k] w w' Hk; simpl in *; try discriminate.
  - inversion Hk; subst. lia.
  - rewrite (IH k w w' Hk). lia.
Qed.

(** Taking the mutex moves the worker's finished call, if any, from the
    worker to the list of calls. *)
Lemma entry_hits c s w kt calls i0 i x :
  entry c s w kt calls i0 →
  hits_calls i x calls = hits_calls i x (st_calls s) + hit_worker i x w.
Proof.
  destruct 1 as [Hpc|kn a b Hpc]; unfold hit_worker; rewrite Hpc; [lia|].
  rewrite hits_calls_snoc. unfold hit_call. simpl. reflexivity.
Qed.

Lemma ktask_claim_nodes kt j kn :
  kt_inv kt → kt_nodes kt !! j = Some kn → kn_task_size kn ≠ 0 →
  let size := Z.min (kt_chunk_size kt) (kn_task_size kn) in
  let end_ := kc_iter_func (kt_ctl kt) (kn_start kn) size in
  ∃ kt', ktask_claim kt j kn = Claimed kt' j (kn_start kn) end_ ∧
    kt_nodes kt' = <[j := set_kn end_ (kn_task_size kn - size) kn]> (kt_nodes kt) ∧
    kt_ctl kt' = kt_ctl kt ∧ 1 <= size <= kn_task_size kn.
Proof.
  intros Hinv Hj Hnz size end_.
  destruct (claim_size kt kn Hinv (list_elem_of_lookup_2 _ _ _ Hj) Hnz) as [Hsz Hrem].
  fold size in Hsz, Hrem. unfold ktask_claim. fold size. fold end_.
  rewrite (wrap_small _ Hrem).
  destruct (kn_task_size (set_kn end_ (kn_task_size kn - size) kn) =? 0);
    eexists; (split; [reflexivity|]); simpl; auto.
Qed.

Lemma within_split a b c x :
  a <= b → b <= c →
  (if within a c x then 1 else 0)
  = (if within a b x then 1 else 0) + (if within b c x then 1 else 0).
Proof.
  intros Hab Hbc. unfold within.
  destruct (Z.leb_spec a x), (Z.ltb_spec x c), (Z.ltb_spec x b), (Z.leb_spec b x);
    simpl; lia.
Qed.

(** A step that leaves the descriptors alone and whose worker is not in a
    call afterwards keeps the ranges as they are. *)
Lemma cover_inv_idle nodes0 c s w kt calls i0 kt' g' w' :
  cover_inv nodes0 s → st_workers s !! c_worker c = Some w →
  entry c s w kt calls i0 →
  kt_nodes kt' = kt_nodes kt → kt_ctl kt' = kt_ctl kt →
  (∀ i x, hit_worker i x w' = 0) →
  cover_inv nodes0
    {| st_kt := kt'; st_rlim := g';
       st_workers := <[c_worker c := w']> (st_workers s); st_calls := calls |}.
Proof.
  intros [Hit Hlen Hsum Hnode Hhits Hout] Hw He Hn Hc Hw'.
  destruct (entry_fields _ _ _ _ _ _ He) as (Hctl & _ & _ & Hnodes & _).
  assert (∀ i x, hits i x
            {| st_kt := kt'; st_rlim := g';
               st_workers := <[c_worker c := w']> (st_workers s);
               st_calls := calls |} = hits i x s) as Hsame.
  { intros i x. unfold hits. simpl.
    rewrite (entry_hits c s w kt calls i0 i x He).
    rewrite (hits_workers_insert i x _ _ w w' Hw), Hw'. lia. }
  split; simpl.
  - intros. rewrite Hc, Hctl. apply Hit.
  - rewrite Hn, Hnodes. exact Hlen.
  - rewrite Hn, Hnodes. exact Hsum.
  - rewrite Hn, Hnodes. exact Hnode.
  - rewrite Hn, Hnodes. intros i kn0 kn x H0 H1.
    rewrite Hsame. apply Hhits; assumption.
  - intros i x H0. rewrite Hsame. apply Hout; assumption.
Qed.

Lemma step_cover_inv nodes0 e c s s' :
  run_inv s → cover_inv nodes0 s → step e c s = Some s' → cover_inv nodes0 s'.
Proof.
  intros Hs Hcov Hstep.
  destruct (step_pass e c s s' Hs Hstep)
    as (w & kt & calls & i0 & o & Hw & He & Hk & Hp & ->).
  destruct (entry_fields _ _ _ _ _ _ He) as (Hctl & _ & _ & Hnodes & _).
  destruct Hp as [Hexit|j kn Hpos Hok Hj Hnz|old j kn q g Hpos Hok Hi Hz Hj Hnz].
  - destruct (ktask_thread_exit_fields kt) as (Hc' & _ & _ & Hn' & _).
    simpl. eapply cover_inv_idle; eauto.
  - destruct (ktask_claim_nodes kt j kn Hk Hj Hnz) as (kt' & Heq1 & Hn' & Hc' & Hsz).
    destruct (ktask_claim_inv kt j kn Hk Hj Hnz)
      as (kt'' & end_ & Heq & _ & Hsum' & Hlen' & _).
    rewrite Heq1 in Heq. inversion Heq; subst kt''. clear Heq. rewrite Heq1.
    rewrite Hn' in Hsum', Hlen'.
    destruct Hcov as [Hit Hlen Hsum Hnode Hhits Hout].
    set (size := Z.min (kt_chunk_size kt) (kn_task_size kn)) in *.
    assert (j < length nodes0)%nat as Hjlt
      by (rewrite <- Hlen, <- Hnodes; eapply lookup_lt_Some; eauto).
    destruct (lookup_lt_is_Some_2 nodes0 j Hjlt) as [kn0 Hkn0].
    rewrite Hnodes in Hj.
    destruct (Hnode j kn0 kn Hkn0 Hj) as (Hst & Hend & Hfit).
    assert (kc_iter_func (kt_ctl kt) (kn_start kn) size = kn_start kn + size) as Hiter.
    { rewrite Hctl, Hit. unfold ktask_iter_range. apply wrap_small.
      unfold is_size_t. lia. }
    rewrite Hiter in *. rewrite Hnodes in *.
    split; simpl.
    + intros. rewrite Hc', Hctl. apply Hit.
    + rewrite Hn', length_insert. exact Hlen.
    + rewrite Hn'. lia.
    + rewrite Hn'. intros i kn0' kn' Hl0 Hl1.
      destruct (decide (i = j)) as [->|Hne].
      * rewrite list_lookup_insert_eq in Hl1 by (eapply lookup_lt_Some; eauto).
        inversion Hl1; subst kn'. rewrite Hkn0 in Hl0. inversion Hl0; subst kn0'.
        simpl. lia.
      * rewrite list_lookup_insert_ne in Hl1 by congruence. eapply Hnode; eauto.
    + rewrite Hn'. intros i kn0' kn' x Hl0 Hl1. unfold hits. simpl.
      rewrite (entry_hits c s w kt calls i0 i x He).
      rewrite (hits_workers_insert i x _ _ w _ Hw).
      unfold hit_worker at 3. simpl.
      destruct (decide (i = j)) as [->|Hne].
      * rewrite list_lookup_insert_eq in Hl1 by (eapply lookup_lt_Some; eauto).
        inversion Hl1; subst kn'. rewrite Hkn0 in Hl0. inversion Hl0; subst kn0'.
        simpl. destruct (decide (j = j)); [|congruence].
        pose proof (Hhits j kn0 kn x Hkn0 Hj) as Hh. unfold hits in Hh.
        rewrite (within_split (kn_start kn0) (kn_start kn) (kn_start kn + size) x)
          by lia.
        lia.
      * rewrite list_lookup_insert_ne in Hl1 by congruence.
        destruct (decide (j = i)); [congruence|].
        pose proof (Hhits i kn0' kn' x Hl0 Hl1) as Hh. unfold hits in Hh. lia.
    + intros i x Hl0. unfold hits. simpl.
      rewrite (entry_hits c s w kt calls i0 i x He).
      rewrite (hits_workers_insert i x _ _ w _ Hw).
      unfold hit_worker at 3. simpl.
      destruct (decide (j = i)) as [<-|Hne]; [congruence|].
      pose proof (Hout i x Hl0) as Hh. unfold hits in Hh. lia.
  - simpl. eapply cover_inv_idle; eauto.
Qed.

Lemma exec_cover_inv nodes0 e cs : ∀ s s',
  run_inv s → cover_inv nodes0 s → exec e cs s = Some s' → cover_inv nodes0 s'.
Proof.
  induction cs as [|c cs IH]; intros s s' Hs Hc; simpl.
  - intros H; inversion H; subst; exact Hc.
  - destruct (step e c s) as [s1|] eqn:Hstep; simpl; [|discriminate].
    apply IH; [eapply step_run_inv|eapply step_cover_inv]; eauto.
Qed.

Lemma step_workers_length e c s s' :
  step e c s = Some s' → length (st_workers s') = length (st_workers s).
Proof.
  intros Hstep.
  destruct (step_entry e c s s' Hstep) as (w & kt & calls & i & o & _ & _ & _ & ->).
  destruct o; simpl; apply length_insert.
Qed.

Lemma exec_workers_length e cs : ∀ s s',
  exec e cs s = Some s' → length (st_workers s') = length (st_workers s).
Proof.
  induction cs as [|c cs IH]; intros s s'; simpl.
  - intros H; inversion H; reflexivity.
  - destruct (step e c s) as [s1|] eqn:Hstep; simpl; [|discriminate].
    intros Hex. rewrite (IH s1 s' Hex). eapply step_workers_length; eauto.
Qed.

Lemma hits_workers_idle i x ws :
  Forall (λ w, w_pc w = Queued ∨ w_pc w = Finished) ws → hits_workers i x ws = 0.
Proof.
  induction 1 as [|w rest Hw _ IH]; simpl; [reflexivity|].
  unfold hit_worker. destruct Hw as [-> | ->]; lia.
Qed.

Lemma hit_call_bounds i x c : 0 <= hit_call i x c <= 1.
Proof.
  unfold hit_call. destruct (decide _); [destruct (within _ _ _)|]; lia.
Qed.

Lemma hit_call_in i x c : hit_call i x c = 1 ↔ in_call i x c.
Proof.
  unfold hit_call, in_call, within.
  destruct (decide (call_node c = i)) as [Hn|Hn].
  - destruct (Z.leb_spec (call_start c) x) as [Ha|Ha],
             (Z.ltb_spec x (call_end c)) as [Hb|Hb]; simpl;
      (split; [intros Hone; first [lia | split; [assumption|lia]]
              |intros [_ Hin]; lia]).
  - split; [lia|]. intros [Hin _]. contradiction.
Qed.

Lemma hits_calls_nonneg i x calls : 0 <= hits_calls i x calls.
Proof.
  induction calls as [|c rest IH]; simpl; [lia|].
  pose proof (hit_call_bounds i x c). lia.
Qed.

Lemma hits_calls_pos i x calls :
  0 < hits_calls i x calls ↔ ∃ c, c ∈ calls ∧ in_call i x c.
Proof.
  induction calls as [|c rest IH]; simpl.
  - split; [lia|]. intros (c & Hc & _). inversion Hc.
  - pose proof (hit_call_bounds i x c) as Hb.
    pose proof (hits_calls_nonneg i x rest) as Hn.
    split.
    + intros Hpos. destruct (Z.eq_dec (hit_call i x c) 1) as [H1|H1].
      * exists c. split; [left|apply hit_call_in; exact H1].
      * destruct (proj1 IH) as (c' & Hc' & Hin); [lia|].
        exists c'. split; [right; exact Hc'|exact Hin].
    + intros (c' & Hc' & Hin). apply elem_of_cons in Hc' as [->|Hc'].
      * apply hit_call_in in Hin. lia.
      * assert (0 < hits_calls i x rest) by (apply IH; eauto). lia.
Qed.

Lemma hits_calls_ge i x calls : ∀ k c,
  calls !! k = Some c → hit_call i x c <= hits_calls i x calls.
Proof.
  induction calls as [|c' rest IH]; intros [|k] c Hk; simpl in *; try discriminate.
  - inversion Hk; subst. pose proof (hits_calls_nonneg i x rest). lia.
  - pose proof (IH k c Hk). pose proof (hit_call_bounds i x c'). lia.
Qed.

Lemma hits_calls_two i x calls : ∀ j k c1 c2,
  j ≠ k → calls !! j = Some c1 → calls !! k = Some c2 →
  hit_call i x c1 + hit_call i x c2 <= hits_calls i x calls.
Proof.
  induction calls as [|c rest IH]; intros [|j] [|k] c1 c2 Hne Hj Hk;
    simpl in *; try discriminate; try congruence.
  - inversion Hj; subst. pose proof (hits_calls_ge i x rest k c2 Hk). lia.
  - inversion Hk; subst. pose proof (hits_calls_ge i x rest j c1 Hj). lia.
  - assert (j ≠ k) by congruence.
    pose proof (IH j k c1 c2 ltac:(assumption) Hj Hk).
    pose proof (hit_call_bounds i x c). lia.
Qed.

Lemma sum_zero_sizes nodes :
  Forall (λ kn, is_size_t (kn_task_size kn)) nodes → sum_sizes nodes = 0 →
  Forall (λ kn, kn_task_size kn = 0) nodes.
Proof.
  induction 1 as [|kn rest Hkn Hrest IH]; simpl; [constructor|].
  pose proof (sum_sizes_nonneg rest Hrest). unfold is_size_t in Hkn.
  intros Hz. constructor; [lia|apply IH; lia].
Qed.

(** From the count of hits to coverage. *)
Lemma hits_cover nodes calls :
  (∀ i kn x, nodes !! i = Some kn →
     hits_calls i x calls
     = if within (kn_start kn) (kn_start kn + kn_task_size kn) x then 1 else 0) →
  (∀ i x, nodes !! i = None → hits_calls i x calls = 0) →
  covers_each nodes calls.
Proof.
  intros Hin Hout. split.
  - intros i kn x Hi. rewrite <- hits_calls_pos, (Hin i kn x Hi). unfold within.
    destruct (Z.leb_spec (kn_start kn) x),
             (Z.ltb_spec x (kn_start kn + kn_task_size kn)); simpl; lia.
  - intros j k c1 c2 x Hne Hj Hk Hnode [H1 H2].
    assert (hit_call (call_node c1) x c1 = 1) as Hh1
      by (apply hit_call_in; split; auto).
    assert (hit_call (call_node c1) x c2 = 1) as Hh2
      by (apply hit_call_in; split; auto).
    pose proof (hits_calls_two (call_node c1) x calls j k c1 c2 Hne Hj Hk) as Htwo.
    destruct (nodes !! call_node c1) as [kn|] eqn:Hn.
    + rewrite (Hin _ kn x Hn) in Htwo. destruct (within _ _ _); lia.
    + rewrite (Hout _ x Hn) in Htwo. lia.
Qed.

Lemma setup_cover_inv e w g nodes ctl s :
  node_array nodes → node_ranges nodes → sum_sizes nodes < 2 ^ SIZE_WIDTH →
  admissible ctl →
  (∀ position size, kc_iter_func ctl position size = ktask_iter_range position size) →
  ktask_run_numa_setup e w g nodes ctl = Some (Running s) →
  run_inv s ∧ cover_inv nodes s ∧ (0 < length (st_workers s))%nat.
Proof.
  intros Harr Hrng Hsum Hadm Hiter Hs.
  assert (wrap (sum_sizes nodes) ≠ 0) as Hnz.
  { intros Hz. rewrite (setup_immediate e w g nodes ctl Hz) in Hs. discriminate. }
  destruct (setup_running e w g nodes ctl Harr Hadm Hnz)
    as (s0 & Hs0 & Hinv & Hnodes & Hctl & Hcalls & _ & Hq & Hnw & _).
  rewrite Hs in Hs0. inversion Hs0; subst s0. clear Hs0.
  split; [exact Hinv|]. split.
  - assert (∀ i x, hits i x s = 0) as Hzero.
    { intros i x. unfold hits. rewrite Hcalls. simpl.
      apply hits_workers_idle. eapply Forall_impl; [exact Hq|]. auto. }
    split.
    + intros. rewrite Hctl. apply Hiter.
    + rewrite Hnodes. reflexivity.
    + rewrite Hnodes. exact Hsum.
    + rewrite Hnodes. intros i kn0 kn H0 H1. rewrite H0 in H1. inversion H1; subst.
      unfold node_ranges in Hrng. rewrite Forall_forall in Hrng.
      pose proof (Hrng kn (list_elem_of_lookup_2 _ _ _ H0)). lia.
    + rewrite Hnodes. intros i kn0 kn x H0 H1. rewrite H0 in H1. inversion H1; subst.
      rewrite Hzero. unfold within.
      destruct (Z.leb_spec (kn_start kn) x), (Z.ltb_spec x (kn_start kn)); simpl; lia.
    + intros. apply Hzero.
  - pose proof (inv_nworks s Hinv). lia.
Qed.

(** After a successful run every descriptor's initial range is covered by
    calls that share no address. *)
Lemma run_covers e w g nodes ctl cs g' calls :
  node_array nodes → node_ranges nodes → sum_sizes nodes < 2 ^ SIZE_WIDTH →
  admissible ctl →
  (∀ position size, kc_iter_func ctl position size = ktask_iter_range position size) →
  ktask_run_numa e w g nodes ctl cs = Some (KTASK_RETURN_SUCCESS, g', calls) →
  covers_each nodes calls.
Proof.
  intros Harr Hrng Hsum Hadm Hiter Hrun.
  destruct (ktask_run_numa_inv _ _ _ _ _ _ _ _ _ Hrun)
    as [(Hs & _ & _ & ->)|(s & Hr & Hdone & Herr & -> & _)].
  - (* the sum is 0 and below 2^64: no descriptor has work *)
    assert (wrap (sum_sizes nodes) = 0) as Hz.
    { destruct (Z.eq_dec (wrap (sum_sizes nodes)) 0) as [|Hnz]; [assumption|].
      destruct (setup_running e w g nodes ctl Harr Hadm Hnz) as (s0 & Hs0 & _).
      rewrite Hs in Hs0. discriminate. }
    pose proof (sum_sizes_nonneg nodes (proj2 Harr)) as Hnn.
    rewrite wrap_small in Hz by (unfold is_size_t; lia).
    pose proof (sum_zero_sizes nodes (proj2 Harr) Hz) as Hall.
    rewrite Forall_forall in Hall.
    apply hits_cover; [|reflexivity].
    intros i kn x Hi. rewrite (Hall kn (list_elem_of_lookup_2 _ _ _ Hi)).
    simpl. unfold within.
    destruct (Z.leb_spec (kn_start kn) x), (Z.ltb_spec x (kn_start kn + 0)); simpl; lia.
  - destruct (reach_inv _ _ _ _ _ _ _ Hr) as (s0 & Hs0 & Hex).
    destruct (setup_cover_inv e w g nodes ctl s0 Harr Hrng Hsum Hadm Hiter Hs0)
      as (Hinv0 & Hcov0 & Hlen0).
    pose proof (exec_run_inv e cs s0 s Hinv0 Hex) as Hinv.
    pose proof (exec_cover_inv nodes e cs s0 s Hinv0 Hcov0 Hex) as Hcov.
    pose proof (exec_workers_length e cs s0 s Hex) as Hlen.
    pose proof (proj1 (inv_done s Hinv) Hdone) as Hall.
    assert (∀ i x, hits_workers i x (st_workers s) = 0) as Hidle.
    { intros i x. apply hits_workers_idle.
      eapply Forall_impl; [exact (all_finished _ Hall)|].
      intros wk. unfold finished. destruct (w_pc wk); try discriminate; auto. }
    assert (kt_total_size (st_kt s) = 0) as Htot.
    { destruct (inv_exit s Hinv) as [Hz|Hne]; [lia|exact Hz|congruence]. }
    pose proof (inv_kt s Hinv) as [[_ Hsz] _ Htotal _].
    pose proof (sum_sizes_nonneg _ Hsz) as Hnn.
    rewrite Htotal, wrap_small in Htot
      by (unfold is_size_t; pose proof (cov_sum _ _ Hcov); lia).
    pose proof (sum_zero_sizes _ Hsz Htot) as Hzero.
    rewrite Forall_forall in Hzero.
    apply hits_cover.
    + intros i kn0 x Hi.
      assert (i < length (kt_nodes (st_kt s)))%nat as Hlt
        by (rewrite (cov_len _ _ Hcov); eapply lookup_lt_Some; eauto).
      destruct (lookup_lt_is_Some_2 _ _ Hlt) as [kn Hkn].
      pose proof (cov_hits _ _ Hcov i kn0 kn x Hi Hkn) as Hh.
      destruct (cov_node _ _ Hcov i kn0 kn Hi Hkn) as (_ & Hend & _).
      rewrite (Hzero kn (list_elem_of_lookup_2 _ _ _ Hkn)) in Hend.
      unfold hits in Hh. rewrite Hidle in Hh.
      rewrite <- Hend, Z.add_0_r. lia.
    + intros i x Hi. pose proof (cov_out _ _ Hcov i x Hi) as Hh.
      unfold hits in Hh. rewrite Hidle in Hh. lia.
Qed.
(** ** Chunks and descriptors *)

(** The chunk [a, b) of descriptor [n] is a full chunk, or it is shorter
    and ends where the descriptor's range ends. *)
Definition chunk_ok (nodes0 : list ktask_node) (chunk : Z) (n : nat) (a b : Z) : Prop :=
  ∃ kn0, nodes0 !! n = Some kn0 ∧ 1 <= b - a <= chunk ∧
    (b - a = chunk ∨ b = kn_start kn0 + kn_task_size kn0).

Definition pc_ok (nodes0 : list ktask_node) (chunk : Z) (w : worker) : Prop :=
  match w_pc w with
  | InCall n a b => chunk_ok nodes0 chunk n a b
  | _ => True
  end.

Record chunk_inv (nodes0 : list ktask_node) (chunk : Z) (s : state) : Prop := {
  ch_size : kt_chunk_size (st_kt s) = chunk;
  ch_calls : Forall (λ c, chunk_ok nodes0 chunk (call_node c) (call_start c)
                            (call_end c)) (st_calls s);
  ch_workers : Forall (pc_ok nodes0 chunk) (st_workers s);
}.

Lemma ktask_claim_chunk_size kt j kn kt' a b :
  ktask_claim kt j kn = Claimed kt' j a b → kt_chunk_size kt' = kt_chunk_size kt.
Proof.
  unfold ktask_claim. intros H. inversion H. destruct (_ =? 0); reflexivity.
Qed.

Lemma step_chunk_inv nodes0 chunk e c s s' :
  run_inv s → cover_inv nodes0 s → chunk_inv nodes0 chunk s →
  step e c s = Some s' → chunk_inv nodes0 chunk s'.
Proof.
  intros Hs Hcov [Hsize Hcalls Hws] Hstep.
  destruct (step_pass e c s s' Hs Hstep)
    as (w & kt & calls & i0 & o & Hw & He & Hk & Hp & ->).
  destruct (entry_fields _ _ _ _ _ _ He) as (Hctl & _ & Hchunk & Hnodes & _).
  assert (Forall (λ c, chunk_ok nodes0 chunk (call_node c) (call_start c)
                         (call_end c)) calls) as Hcalls'.
  { destruct He as [Hpc|n a b Hpc]; [exact Hcalls|].
    apply Forall_app. split; [exact Hcalls|]. constructor; [|constructor]. simpl.
    rewrite Forall_lookup in Hws. pose proof (Hws _ _ Hw) as Hok.
    unfold pc_ok in Hok. rewrite Hpc in Hok. exact Hok. }
  destruct Hp as [Hexit|j kn Hpos Hok Hj Hnz|old j kn q g Hpos Hok Hi Hz Hj Hnz].
  - destruct (ktask_thread_exit_fields kt) as (_ & _ & Hch & _).
    split; simpl; [congruence|exact Hcalls'|].
    apply Forall_insert; [exact Hws|exact I].
  - destruct (ktask_claim_nodes kt j kn Hk Hj Hnz) as (kt' & Heq & _ & _ & Hsz).
    rewrite Heq. pose proof (ktask_claim_chunk_size _ _ _ _ _ _ Heq) as Hch.
    split; simpl; [congruence|exact Hcalls'|].
    apply Forall_insert; [exact Hws|]. unfold pc_ok. simpl.
    destruct Hcov as [Hit Hlen _ Hnode _ _].
    assert (j < length nodes0)%nat as Hjlt
      by (rewrite <- Hlen, <- Hnodes; eapply lookup_lt_Some; eauto).
    destruct (lookup_lt_is_Some_2 nodes0 j Hjlt) as [kn0 Hkn0].
    rewrite Hnodes in Hj.
    destruct (Hnode j kn0 kn Hkn0 Hj) as (Hst & Hend & Hfit).
    rewrite Hctl, Hit. unfold ktask_iter_range.
    rewrite wrap_small by (unfold is_size_t; lia).
    exists kn0. split; [exact Hkn0|]. rewrite Hchunk, Hsize in *. lia.
  - split; simpl; [congruence|exact Hcalls'|].
    apply Forall_insert; [exact Hws|exact I].
Qed.

Lemma exec_chunk_inv nodes0 chunk e cs : ∀ s s',
  run_inv s → cover_inv nodes0 s → chunk_inv nodes0 chunk s →
  exec e cs s = Some s' → chunk_inv nodes0 chunk s'.
Proof.
  induction cs as [|c cs IH]; intros s s' Hs Hc Hch; simpl.
  - intros H; inversion H; subst; exact Hch.
  - destruct (step e c s) as [s1|] eqn:Hstep; simpl; [|discriminate].
    apply IH; [eapply step_run_inv|eapply step_cover_inv|eapply step_chunk_inv]; eauto.
Qed.

(** Every call of a completed run is made for a descriptor and holds at
    least one unit. *)
Lemma run_chunks e w g nodes ctl cs status g' calls :
  node_array nodes → node_ranges nodes → sum_sizes nodes < 2 ^ SIZE_WIDTH →
  admissible ctl →
  (∀ position size, kc_iter_func ctl position size = ktask_iter_range position size) →
  ktask_run_numa e w g nodes ctl cs = Some (status, g', calls) →
  ∀ c, c ∈ calls →
    is_Some (nodes !! call_node c) ∧ call_start c < call_end c.
Proof.
  intros Harr Hrng Hsum Hadm Hiter Hrun.
  destruct (ktask_run_numa_inv _ _ _ _ _ _ _ _ _ Hrun)
    as [(_ & _ & _ & ->)|(s & Hr & _ & _ & -> & _)];
    [intros c Hc; inversion Hc|].
  destruct (reach_inv _ _ _ _ _ _ _ Hr) as (s0 & Hs0 & Hex).
  destruct (setup_cover_inv e w g nodes ctl s0 Harr Hrng Hsum Hadm Hiter Hs0)
    as (Hinv0 & Hcov0 & _).
  assert (wrap (sum_sizes nodes) ≠ 0) as Hnz.
  { intros Hz. rewrite (setup_immediate e w g nodes ctl Hz) in Hs0. discriminate. }
  destruct (setup_running e w g nodes ctl Harr Hadm Hnz)
    as (s0' & Hs0' & _ & _ & _ & Hcalls & _ & Hq & _).
  rewrite Hs0 in Hs0'. inversion Hs0'; subst s0'. clear Hs0'.
  assert (chunk_inv nodes (kt_chunk_size (st_kt s0)) s0) as Hch0.
  { split; [reflexivity|rewrite Hcalls; constructor|].
    eapply Forall_impl; [exact Hq|]. intros wk Hwk. unfold pc_ok.
    rewrite Hwk. exact I. }
  pose proof (exec_chunk_inv _ _ _ _ _ _ Hinv0 Hcov0 Hch0 Hex) as [_ Hcalls' _].
  intros c Hc. rewrite Forall_forall in Hcalls'.
  destruct (Hcalls' c Hc) as (kn0 & Hkn0 & Hlen & _).
  split; [rewrite Hkn0; eauto|lia].
Qed.

Lemma step_finished e c s :
  Forall (λ w, w_pc w = Finished) (st_workers s) → step e c s = None.
Proof.
  intros Hall. unfold step.
  destruct (st_workers s !! c_worker c) as [w|] eqn:Hw; simpl; [|reflexivity].
  rewrite (proj1 (Forall_lookup _ _) Hall _ _ Hw). reflexivity.
Qed.

Lemma exec_finished e cs s s' :
  Forall (λ w, w_pc w = Finished) (st_workers s) →
  exec e cs s = Some s' → cs = [].
Proof.
  intros Hall. destruct cs as [|c cs]; [reflexivity|]. simpl.
  rewrite (step_finished e c s Hall). discriminate.
Qed.

(** A run with one thread over one descriptor whose size the chunk size
    covers: the first step claims the whole descriptor, the second
    records the call and finishes. *)
Lemma lone_worker_steps e s kn0 :
  run_inv s → kt_nodes (st_kt s) = [kn0] → kn_task_size kn0 ≠ 0 →
  kn_task_size kn0 <= kt_chunk_size (st_kt s) →
  kt_error (st_kt s) = KTASK_RETURN_SUCCESS →
  (∃ wk, st_workers s = [wk] ∧ w_pc wk = Queued) → st_calls s = [] →
  ∀ cs s', exec e cs s = Some s' →
    (cs = [] ∧ s' = s) ∨
    (∃ c1, cs = [c1] ∧ st_calls s' = [] ∧ kt_ktask_done (st_kt s') = false) ∨
    (∃ c1 c2, cs = [c1; c2] ∧
       st_calls s' = [ {| call_node := 0; call_start := kn_start kn0;
                          call_end := kc_iter_func (kt_ctl (st_kt s)) (kn_start kn0)
                                        (kn_task_size kn0);
                          call_ret := c_ret c2 |} ]).
Proof.
  intros Hinv Hnodes Hnz Hchunk Herr (wk & Hws & Hpc) Hcalls cs s' Hex.
  destruct cs as [|c1 cs]; [left; inversion Hex; auto|right].
  simpl in Hex. destruct (step e c1 s) as [s1|] eqn:Hstep1; simpl in Hex; [|discriminate].
  pose proof (step_run_inv e c1 s s1 Hinv Hstep1) as Hinv1.
  destruct (step_pass e c1 s s1 Hinv Hstep1)
    as (w & kt & calls & i & o & Hw & He & Hk & Hp & Hs1).
  rewrite Hws in Hw.
  destruct (c_worker c1) as [|n] eqn:Hcw; [|discriminate].
  simpl in Hw. inversion Hw; subst w. clear Hw.
  destruct He as [_|kn a b Hpc']; [|congruence].
  pose proof (proj1 (Forall_lookup _ _) (inv_at s Hinv) 0%nat wk) as Hat.
  rewrite Hws in Hat. specialize (Hat eq_refl). unfold worker_at in Hat.
  rewrite Hpc, Hnodes in Hat. simpl in Hat.
  assert (kw_ktask_node_i (w_kw wk) = 0%nat) as Hi0 by lia.
  rewrite Hi0 in Hp.
  pose proof (inv_total _ (inv_kt s Hinv)) as Htot.
  pose proof (inv_nodes _ (inv_kt s Hinv)) as [_ Hsz].
  rewrite Hnodes in Htot, Hsz. simpl in Htot.
  apply Forall_cons in Hsz. destruct Hsz as [Hsz0 _].
  rewrite Z.add_0_r, wrap_small in Htot by exact Hsz0.
  unfold is_size_t in Hsz0.
  assert (o = ktask_claim (st_kt s) 0 kn0) as Ho.
  { inversion Hp as [Hexit|j kn Hpos Hok Hj Hnz'|old j kn q g Hpos Hok Hi Hz Hj Hnz'].
    - destruct Hexit; [lia|contradiction].
    - rewrite Hnodes in Hj. destruct j as [|j]; [|discriminate].
      simpl in Hj. inversion Hj. reflexivity.
    - rewrite Hnodes in Hi. simpl in Hi. inversion Hi; subst old. contradiction. }
  subst o.
  destruct (ktask_claim_nodes (st_kt s) 0 kn0 Hk ltac:(rewrite Hnodes; reflexivity) Hnz)
    as (kt1 & Hcl & Hn1 & Hc1 & _).
  rewrite Z.min_r in Hcl, Hn1 by lia.
  rewrite Z.sub_diag, Hnodes in Hn1. simpl in Hn1.
  rewrite Hcl in Hs1. simpl in Hs1. rewrite Hws in Hs1. simpl in Hs1.
  destruct cs as [|c2 cs].
  - left. inversion Hex; subst s'. exists c1. split; [reflexivity|].
    rewrite Hs1. simpl. split; [exact Hcalls|].
    destruct (kt_ktask_done (st_kt s1)) eqn:Hd; [|rewrite Hs1 in Hd; exact Hd].
    apply (inv_done s1 Hinv1) in Hd. rewrite Hs1 in Hd. simpl in Hd. discriminate.
  - right. simpl in Hex.
    destruct (step e c2 s1) as [s2|] eqn:Hstep2; simpl in Hex; [|discriminate].
    destruct (step_pass e c2 s1 s2 Hinv1 Hstep2)
      as (w2 & kt2 & calls2 & i2 & o2 & Hw2 & He2 & Hk2 & Hp2 & Hs2).
    rewrite Hs1 in Hw2. simpl in Hw2.
    destruct (c_worker c2) as [|n] eqn:Hcw2; [|discriminate].
    simpl in Hw2. inversion Hw2; subst w2. clear Hw2.
    destruct He2 as [Hq2|kn a b Hpc2]; [discriminate|].
    simpl in Hpc2. inversion Hpc2; subst kn a b. clear Hpc2.
    destruct (save_error_fields (c_ret c2) (st_kt s1)) as (_ & Ht2 & _).
    pose proof (inv_total _ (inv_kt s1 Hinv1)) as Htot1.
    rewrite Hs1 in Htot1. simpl in Htot1. rewrite Hn1 in Htot1. simpl in Htot1.
    assert (o2 = Returned (ktask_thread_exit (save_error (c_ret c2) (st_kt s1)))) as Ho2.
    { inversion Hp2 as [Hexit|j kn Hpos Hok Hj Hnz'|old j kn q g Hpos Hok Hi Hz Hj Hnz'];
        [reflexivity| |]; rewrite Ht2, Hs1 in Hpos; simpl in Hpos;
        rewrite Htot1 in Hpos; vm_compute in Hpos; discriminate. }
    subst o2. rewrite Hs1 in Hs2. simpl in Hs2.
    assert (cs = []) as ->.
    { eapply (exec_finished e cs s2 s'); [|exact Hex].
      rewrite Hs2. simpl. constructor; [reflexivity|constructor]. }
    inversion Hex; subst s'. exists c1, c2. split; [reflexivity|].
    rewrite Hs2. simpl. rewrite Hcalls. reflexivity.
Qed.

Lemma single_worker_instance e w g cs status g' calls :
  ktask_run e w g 0 1024 (range_ctl 64 1) cs = Some (status, g', calls) →
  ∃ ret, calls = [ {| call_node := 0; call_start := 0; call_end := 1024;
                      call_ret := ret |} ].
Proof.
  unfold ktask_run. set (nodes := [_]). set (ctl := range_ctl 64 1).
  intros Hrun.
  assert (node_array nodes) as Harr by (subst nodes; concrete_node_array).
  assert (admissible ctl) as Hadm by (split; vm_compute; discriminate).
  assert (wrap (sum_sizes nodes) = 1024) as Hsum by reflexivity.
  destruct (setup_running e w g nodes ctl Harr Hadm ltac:(rewrite Hsum; discriminate))
    as (s0 & Hs0 & Hinv & Hnodes & Hctl & Hcalls & Herr & Hq & Hnw & Hchunk).
  assert (wanted_works e (ktask_task_init nodes ctl) = 1) as Hwant.
  { unfold wanted_works. rewrite ktask_task_init_ctl, ktask_task_init_total, Hsum.
    change (ceil_div 1024 (kc_min_chunk_size ctl)) with 16.
    change (kc_max_threads ctl) with 1. change (1 =? 0) with false. cbv iota.
    pose proof (Pos2Z.is_pos (num_online_cpus e)). lia. }
  assert (kt_nworks (st_kt s0) = 1) as Hone by lia.
  rewrite Hsum, Hone in Hchunk.
  change (ktask_chunk_size 1024 (kc_min_chunk_size ctl) 1) with (Some 1024) in Hchunk.
  inversion Hchunk as [Hchunk'].
  assert (∃ wk, st_workers s0 = [wk] ∧ w_pc wk = Queued) as Hlone.
  { pose proof (inv_nworks s0 Hinv) as Hn. rewrite Hone in Hn.
    destruct (st_workers s0) as [|wk [|wk' ws]]; simpl in Hn; try lia.
    exists wk. split; [reflexivity|]. apply Forall_cons in Hq. tauto. }
  assert (kt_ktask_done (st_kt s0) = false) as Hnd.
  { destruct (kt_ktask_done (st_kt s0)) eqn:Hd; [|reflexivity].
    apply (inv_done s0 Hinv) in Hd. destruct Hlone as (wk & Hws & Hpc).
    rewrite Hws in Hd. unfold count_finished, finished in Hd. rewrite Hpc in Hd.
    simpl in Hd. discriminate. }
  destruct (ktask_run_numa_inv _ _ _ _ _ _ _ _ _ Hrun)
    as [(Hs & _)|(s & Hr & Hdone & _ & -> & _)]; [congruence|].
  destruct (reach_inv _ _ _ _ _ _ _ Hr) as (s0' & Hs0' & Hex).
  rewrite Hs0 in Hs0'. inversion Hs0'; subst s0'. clear Hs0'.
  destruct (lone_worker_steps e s0 (node 0 1024 (numa_node_id e)) Hinv Hnodes
              ltac:(discriminate) ltac:(rewrite <- Hchunk'; simpl; lia)
              Herr Hlone Hcalls cs s Hex)
    as [(-> & ->)|[(c1 & -> & _ & Hd)|(c1 & c2 & -> & Hc)]]; try congruence.
  rewrite Hc, Hctl. exists (c_ret c2). reflexivity.
Qed.

(** C2, as stated: two descriptors of 2^63 units each have sizes that sum
    to 2^64, which is 0 in a [size_t]; [ktask_run_numa] takes the task for
    empty and returns success without a single call, so nothing of either
    range is covered. *)
Lemma coverage_fails_when_sizes_wrap :
  let nodes := [node 0 (2 ^ 63) 0; node (2 ^ 63) (2 ^ 63) 1] in
  let g := rlim_of 5 [2; 3] in
  admissible (range_ctl 64 4) ∧
  ktask_run_numa (host true) no_wild g nodes (range_ctl 64 4) []
  = Some (KTASK_RETURN_SUCCESS, g, []) ∧
  ¬ coverage_claim (host true) no_wild g nodes (range_ctl 64 4).
Proof.
  intros nodes g.
  assert (ktask_run_numa (host true) no_wild g nodes (range_ctl 64 4) []
          = Some (KTASK_RETURN_SUCCESS, g, [])) as Hrun.
  { unfold ktask_run_numa. rewrite setup_immediate by reflexivity. reflexivity. }
  split; [split; vm_compute; discriminate|]. split; [exact Hrun|].
  intros Hclaim. destruct (Hclaim [] g [] Hrun) as (_ & _ & Hcover).
  destruct (proj2 (Hcover 0%nat (node 0 (2 ^ 63) 0) 0 eq_refl)) as (c & Hc & _).
  - simpl. lia.
  - inversion Hc.
Qed.

(** C2, as stated, on descriptors that overlap: two descriptors for the
    same four units at address 0 are each processed in full, by two
    calls on the range (0, 4), which are not disjoint.  The code never
    compares one descriptor with another. *)
Lemma coverage_fails_when_descriptors_overlap :
  let nodes := [node 0 4 0; node 0 4 1] in
  let g := rlim_of 5 [2; 3] in
  admissible (range_ctl 4 1) ∧
  ktask_run_numa (host true) no_wild g nodes (range_ctl 4 1)
    [pick 0 0 0; pick 0 0 0; pick 0 0 0]
  = Some (KTASK_RETURN_SUCCESS, g,
          [ {| call_node := 0; call_start := 0; call_end := 4; call_ret := 0 |};
            {| call_node := 1; call_start := 0; call_end := 4; call_ret := 0 |} ]) ∧
  ¬ descriptors_disjoint nodes ∧
  ¬ coverage_claim (host true) no_wild g nodes (range_ctl 4 1).
Proof.
  intros nodes g.
  assert (ktask_run_numa (host true) no_wild g nodes (range_ctl 4 1)
            [pick 0 0 0; pick 0 0 0; pick 0 0 0]
          = Some (KTASK_RETURN_SUCCESS, g,
                  [ {| call_node := 0; call_start := 0; call_end := 4;
                       call_ret := 0 |};
                    {| call_node := 1; call_start := 0; call_end := 4;
                       call_ret := 0 |} ])) as Hrun
    by (vm_compute; reflexivity).
  split; [split; vm_compute; discriminate|]. split; [exact Hrun|]. split.
  - intros Hdis.
    apply (Hdis 0%nat 1%nat (node 0 4 0) (node 0 4 1) 0); simpl;
      [discriminate|reflexivity|reflexivity|lia].
  - intros Hclaim. destruct (Hclaim _ _ _ Hrun) as (_ & Hdis & _).
    apply (Hdis 0%nat 1%nat _ _ 0 ltac:(discriminate) eq_refl eq_refl).
    simpl. lia.
Qed.

(** Calls that lie in their descriptors' ranges and are disjoint within
    each descriptor are disjoint altogether when the descriptors are. *)
Lemma covers_each_exactly nodes calls :
  (∀ c, c ∈ calls → is_Some (nodes !! call_node c)) →
  covers_each nodes calls → descriptors_disjoint nodes →
  covers_exactly nodes calls.
Proof.
  intros Hlab [Hcover Hsame] Hdis. split; [exact Hlab|]. split; [|exact Hcover].
  intros j k c1 c2 x Hne Hj Hk [H1 H2].
  destruct (decide (call_node c1 = call_node c2)) as [Heq|Hdiff].
  - apply (Hsame j k c1 c2 x Hne Hj Hk Heq). auto.
  - destruct (Hlab c1 (list_elem_of_lookup_2 _ _ _ Hj)) as [kn1 Hkn1].
    destruct (Hlab c2 (list_elem_of_lookup_2 _ _ _ Hk)) as [kn2 Hkn2].
    apply (Hdis _ _ kn1 kn2 x Hdiff Hkn1 Hkn2). split.
    + apply (Hcover _ kn1 x Hkn1). exists c1.
      split; [eapply list_elem_of_lookup_2; eauto|split; auto].
    + apply (Hcover _ kn2 x Hkn2). exists c2.
      split; [eapply list_elem_of_lookup_2; eauto|split; auto].
Qed.

(** C2, amended: for a node array whose sizes sum to less than 2^64 and
    whose ranges [start, start + size) lie below 2^64, and a control
    structure with a grain of at least 1 and the default iterator, after
    a run of [ktask_run_numa] that returns success every call of the
    processing callback is made for one of the descriptors, on a range
    of at least one unit inside that descriptor's initial range; the
    ranges handed out for each descriptor share no address and their
    union is the descriptor's initial range; and when the descriptors'
    ranges are disjoint from each other, any two calls are disjoint,
    which is the coverage of section 8 in full.  In every run of
    [ktask_run] on 1024 units at address 0 with a grain of 64 and one
    thread the callback is called exactly once, on (0, 0x400). *)
Theorem ktask_run_numa_coverage e w g nodes ctl :
  node_array nodes → node_ranges nodes → sum_sizes nodes < 2 ^ SIZE_WIDTH →
  admissible ctl →
  (∀ position size, kc_iter_func ctl position size = ktask_iter_range position size) →
  (∀ cs g' calls,
     ktask_run_numa e w g nodes ctl cs = Some (KTASK_RETURN_SUCCESS, g', calls) →
     (∀ c, c ∈ calls →
        ∃ kn, nodes !! call_node c = Some kn ∧
          kn_start kn <= call_start c ∧ call_start c < call_end c ∧
          call_end c <= kn_start kn + kn_task_size kn) ∧
     covers_each nodes calls ∧
     (descriptors_disjoint nodes → covers_exactly nodes calls)) ∧
  (∀ cs status g' calls,
     ktask_run e w g 0 1024 (range_ctl 64 1) cs = Some (status, g', calls) →
     ∃ ret, calls = [ {| call_node := 0; call_start := 0; call_end := 1024;
                         call_ret := ret |} ]).
Proof.
  intros Harr Hrng Hsum Hadm Hiter. split.
  - intros cs g' calls Hrun.
    pose proof (run_covers _ _ _ _ _ _ _ _ Harr Hrng Hsum Hadm Hiter Hrun) as Heach.
    pose proof (run_chunks _ _ _ _ _ _ _ _ _ Harr Hrng Hsum Hadm Hiter Hrun) as Hch.
    split; [|split; [exact Heach|]].
    + intros c Hc. destruct (Hch c Hc) as [[kn Hkn] Hlen].
      exists kn. split; [exact Hkn|].
      destruct Heach as [Hcover _].
      assert (kn_start kn <= call_start c
              < kn_start kn + kn_task_size kn) as Hlo.
      { apply (Hcover _ kn (call_start c) Hkn). exists c.
        split; [exact Hc|]. split; [reflexivity|lia]. }
      assert (kn_start kn <= call_end c - 1
              < kn_start kn + kn_task_size kn) as Hhi.
      { apply (Hcover _ kn (call_end c - 1) Hkn). exists c.
        split; [exact Hc|]. split; [reflexivity|lia]. }
      lia.
    + apply covers_each_exactly; [|exact Heach].
      intros c Hc. apply (Hch c Hc).
  - intros cs status g' calls. apply single_worker_instance.
Qed.

Lemma ktask_run_numa_coverage_witness :
  let nodes := [node 0 8 0; node 100 4 1] in
  let calls :=
    [ {| call_node := 1; call_start := 100; call_end := 104; call_ret := 0 |};
      {| call_node := 0; call_start := 0; call_end := 4; call_ret := 0 |};
      {| call_node := 0; call_start := 4; call_end := 8; call_ret := 0 |} ] in
  ((∀ c, c ∈ calls →
      ∃ kn, nodes !! call_node c = Some kn ∧
        kn_start kn <= call_start c ∧ call_start c < call_end c ∧
        call_end c <= kn_start kn + kn_task_size kn) ∧
   covers_each nodes calls ∧
   (descriptors_disjoint nodes → covers_exactly nodes calls)) ∧
  ∃ ret, [ {| call_node := 0; call_start := 0; call_end := 1024; call_ret := 0 |} ]
         = [ {| call_node := 0; call_start := 0; call_end := 1024; call_ret := ret |} ].
Proof.
  intros nodes calls.
  destruct (ktask_run_numa_coverage (host true) no_wild (rlim_of 5 [2; 3])
              nodes (range_ctl 4 0)) as [Hcover Hone].
  - concrete_node_array.
  - repeat constructor; vm_compute; try discriminate; reflexivity.
  - reflexivity.
  - split; vm_compute; discriminate.
  - intros position size. reflexivity.
  - split.
    + apply (Hcover [pick 1 0 0; pick 1 0 0; pick 0 0 0; pick 2 0 0;
                     pick 0 0 0; pick 1 0 0; pick 2 0 0] (rlim_of 5 [2; 3])).
      vm_compute. reflexivity.
    + apply (Hone [pick 0 0 0; pick 0 0 0] 0 (rlim_of 5 [2; 3])).
      vm_compute. reflexivity.
Defined.

(** * More of ktask.c

    ** The global limit in [ktask_init_works] *)

Lemma reserve_node_binding w nid g :
  (reserve_node w nid g).1 = nid ∨ (reserve_node w nid g).1 = NUMA_NO_NODE.
Proof.
  gov_unfold. destruct (nid =? NUMA_NO_NODE); [right; reflexivity|].
  gov_cases; auto.
Qed.

(** What one pass through the loop of [ktask_init_works] does to the
    limits and which binding it hands out. *)
Lemma try_reserve_effect w nid g r g' :
  try_reserve w nid g = (r, g') →
  ktask_rlim_max g' = ktask_rlim_max g ∧
  ktask_rlim_node_max g' = ktask_rlim_node_max g ∧
  ((r = None ∧ g' = g ∧ ktask_rlim_cur g = ktask_rlim_max g) ∨
   (∃ queue_nid, r = Some queue_nid ∧
      ktask_rlim_cur g ≠ ktask_rlim_max g ∧
      ktask_rlim_cur g' = wrap (ktask_rlim_cur g + 1) ∧
      (queue_nid = nid ∨ queue_nid = NUMA_NO_NODE))).
Proof.
  unfold try_reserve.
  destruct (Z.eqb_spec (ktask_rlim_cur g) (ktask_rlim_max g)) as [Heq|Hne].
  - intros H; inversion H; subst.
    split; [reflexivity|]. split; [reflexivity|]. left. auto.
  - destruct (reserve_node_limits w nid g) as (Hc & Hm & Hnm).
    pose proof (reserve_node_binding w nid g) as Hb.
    unfold mbind, gov_bind, mret, gov_ret, rlim_cur_incr. simpl.
    intros H; inversion H; subst. simpl. rewrite Hc, Hm, Hnm.
    split; [reflexivity|]. split; [reflexivity|]. right. eauto.
Qed.

Lemma init_works_loop_limits w nodes n : ∀ i nr_works works_list g nr_works' works_list' g',
  init_works_loop w nodes n i nr_works works_list g
  = Some (nr_works', works_list', g') →
  ktask_rlim_max g' = ktask_rlim_max g ∧
  ktask_rlim_node_max g' = ktask_rlim_node_max g ∧
  (0 <= ktask_rlim_cur g <= ktask_rlim_max g → ktask_rlim_max g < 2 ^ SIZE_WIDTH →
   ktask_rlim_cur g'
   = ktask_rlim_cur g + (Z.of_nat (length works_list') - Z.of_nat (length works_list)) ∧
   ktask_rlim_cur g' <= ktask_rlim_max g).
Proof.
  induction n as [|n IH]; intros i nr works g nr' works' g'; simpl.
  - intros H; inversion H; subst. repeat split; auto; lia.
  - destruct (umod i (Z.of_nat (length nodes))) as [ni|]; simpl; [|discriminate].
    destruct (nodes !! Z.to_nat ni) as [kn|]; simpl; [|discriminate].
    destruct (try_reserve w (kn_nid kn) g) as [r g1] eqn:Hr.
    destruct (try_reserve_effect _ _ _ _ _ Hr)
      as (Hm & Hnm & [(-> & -> & Heq)|(q & -> & Hne & Hc & _)]).
    + intros H; inversion H; subst. repeat split; auto; lia.
    + intros H. destruct (IH _ _ _ _ _ _ _ H) as (Hm' & Hnm' & Hcur).
      rewrite Hm', Hnm', Hm, Hnm. split; [reflexivity|]. split; [reflexivity|].
      intros Hb Hsz. rewrite Hc, Hm in Hcur.
      rewrite wrap_small in Hcur by (unfold is_size_t; lia).
      rewrite length_app in Hcur. simpl in Hcur.
      destruct Hcur as [H1 H2]; [lia|lia|]. split; lia.
Qed.

(** X1: [ktask_init_works] never queues past the global limit: it takes one
    unit of [ktask_rlim_cur] and one work item per extra thread, stays
    within [ktask_rlim_max], and leaves both limits as they are. *)
Theorem ktask_init_works_within_limit e w g nodes ctl :
  let kt := ktask_task_init nodes ctl in
  0 < kt_total_size kt → admissible ctl →
  0 <= ktask_rlim_cur g <= ktask_rlim_max g → ktask_rlim_max g < 2 ^ SIZE_WIDTH →
  ∃ nworks works_list g',
    ktask_init_works e w nodes kt g = Some (nworks, works_list, g') ∧
    Z.of_nat (length works_list) = nworks - 1 ∧
    ktask_rlim_cur g' = ktask_rlim_cur g + (nworks - 1) ∧
    ktask_rlim_cur g' <= ktask_rlim_max g' ∧
    ktask_rlim_max g' = ktask_rlim_max g ∧
    ktask_rlim_node_max g' = ktask_rlim_node_max g.
Proof.
  intros kt Hpos [Hmin Hmax] Hcur Hsz.
  destruct (init_works_result e w g nodes ctl Hpos Hmin Hmax)
    as (nworks & works & g' & Hiw & _ & Hlen & _).
  exists nworks, works, g'. split; [exact Hiw|]. split; [lia|].
  unfold ktask_init_works in Hiw.
  destruct (ktask_wq e); simpl in Hiw.
  - destruct (DIV_ROUND_UP _ _) as [c|]; simpl in Hiw; [|discriminate].
    destruct (init_works_loop_limits _ _ _ _ _ _ _ _ _ _ Hiw) as (Hm & Hnm & Hc).
    destruct (Hc Hcur Hsz) as [Hc1 Hc2]. simpl in Hc1.
    rewrite Hm. repeat split; auto; lia.
  - inversion Hiw; subst. simpl. repeat split; auto; lia.
Qed.

Lemma ktask_init_works_within_limit_witness :
  let e := host true in
  let g := rlim_of 5 [2; 3] in
  let nodes := [node 0 8 0; node 100 4 1] in
  let kt := ktask_task_init nodes (range_ctl 4 0) in
  ∃ nworks works_list g',
    ktask_init_works e no_wild nodes kt g = Some (nworks, works_list, g') ∧
    Z.of_nat (length works_list) = nworks - 1 ∧
    ktask_rlim_cur g' = ktask_rlim_cur g + (nworks - 1) ∧
    ktask_rlim_cur g' <= ktask_rlim_max g' ∧
    ktask_rlim_max g' = ktask_rlim_max g ∧
    ktask_rlim_node_max g' = ktask_rlim_node_max g.
Proof.
  intros e g nodes.
  apply (ktask_init_works_within_limit e no_wild g nodes (range_ctl 4 0)).
  - reflexivity.
  - split; vm_compute; discriminate.
  - split; vm_compute; discriminate.
  - reflexivity.
Defined.

(** ** Where the extra threads start *)

Lemma init_works_loop_spread w nodes n : ∀ i nr_works works_list g nr_works' works_list' g',
  0 <= i →
  init_works_loop w nodes n i nr_works works_list g
  = Some (nr_works', works_list', g') →
  ∃ added, works_list' = works_list ++ added ∧
    ∀ k kw, added !! k = Some kw →
      kw_ktask_node_i kw
      = Z.to_nat ((i + Z.of_nat k) mod Z.of_nat (length nodes)) ∧
      ∃ kn, nodes !! kw_ktask_node_i kw = Some kn ∧
        (kw_queue_nid kw = kn_nid kn ∨ kw_queue_nid kw = NUMA_NO_NODE).
Proof.
  induction n as [|n IH]; intros i nr works g nr' works' g' Hi; simpl.
  - intros H; inversion H; subst. exists []. rewrite app_nil_r.
    split; [reflexivity|]. intros k kw Hk. destruct k; discriminate.
  - unfold umod. destruct (Z.of_nat (length nodes) =? 0); simpl; [discriminate|].
    destruct (nodes !! Z.to_nat (i mod Z.of_nat (length nodes))) as [kn|] eqn:Hkn;
      simpl; [|discriminate].
    destruct (try_reserve w (kn_nid kn) g) as [r g1] eqn:Hr.
    destruct (try_reserve_effect _ _ _ _ _ Hr)
      as (_ & _ & [(-> & -> & _)|(q & -> & _ & _ & Hq)]).
    + intros H; inversion H; subst. exists []. rewrite app_nil_r.
      split; [reflexivity|]. intros k kw Hk. destruct k; discriminate.
    + intros H. apply IH in H as (added & -> & Hadded); [|lia].
      exists (ktask_init_work (Z.to_nat (i mod Z.of_nat (length nodes))) q :: added).
      rewrite <- app_assoc. split; [reflexivity|].
      intros [|k] kw Hk; simpl in Hk.
      * inversion Hk; subst kw. simpl. rewrite Z.add_0_r.
        split; [reflexivity|]. exists kn. auto.
      * destruct (Hadded k kw Hk) as (Hni & Hex). split; [|exact Hex].
        rewrite Hni. f_equal. f_equal. lia.
Qed.

(** X2: The extra threads are spread over the descriptors in turn: the work
    item at position [k] of the list starts at descriptor
    [(k + 1) mod nr_nodes], and it is bound to that descriptor's node or
    to no node. *)
Theorem ktask_init_works_spread e w g nodes kt nworks works_list g' k kw :
  ktask_init_works e w nodes kt g = Some (nworks, works_list, g') →
  works_list !! k = Some kw →
  kw_ktask_node_i kw = Z.to_nat ((Z.of_nat k + 1) mod Z.of_nat (length nodes)) ∧
  ∃ kn, nodes !! kw_ktask_node_i kw = Some kn ∧
    (kw_queue_nid kw = kn_nid kn ∨ kw_queue_nid kw = NUMA_NO_NODE).
Proof.
  unfold ktask_init_works. destruct (ktask_wq e); simpl.
  - destruct (DIV_ROUND_UP _ _) as [c|]; simpl; [|discriminate].
    intros Hl Hk.
    apply init_works_loop_spread in Hl as (added & Heq & Hadded); [|lia].
    simpl in Heq. subst added. destruct (Hadded k kw Hk) as (Hni & Hex).
    split; [|exact Hex]. rewrite Hni. f_equal. f_equal. lia.
  - intros H; inversion H; subst. intros Hk. destruct k; discriminate.
Qed.

Lemma ktask_init_works_spread_witness :
  let nodes := [node 0 8 0; node 100 4 1] in
  let kw := ktask_init_work 0 0 in
  kw_ktask_node_i kw = Z.to_nat ((Z.of_nat 1 + 1) mod Z.of_nat (length nodes)) ∧
  ∃ kn, nodes !! kw_ktask_node_i kw = Some kn ∧
    (kw_queue_nid kw = kn_nid kn ∨ kw_queue_nid kw = NUMA_NO_NODE).
Proof.
  intros nodes kw.
  apply (ktask_init_works_spread (host true) no_wild (rlim_of 5 [2; 3]) nodes
           (ktask_task_init nodes (range_ctl 4 0)) 3
           [ktask_init_work 1 1; ktask_init_work 0 0]
           (set_rlim_cur 2 (set_rlim_node_cur [1; 1] (rlim_of 5 [2; 3]))) 1 kw).
  - vm_compute. reflexivity.
  - reflexivity.
Defined.

(** ** When a thread does not migrate *)

Lemma ktask_node_migrate_stays e w on_kthread old_kn kn i kw g :
  CONFIG_NUMA e = false ∨ on_kthread = false ∨
  kn_nid kn = kn_nid old_kn ∨ num_online_nodes e = 1 →
  ktask_node_migrate e w on_kthread old_kn kn i kw g = (None, g).
Proof.
  intros H. unfold ktask_node_migrate.
  assert (negb (CONFIG_NUMA e) || negb on_kthread
          || (kn_nid kn =? kn_nid old_kn) || (num_online_nodes e =? 1) = true) as ->;
    [|reflexivity].
  destruct H as [-> | [-> | [-> | ->]]]; simpl;
    rewrite ?Z.eqb_refl, ?orb_true_r; reflexivity.
Qed.

(** An outcome that is no migration. *)
Definition stays (o : outcome) : Prop :=
  match o with Migrated _ _ => False | _ => True end.

Lemma ktask_thread_iter_stays e c on_kthread g kt kw i o :
  CONFIG_NUMA e = false ∨ on_kthread = false ∨ num_online_nodes e = 1 →
  ktask_thread_iter e c on_kthread g kt kw i = Some o → stays o.
Proof.
  intros Hstay. unfold ktask_thread_iter.
  destruct (_ && _); [|intros H; inversion H; exact I].
  destruct (kt_nodes kt !! i) as [old|]; simpl; [|discriminate].
  destruct (kn_task_size old =? 0); [|intros H; inversion H; exact I].
  destruct (prandom_u32_max c (kt_nr_nodes_left kt)) as [r|]; simpl; [|discriminate].
  destruct (kt_nodes kt !! select_node kt r) as [kn|]; simpl; [|discriminate].
  rewrite ktask_node_migrate_stays by tauto.
  intros H; inversion H. exact I.
Qed.

Lemma settle_stays s kt calls i w o :
  stays o → st_workers s !! i = Some w →
  st_rlim (settle s kt calls i w o) = st_rlim s ∧
  ∃ w', st_workers (settle s kt calls i w o) = <[i := w']> (st_workers s) ∧
        w_kw w' = w_kw w ∧ w_kthread w' = w_kthread w.
Proof.
  destruct o; simpl; intros Hs Hw; try contradiction;
    (split; [reflexivity|]); eexists; split; try reflexivity; simpl; auto.
Qed.

Lemma settle_workers s kt calls i w o :
  ∃ w', st_workers (settle s kt calls i w o) = <[i := w']> (st_workers s).
Proof. destruct o; simpl; eauto. Qed.

(** A thread that is not a kernel thread keeps its work item: a step
    leaves the work item and the thread of such a worker as they are. *)
Lemma step_user_thread e c s s' k w :
  step e c s = Some s' → st_workers s !! k = Some w → w_kthread w = false →
  ∃ w', st_workers s' !! k = Some w' ∧ w_kw w' = w_kw w ∧ w_kthread w' = false.
Proof.
  intros Hstep Hk Hu.
  destruct (step_entry e c s s' Hstep) as (wc & kt & calls & i & o & Hw & He & Ho & ->).
  destruct (decide (c_worker c = k)) as [Heq|Hne].
  - subst k. rewrite Hk in Hw. inversion Hw; subst wc.
    rewrite Hu in Ho.
    pose proof (ktask_thread_iter_stays _ _ _ _ _ _ _ _ ltac:(tauto) Ho) as Hst.
    destruct (settle_stays s kt calls (c_worker c) w o Hst Hk) as (_ & w' & -> & Hkw & Hkt).
    exists w'. rewrite list_lookup_insert_eq by (eapply lookup_lt_Some; eauto).
    rewrite Hkt. auto.
  - destruct (settle_workers s kt calls (c_worker c) wc o) as (w' & ->).
    exists w. rewrite list_lookup_insert_ne by exact Hne. auto.
Qed.

Lemma setup_caller e w g nodes ctl s :
  ktask_run_numa_setup e w g nodes ctl = Some (Running s) →
  ∃ kn w0, nodes !! 0%nat = Some kn ∧ st_workers s !! 0%nat = Some w0 ∧
    w_kw w0 = ktask_init_work 0 (kn_nid kn) ∧ w_kthread w0 = caller_kthread e.
Proof.
  unfold ktask_run_numa_setup.
  destruct (_ =? 0); [discriminate|].
  destruct (ktask_init_works _ _ _ _ _) as [r|]; simpl; [|discriminate].
  destruct (ktask_chunk_size _ _ _) as [chunk|]; simpl; [|discriminate].
  destruct (nodes !! 0%nat) as [kn|]; simpl; [|discriminate].
  intros H; inversion H. simpl. exists kn. eexists.
  split; [reflexivity|]. split; [reflexivity|]. split; reflexivity.
Qed.

(** X3: "Don't migrate a user thread": when [ktask_run_numa] is called from
    a thread that is not a kernel thread, the caller's own work item is
    never queued on a workqueue: in every state of the run, worker 0
    still runs on the caller's thread with the work item it started
    with. *)
Theorem caller_thread_never_migrates e w g nodes ctl cs s :
  caller_kthread e = false →
  reach e w g nodes ctl cs = Some s →
  ∃ kn w0, nodes !! 0%nat = Some kn ∧ st_workers s !! 0%nat = Some w0 ∧
    w_kw w0 = ktask_init_work 0 (kn_nid kn) ∧ w_kthread w0 = false.
Proof.
  intros Hu Hr. destruct (reach_inv _ _ _ _ _ _ _ Hr) as (s0 & Hs0 & Hex).
  destruct (setup_caller _ _ _ _ _ _ Hs0) as (kn & w0 & Hkn & Hw0 & Hkw & Hkt).
  rewrite Hu in Hkt. exists kn. clear Hr Hs0.
  revert s0 w0 Hw0 Hkw Hkt Hex.
  induction cs as [|c cs IH]; intros s0 w0 Hw0 Hkw Hkt; simpl.
  - intros H; inversion H; subst. eauto.
  - destruct (step e c s0) as [s1|] eqn:Hstep; simpl; [|discriminate].
    destruct (step_user_thread e c s0 s1 0%nat w0 Hstep Hw0 Hkt) as (w1 & Hw1 & Hkw1 & Hkt1).
    apply (IH s1 w1 Hw1); congruence.
Qed.

(** A control structure whose iterator is constant, and the state a
    sample run with it reaches after worker 2 has processed its chunk and
    migrated and the caller has claimed one. *)
Definition const_ctl (min_chunk_size max_threads : Z) : ktask_ctl :=
  {| kc_iter_func := λ _ _, 0; kc_min_chunk_size := min_chunk_size;
     kc_max_threads := max_threads |}.

Definition idle_state : state :=
  {| st_kt := ktask_task_init [] (const_ctl 1 0); st_rlim := rlim_of 5 [];
     st_workers := []; st_calls := [] |}.

Definition sample_state : state :=
  Eval vm_compute in
    default idle_state
      (reach (host true) no_wild (rlim_of 5 [1; 4]) [node 0 4 0; node 100 8 1]
         (const_ctl 4 0) [pick 2 0 0; pick 2 0 0; pick 0 0 0]).

Lemma caller_thread_never_migrates_witness :
  ∃ kn w0, [node 0 4 0; node 100 8 1] !! 0%nat = Some kn ∧
    st_workers sample_state !! 0%nat = Some w0 ∧
    w_kw w0 = ktask_init_work 0 (kn_nid kn) ∧ w_kthread w0 = false.
Proof.
  apply (caller_thread_never_migrates (host true) no_wild (rlim_of 5 [1; 4])
           [node 0 4 0; node 100 8 1] (const_ctl 4 0)
           [pick 2 0 0; pick 2 0 0; pick 0 0 0] sample_state).
  - reflexivity.
  - vm_compute. reflexivity.
Defined.

Lemma map_insert_same {A B} (f : A → B) (l : list A) : ∀ i x y,
  l !! i = Some x → f y = f x → map f (<[i := y]> l) = map f l.
Proof.
  induction l as [|a l IH]; intros [|i] x y Hi Hf; simpl in *; try discriminate.
  - inversion Hi; subst. rewrite Hf. reflexivity.
  - rewrite (IH i x y Hi Hf). reflexivity.
Qed.

(** X4: On a host without NUMA, or with a single online node, no work item
    is ever queued again: while the threads run, the resource limits and
    every worker's work item stay as [ktask_run_numa] set them up. *)
Theorem no_numa_no_migration e w g nodes ctl cs s0 s :
  CONFIG_NUMA e = false ∨ num_online_nodes e = 1 →
  reach e w g nodes ctl [] = Some s0 → reach e w g nodes ctl cs = Some s →
  st_rlim s = st_rlim s0 ∧ map w_kw (st_workers s) = map w_kw (st_workers s0).
Proof.
  intros Hhost Hr0 Hr.
  destruct (reach_inv _ _ _ _ _ _ _ Hr0) as (s0' & Hs0 & Hex0).
  simpl in Hex0. inversion Hex0; subst s0'. clear Hex0 Hr0.
  destruct (reach_inv _ _ _ _ _ _ _ Hr) as (s0' & Hs0' & Hex).
  rewrite Hs0 in Hs0'. inversion Hs0'; subst s0'. clear Hs0' Hr Hs0.
  revert s0 Hex. induction cs as [|c cs IH]; intros s0; simpl.
  - intros H; inversion H; auto.
  - destruct (step e c s0) as [s1|] eqn:Hstep; simpl; [|discriminate].
    intros Hex. destruct (IH s1 Hex) as [-> ->]. clear IH Hex.
    destruct (step_entry e c s0 s1 Hstep) as (wc & kt & calls & i & o & Hw & He & Ho & ->).
    assert (stays o) as Hst
      by (eapply ktask_thread_iter_stays; [|exact Ho]; tauto).
    destruct (settle_stays s0 kt calls (c_worker c) wc o Hst Hw) as (-> & w' & -> & Hkw & _).
    split; [reflexivity|]. eapply map_insert_same; eauto.
Qed.

Definition flat_host_start : state :=
  Eval vm_compute in
    default idle_state
      (reach (host false) no_wild (rlim_of 5 [1; 4]) [node 0 4 0; node 100 8 1]
         (const_ctl 4 0) []).

Definition flat_host_state : state :=
  Eval vm_compute in
    default idle_state
      (reach (host false) no_wild (rlim_of 5 [1; 4]) [node 0 4 0; node 100 8 1]
         (const_ctl 4 0) [pick 2 0 0; pick 2 0 0; pick 2 0 0]).

Lemma no_numa_no_migration_witness :
  st_rlim flat_host_state = st_rlim flat_host_start ∧
  map w_kw (st_workers flat_host_state) = map w_kw (st_workers flat_host_start).
Proof.
  apply (no_numa_no_migration (host false) no_wild (rlim_of 5 [1; 4])
           [node 0 4 0; node 100 8 1] (const_ctl 4 0)
           [pick 2 0 0; pick 2 0 0; pick 2 0 0]).
  - left. reflexivity.
  - vm_compute. reflexivity.
  - vm_compute. reflexivity.
Defined.

(** ** Reservations are given back

    The per-node counters always stand at their initial values plus the
    number of work items bound to each node. *)

Definition binds (n : nat) (kw : ktask_work) : Z :=
  if kw_queue_nid kw =? Z.of_nat n then 1 else 0.

Fixpoint bound_to (n : nat) (works : list ktask_work) : Z :=
  match works with
  | [] => 0
  | kw :: rest => binds n kw + bound_to n rest
  end.

Definition accounted (base : list Z) (works : list ktask_work) (cur : list Z) : Prop :=
  length cur = length base ∧
  ∀ n v, base !! n = Some v → cur !! n = Some (v + bound_to n works).

(** Room for one more work item on every node. *)
Definition headroom (base : list Z) (works : nat) : Prop :=
  ∀ n v, base !! n = Some v → 0 <= v ∧ v + Z.of_nat works < 2 ^ SIZE_WIDTH.

Lemma binds_bounds n kw : 0 <= binds n kw <= 1.
Proof. unfold binds. destruct (_ =? _); lia. Qed.

Lemma bound_to_bounds n works : 0 <= bound_to n works <= Z.of_nat (length works).
Proof.
  induction works as [|kw rest IH]; simpl bound_to; simpl length; [lia|].
  pose proof (binds_bounds n kw). lia.
Qed.

Lemma bound_to_app n works more :
  bound_to n (works ++ more) = bound_to n works + bound_to n more.
Proof. induction works as [|kw rest IH]; simpl; [lia|]. rewrite IH. lia. Qed.

Lemma bound_to_insert n works : ∀ k kw kw',
  works !! k = Some kw →
  bound_to n (<[k := kw']> works) = bound_to n works - binds n kw + binds n kw'.
Proof.
  induction works as [|x rest IH]; intros [|k] kw kw' Hk; simpl in *; try discriminate.
  - inversion Hk; subst. lia.
  - rewrite (IH k kw kw' Hk). lia.
Qed.

Lemma bound_to_member n works k kw :
  works !! k = Some kw → binds n kw <= bound_to n works.
Proof.
  revert k. induction works as [|x rest IH]; intros [|k] Hk; simpl in *; try discriminate.
  - inversion Hk; subst. pose proof (bound_to_bounds n rest). lia.
  - pose proof (IH k Hk). pose proof (binds_bounds n x). lia.
Qed.

Lemma binds_no_node n i : binds n (ktask_init_work i NUMA_NO_NODE) = 0.
Proof.
  unfold binds, ktask_init_work. cbn [kw_queue_nid].
  destruct (Z.eqb_spec NUMA_NO_NODE (Z.of_nat n)); [|reflexivity].
  unfold NUMA_NO_NODE in *. lia.
Qed.

Lemma binds_outside (cur : list Z) n kw :
  in_array cur (kw_queue_nid kw) = false → (n < length cur)%nat → binds n kw = 0.
Proof.
  unfold in_array, binds. intros Ho Hn.
  destruct (Z.eqb_spec (kw_queue_nid kw) (Z.of_nat n)) as [Heq|]; [|reflexivity].
  rewrite Heq in Ho. apply andb_false_iff in Ho as [Ho|Ho].
  - apply Z.leb_gt in Ho. lia.
  - apply Z.ltb_ge in Ho. lia.
Qed.

Lemma binds_at (cur : list Z) n kw :
  in_array cur (kw_queue_nid kw) = true →
  binds n kw = if decide (n = Z.to_nat (kw_queue_nid kw)) then 1 else 0.
Proof.
  unfold in_array, binds. intros Hi. apply andb_true_iff in Hi as [H0 _].
  apply Z.leb_le in H0.
  destruct (Z.eqb_spec (kw_queue_nid kw) (Z.of_nat n)), (decide _); lia.
Qed.

(** The counters after a decrement, an increment, a load. *)
Lemma node_cur_decr_cur w i g :
  ktask_rlim_node_cur (node_cur_decr w i g).2
  = (if in_array (ktask_rlim_node_cur g) i
     then <[Z.to_nat i := wrap (default 0 (ktask_rlim_node_cur g !! Z.to_nat i) - 1)]>
            (ktask_rlim_node_cur g)
     else ktask_rlim_node_cur g) ∧
  ktask_rlim_cur (node_cur_decr w i g).2 = ktask_rlim_cur g ∧
  ktask_rlim_max (node_cur_decr w i g).2 = ktask_rlim_max g ∧
  ktask_rlim_node_max (node_cur_decr w i g).2 = ktask_rlim_node_max g.
Proof.
  gov_unfold. destruct (in_array (ktask_rlim_node_cur g) i) eqn:Hi; simpl;
    rewrite Hi; simpl; auto.
Qed.

Lemma node_cur_incr_cur w i g :
  ktask_rlim_node_cur (node_cur_incr w i g).2
  = (if in_array (ktask_rlim_node_cur g) i
     then <[Z.to_nat i := wrap (default 0 (ktask_rlim_node_cur g !! Z.to_nat i) + 1)]>
            (ktask_rlim_node_cur g)
     else ktask_rlim_node_cur g) ∧
  ktask_rlim_cur (node_cur_incr w i g).2 = ktask_rlim_cur g ∧
  ktask_rlim_max (node_cur_incr w i g).2 = ktask_rlim_max g ∧
  ktask_rlim_node_max (node_cur_incr w i g).2 = ktask_rlim_node_max g.
Proof.
  gov_unfold. destruct (in_array (ktask_rlim_node_cur g) i) eqn:Hi; simpl;
    rewrite Hi; simpl; auto.
Qed.

Lemma node_get_same w i g :
  ktask_rlim_node_cur (node_cur_get w i g).2 = ktask_rlim_node_cur g ∧
  ktask_rlim_node_cur (node_max_get w i g).2 = ktask_rlim_node_cur g.
Proof.
  gov_unfold. destruct (in_array (ktask_rlim_node_cur g) i),
    (in_array (ktask_rlim_node_max g) i); simpl; auto.
Qed.

(** Unbinding the work item at position [k]: the decrement in
    [ktask_node_migrate] and in [ktask_fini_works]. *)
Lemma accounted_unbind base works w g k kw j :
  accounted base works (ktask_rlim_node_cur g) → headroom base (length works) →
  works !! k = Some kw →
  accounted base (<[k := ktask_init_work j NUMA_NO_NODE]> works)
    (ktask_rlim_node_cur
       (if kw_queue_nid kw =? NUMA_NO_NODE then ((), g)
        else node_cur_decr w (kw_queue_nid kw) g).2).
Proof.
  intros [Hlen Hacc] Hroom Hk.
  assert (∀ n, bound_to n (<[k := ktask_init_work j NUMA_NO_NODE]> works)
               = bound_to n works - binds n kw) as Hb
    by (intros n; rewrite (bound_to_insert n works k kw _ Hk), binds_no_node; lia).
  destruct (Z.eqb_spec (kw_queue_nid kw) NUMA_NO_NODE) as [Hq|Hq]; simpl.
  - split; [exact Hlen|]. intros n v Hn. rewrite Hb, (Hacc n v Hn).
    unfold binds. rewrite Hq.
    destruct (Z.eqb_spec NUMA_NO_NODE (Z.of_nat n)); [unfold NUMA_NO_NODE in *; lia|].
    f_equal. lia.
  - destruct (node_cur_decr_cur w (kw_queue_nid kw) g) as (-> & _).
    destruct (in_array (ktask_rlim_node_cur g) (kw_queue_nid kw)) eqn:Hin.
    + split; [rewrite length_insert; exact Hlen|]. intros n v Hn.
      rewrite Hb, (binds_at _ n kw Hin).
      destruct (decide (n = Z.to_nat (kw_queue_nid kw))) as [->|Hne].
      * rewrite list_lookup_insert_eq
          by (rewrite Hlen; eapply lookup_lt_Some; eauto).
        rewrite (Hacc _ v Hn). simpl. f_equal.
        pose proof (bound_to_member (Z.to_nat (kw_queue_nid kw)) works k kw Hk) as Hm.
        rewrite (binds_at _ _ kw Hin) in Hm.
        destruct (decide _) in Hm; [|congruence].
        pose proof (bound_to_bounds (Z.to_nat (kw_queue_nid kw)) works).
        destruct (Hroom _ v Hn). rewrite wrap_small by (unfold is_size_t; lia). lia.
      * rewrite list_lookup_insert_ne by congruence.
        rewrite (Hacc n v Hn). f_equal. lia.
    + split; [exact Hlen|]. intros n v Hn. rewrite Hb, (Hacc n v Hn).
      rewrite (binds_outside _ n kw Hin)
        by (rewrite Hlen; eapply lookup_lt_Some; eauto).
      f_equal. lia.
Qed.

(** Binding the unbound work item at position [k] to node [nid]: the
    increment in [ktask_init_works] and in [ktask_node_migrate]. *)
Lemma accounted_bind base works w g k kw j nid :
  accounted base works (ktask_rlim_node_cur g) → headroom base (length works) →
  works !! k = Some kw → kw_queue_nid kw = NUMA_NO_NODE →
  accounted base (<[k := ktask_init_work j nid]> works)
    (ktask_rlim_node_cur (node_cur_incr w nid g).2).
Proof.
  intros [Hlen Hacc] Hroom Hk Hq.
  assert (binds_zero : ∀ n, binds n kw = 0).
  { intros n. unfold binds. rewrite Hq.
    destruct (Z.eqb_spec NUMA_NO_NODE (Z.of_nat n)); [unfold NUMA_NO_NODE in *; lia|].
    reflexivity. }
  assert (∀ n, bound_to n (<[k := ktask_init_work j nid]> works)
               = bound_to n works + binds n (ktask_init_work j nid)) as Hb
    by (intros n; rewrite (bound_to_insert n works k kw _ Hk), binds_zero; lia).
  destruct (node_cur_incr_cur w nid g) as (-> & _).
  destruct (in_array (ktask_rlim_node_cur g) nid) eqn:Hin.
  - split; [rewrite length_insert; exact Hlen|]. intros n v Hn.
    rewrite Hb, (binds_at (ktask_rlim_node_cur g) n (ktask_init_work j nid) Hin).
    simpl. destruct (decide (n = Z.to_nat nid)) as [->|Hne].
    + rewrite list_lookup_insert_eq
        by (rewrite Hlen; eapply lookup_lt_Some; eauto).
      rewrite (Hacc _ v Hn). simpl. f_equal.
      pose proof (bound_to_insert (Z.to_nat nid) works k kw
                    (ktask_init_work j NUMA_NO_NODE) Hk) as Hins.
      pose proof (bound_to_bounds (Z.to_nat nid)
                    (<[k := ktask_init_work j nid]> works)) as Hbb.
      rewrite length_insert, Hb in Hbb.
      rewrite (binds_at (ktask_rlim_node_cur g) _ (ktask_init_work j nid) Hin) in Hbb.
      simpl in Hbb. destruct (decide _) in Hbb; [|congruence].
      pose proof (bound_to_bounds (Z.to_nat nid) works).
      destruct (Hroom _ v Hn). rewrite wrap_small by (unfold is_size_t; lia). lia.
    + rewrite list_lookup_insert_ne by congruence.
      rewrite (Hacc n v Hn). f_equal. lia.
  - split; [exact Hlen|]. intros n v Hn. rewrite Hb, (Hacc n v Hn).
    rewrite (binds_outside (ktask_rlim_node_cur g) n (ktask_init_work j nid) Hin)
      by (rewrite Hlen; eapply lookup_lt_Some; eauto).
    f_equal. lia.
Qed.

Lemma accounted_drop base kw works cur :
  kw_queue_nid kw = NUMA_NO_NODE →
  accounted base (kw :: works) cur → accounted base works cur.
Proof.
  intros Hq [Hlen Hacc]. split; [exact Hlen|]. intros n v Hn.
  rewrite (Hacc n v Hn). simpl. unfold binds. rewrite Hq.
  destruct (Z.eqb_spec NUMA_NO_NODE (Z.of_nat n)); [unfold NUMA_NO_NODE in *; lia|].
  f_equal.
Qed.

Lemma accounted_snoc base works cur i :
  accounted base works cur →
  accounted base (works ++ [ktask_init_work i NUMA_NO_NODE]) cur.
Proof.
  intros [Hlen Hacc]. split; [exact Hlen|]. intros n v Hn.
  rewrite (Hacc n v Hn), bound_to_app. simpl. rewrite binds_no_node. f_equal. lia.
Qed.

Lemma accounted_nil base cur : accounted base [] cur → cur = base.
Proof.
  intros [Hlen Hacc]. apply list_eq. intros n.
  destruct (base !! n) as [v|] eqn:Hn.
  - rewrite (Hacc n v Hn). simpl. f_equal. lia.
  - apply lookup_ge_None in Hn. apply lookup_ge_None. lia.
Qed.

Lemma headroom_le base n m : (n <= m)%nat → headroom base m → headroom base n.
Proof. intros Hnm Hm k v Hk. destruct (Hm k v Hk). split; lia. Qed.

(** What [reserve_node] does to the counters. *)
Lemma reserve_node_cases w nid g :
  let r := reserve_node w nid g in
  ((r.1 = NUMA_NO_NODE ∧ ktask_rlim_node_cur r.2 = ktask_rlim_node_cur g) ∨
   (r.1 = nid ∧ ∃ g2, ktask_rlim_node_cur g2 = ktask_rlim_node_cur g ∧
      ktask_rlim_node_cur r.2 = ktask_rlim_node_cur (node_cur_incr w nid g2).2)).
Proof.
  unfold reserve_node. destruct (nid =? NUMA_NO_NODE); [left; split; reflexivity|].
  unfold mbind, gov_bind, mret, gov_ret. simpl.
  set (g1 := (node_cur_get w nid g).2).
  set (g2 := (node_max_get w nid g1).2).
  assert (ktask_rlim_node_cur g2 = ktask_rlim_node_cur g) as H2.
  { subst g2 g1. rewrite (proj2 (node_get_same w nid _)).
    apply (proj1 (node_get_same w nid g)). }
  destruct (_ <? _); simpl.
  - right. split; [reflexivity|]. exists g2. auto.
  - left. auto.
Qed.

(** The second half of [re_pin], from the test of the new node on. *)
Lemma re_pin_bind_cases w queue_nid nid g1 :
  let r := (if nid =? NUMA_NO_NODE then mret NUMA_NO_NODE
            else
              cur ← node_cur_get w queue_nid;
              max ← node_max_get w queue_nid;
              if cur <? max then node_cur_incr w nid;; mret nid
              else mret NUMA_NO_NODE) g1 in
  ktask_rlim_cur r.2 = ktask_rlim_cur g1 ∧ ktask_rlim_max r.2 = ktask_rlim_max g1 ∧
  ktask_rlim_node_max r.2 = ktask_rlim_node_max g1 ∧
  ((r.1 = NUMA_NO_NODE ∧ ktask_rlim_node_cur r.2 = ktask_rlim_node_cur g1) ∨
   (r.1 = nid ∧ ∃ g2, ktask_rlim_node_cur g2 = ktask_rlim_node_cur g1 ∧
      ktask_rlim_node_cur r.2 = ktask_rlim_node_cur (node_cur_incr w nid g2).2)).
Proof.
  destruct (nid =? NUMA_NO_NODE); [simpl; repeat split; auto|].
  unfold mbind, gov_bind, mret, gov_ret. cbv zeta. cbn [fst snd].
  set (ga := (node_cur_get w queue_nid g1).2).
  set (gb := (node_max_get w queue_nid ga).2).
  assert (ktask_rlim_node_cur gb = ktask_rlim_node_cur g1 ∧
          ktask_rlim_cur gb = ktask_rlim_cur g1 ∧
          ktask_rlim_max gb = ktask_rlim_max g1 ∧
          ktask_rlim_node_max gb = ktask_rlim_node_max g1) as (Hb1 & Hb2 & Hb3 & Hb4).
  { subst gb ga. unfold node_cur_get, node_max_get.
    destruct (in_array (ktask_rlim_node_cur g1) queue_nid); simpl;
      destruct (in_array (ktask_rlim_node_max g1) queue_nid); simpl; auto. }
  clearbody gb.
  destruct (_ <? _); cbn [fst snd].
  - destruct (node_cur_incr_cur w nid gb) as (_ & -> & -> & ->).
    repeat split; auto. right. split; [reflexivity|]. exists gb. auto.
  - repeat split; auto.
Qed.

(** What [re_pin] does to the counters and the limits. *)
Lemma re_pin_cases w queue_nid nid g :
  let r := re_pin w queue_nid nid g in
  let g1 := (if queue_nid =? NUMA_NO_NODE then ((), g)
             else node_cur_decr w queue_nid g).2 in
  ktask_rlim_cur r.2 = ktask_rlim_cur g ∧ ktask_rlim_max r.2 = ktask_rlim_max g ∧
  ktask_rlim_node_max r.2 = ktask_rlim_node_max g ∧
  ((r.1 = NUMA_NO_NODE ∧ ktask_rlim_node_cur r.2 = ktask_rlim_node_cur g1) ∨
   (r.1 = nid ∧ ∃ g2, ktask_rlim_node_cur g2 = ktask_rlim_node_cur g1 ∧
      ktask_rlim_node_cur r.2 = ktask_rlim_node_cur (node_cur_incr w nid g2).2)).
Proof.
  intros r g1.
  assert (ktask_rlim_cur g1 = ktask_rlim_cur g ∧
          ktask_rlim_max g1 = ktask_rlim_max g ∧
          ktask_rlim_node_max g1 = ktask_rlim_node_max g) as (Hc & Hm & Hnm).
  { subst g1. destruct (queue_nid =? NUMA_NO_NODE); [simpl; auto|].
    destruct (node_cur_decr_cur w queue_nid g) as (_ & ? & ? & ?). auto. }
  pose proof (re_pin_bind_cases w queue_nid nid g1) as H.
  assert (r = (if nid =? NUMA_NO_NODE then mret NUMA_NO_NODE
            else
              cur ← node_cur_get w queue_nid;
              max ← node_max_get w queue_nid;
              if cur <? max then node_cur_incr w nid;; mret nid
              else mret NUMA_NO_NODE) g1) as Hr.
  { subst r g1. unfold re_pin. unfold mbind at 1. unfold gov_bind at 1.
    destruct (queue_nid =? NUMA_NO_NODE); reflexivity. }
  rewrite <- Hr in H. cbv zeta in H. rewrite Hc, Hm, Hnm in H. exact H.
Qed.

Lemma accounted_re_pin base works w g k kw j nid :
  accounted base works (ktask_rlim_node_cur g) → headroom base (length works) →
  works !! k = Some kw →
  let r := re_pin w (kw_queue_nid kw) nid g in
  accounted base (<[k := ktask_init_work j r.1]> works) (ktask_rlim_node_cur r.2).
Proof.
  intros Hacc Hroom Hk r.
  pose proof (accounted_unbind base works w g k kw j Hacc Hroom Hk) as H1.
  destruct (re_pin_cases w (kw_queue_nid kw) nid g) as (_ & _ & _ & Hcases).
  fold r in Hcases.
  destruct Hcases as [(-> & ->)|(-> & g2 & Hg2 & ->)]; [exact H1|].
  rewrite <- Hg2 in H1.
  pose proof (accounted_bind base _ w g2 k (ktask_init_work j NUMA_NO_NODE) j nid H1)
    as H2.
  rewrite length_insert, list_insert_insert_eq in H2. apply H2.
  - exact Hroom.
  - apply list_lookup_insert_eq. eapply lookup_lt_Some; eauto.
  - reflexivity.
Qed.

Lemma accounted_reserve base works w g i nid :
  accounted base works (ktask_rlim_node_cur g) → headroom base (S (length works)) →
  let r := reserve_node w nid g in
  accounted base (works ++ [ktask_init_work i r.1]) (ktask_rlim_node_cur r.2).
Proof.
  intros Hacc Hroom r.
  pose proof (accounted_snoc base works _ i Hacc) as H1.
  destruct (reserve_node_cases w nid g) as [(Hq & Hc)|(Hq & g2 & Hg2 & Hc)];
    fold r in Hq, Hc; rewrite Hq, Hc; [exact H1|].
  rewrite <- Hg2 in H1.
  pose proof (accounted_bind base _ w g2 (length works)
                (ktask_init_work i NUMA_NO_NODE) i nid H1) as H2.
  rewrite length_app in H2. simpl in H2.
  replace (<[length works := ktask_init_work i nid]>
             (works ++ [ktask_init_work i NUMA_NO_NODE]))
    with (works ++ [ktask_init_work i nid]) in H2.
  - apply H2; [|apply list_lookup_middle; reflexivity|reflexivity].
    replace (length works + 1)%nat with (S (length works)) by lia. exact Hroom.
  - symmetry. rewrite <- (Nat.add_0_r (length works)) at 1.
    rewrite insert_app_r. reflexivity.
Qed.

Lemma init_works_loop_accounted base w nodes n : ∀ i nr_works works_list g nr_works' works_list' g',
  accounted base works_list (ktask_rlim_node_cur g) →
  0 <= ktask_rlim_cur g <= ktask_rlim_max g → ktask_rlim_max g < 2 ^ SIZE_WIDTH →
  headroom base (length works_list
                 + Z.to_nat (ktask_rlim_max g - ktask_rlim_cur g)) →
  init_works_loop w nodes n i nr_works works_list g
  = Some (nr_works', works_list', g') →
  accounted base works_list' (ktask_rlim_node_cur g') ∧
  headroom base (length works_list').
Proof.
  induction n as [|n IH]; intros i nr works g nr' works' g' Hacc Hcur Hsz Hroom; simpl.
  - intros H; inversion H; subst. split; [exact Hacc|].
    eapply headroom_le; [|exact Hroom]. lia.
  - destruct (umod i (Z.of_nat (length nodes))) as [ni|]; simpl; [|discriminate].
    destruct (nodes !! Z.to_nat ni) as [kn|]; simpl; [|discriminate].
    unfold try_reserve.
    destruct (Z.eqb_spec (ktask_rlim_cur g) (ktask_rlim_max g)) as [Heq|Hne].
    + intros H; inversion H; subst. split; [exact Hacc|].
      eapply headroom_le; [|exact Hroom]. lia.
    + unfold mbind, gov_bind, mret, gov_ret, rlim_cur_incr. simpl.
      destruct (reserve_node_limits w (kn_nid kn) g) as (Hc & Hm & _).
      intros H. apply IH in H; [exact H| | | |]; simpl.
      * apply accounted_reserve; [exact Hacc|].
        eapply headroom_le; [|exact Hroom]. lia.
      * rewrite Hc, Hm, wrap_small by (unfold is_size_t; lia). lia.
      * rewrite Hm. exact Hsz.
      * rewrite Hc, Hm, wrap_small by (unfold is_size_t; lia).
        rewrite length_app. simpl.
        eapply headroom_le; [|exact Hroom]. lia.
Qed.

Lemma ktask_fini_works_accounted base w : ∀ works g,
  accounted base works (ktask_rlim_node_cur g) → headroom base (length works) →
  Z.of_nat (length works) <= ktask_rlim_cur g < 2 ^ SIZE_WIDTH →
  let g' := (ktask_fini_works w works g).2 in
  ktask_rlim_node_cur g' = base ∧
  ktask_rlim_cur g' = ktask_rlim_cur g - Z.of_nat (length works) ∧
  ktask_rlim_max g' = ktask_rlim_max g ∧
  ktask_rlim_node_max g' = ktask_rlim_node_max g.
Proof.
  induction works as [|kw rest IH]; intros g Hacc Hroom Hcur; simpl.
  - split; [apply accounted_nil; exact Hacc|]. repeat split; lia.
  - unfold mbind, gov_bind, release, rlim_cur_decr. simpl.
    unfold mbind, gov_bind. simpl.
    set (g1 := (if kw_queue_nid kw =? NUMA_NO_NODE then mret ()
                else node_cur_decr w (kw_queue_nid kw)) g).
    assert (g1 = (if kw_queue_nid kw =? NUMA_NO_NODE then ((), g)
                  else node_cur_decr w (kw_queue_nid kw) g)) as Hg1
      by (subst g1; destruct (kw_queue_nid kw =? NUMA_NO_NODE); reflexivity).
    clearbody g1.
    assert (ktask_rlim_cur g1.2 = ktask_rlim_cur g ∧
            ktask_rlim_max g1.2 = ktask_rlim_max g ∧
            ktask_rlim_node_max g1.2 = ktask_rlim_node_max g) as (Hc & Hm & Hnm).
    { rewrite Hg1. destruct (kw_queue_nid kw =? NUMA_NO_NODE); [simpl; auto|].
      destruct (node_cur_decr_cur w (kw_queue_nid kw) g) as (_ & ? & ? & ?). auto. }
    pose proof (accounted_unbind base (kw :: rest) w g 0 kw 0 Hacc Hroom eq_refl) as H1.
    rewrite <- Hg1 in H1. simpl in H1.
    apply accounted_drop in H1; [|reflexivity].
    simpl in Hcur.
    destruct (IH (set_rlim_cur (wrap (ktask_rlim_cur g1.2 - 1)) g1.2))
      as (-> & -> & -> & ->); simpl.
    + exact H1.
    + eapply headroom_le; [|exact Hroom]. simpl. lia.
    + rewrite Hc, wrap_small by (unfold is_size_t; lia). lia.
    + rewrite Hc, Hm, Hnm, wrap_small by (unfold is_size_t; lia).
      repeat split; lia.
Qed.

Lemma accounted_refl base : accounted base [] base.
Proof.
  split; [reflexivity|]. intros n v Hn. rewrite Hn. simpl. f_equal. lia.
Qed.

(** A migration happens only on a kernel thread of a NUMA host with
    several nodes, and its effect on the limits is that of [re_pin]. *)
Lemma ktask_thread_iter_migrated e c on_kthread g kt kw i kw' g' :
  ktask_thread_iter e c on_kthread g kt kw i = Some (Migrated kw' g') →
  CONFIG_NUMA e = true ∧ on_kthread = true ∧ num_online_nodes e ≠ 1 ∧
  ∃ nid j, kw' = ktask_init_work j (re_pin (c_wild c) (kw_queue_nid kw) nid g).1 ∧
           g' = (re_pin (c_wild c) (kw_queue_nid kw) nid g).2.
Proof.
  unfold ktask_thread_iter.
  destruct (_ && _); [|discriminate].
  destruct (kt_nodes kt !! i) as [old|]; simpl; [|discriminate].
  destruct (kn_task_size old =? 0); [|discriminate].
  destruct (prandom_u32_max c (kt_nr_nodes_left kt)) as [r|]; simpl; [|discriminate].
  destruct (kt_nodes kt !! select_node kt r) as [kn|]; simpl; [|discriminate].
  unfold ktask_node_migrate.
  destruct (CONFIG_NUMA e); simpl; [|discriminate].
  destruct on_kthread; simpl; [|discriminate].
  destruct (kn_nid kn =? kn_nid old); simpl; [discriminate|].
  destruct (Z.eqb_spec (num_online_nodes e) 1) as [|Hn]; [discriminate|].
  unfold mbind, gov_bind, mret, gov_ret. simpl.
  intros H; inversion H; subst.
  repeat split; auto. eauto.
Qed.

(** The books of the resource limits while a run is under way: against
    the limits [g] the run started from, each queued work item accounts
    for one unit of the global counter and, when it is bound to a node,
    for one unit of that node's counter; the caller's own work item
    accounts for nothing, and it cannot migrate. *)
Record books (e : env) (g : rlim) (s : state) : Prop := {
  bk_acc : accounted (ktask_rlim_node_cur g) (map w_kw (tail (st_workers s)))
             (ktask_rlim_node_cur (st_rlim s));
  bk_room : headroom (ktask_rlim_node_cur g) (length (tail (st_workers s)));
  bk_cur : ktask_rlim_cur (st_rlim s)
           = ktask_rlim_cur g + Z.of_nat (length (tail (st_workers s)));
  bk_le : ktask_rlim_cur (st_rlim s) <= ktask_rlim_max g;
  bk_max : ktask_rlim_max (st_rlim s) = ktask_rlim_max g;
  bk_node_max : ktask_rlim_node_max (st_rlim s) = ktask_rlim_node_max g;
  bk_caller : ∃ w0, st_workers s !! 0%nat = Some w0 ∧
                (CONFIG_NUMA e = false ∨ w_kthread w0 = false ∨
                 num_online_nodes e = 1);
}.

Lemma map_insert {A B} (f : A → B) (l : list A) : ∀ i y,
  map f (<[i := y]> l) = <[i := f y]> (map f l).
Proof.
  induction l as [|a l IH]; intros [|i] y; simpl; try reflexivity.
  rewrite IH. reflexivity.
Qed.

Lemma step_books e g c s s' :
  books e g s → step e c s = Some s' → books e g s'.
Proof.
  intros [Hacc Hroom Hcur Hle Hmax Hnmax (w0 & Hw0 & Hflag)] Hstep.
  destruct (step_entry e c s s' Hstep) as (wc & kt & calls & i & o & Hw & He & Ho & ->).
  destruct (st_workers s) as [|w0' rest] eqn:Hws; [discriminate|].
  simpl in Hw0. inversion Hw0; subst w0'. simpl in Hacc, Hroom, Hcur.
  assert (stays o ∨ ∃ kw' g', o = Migrated kw' g') as [Hst|(kw' & g' & ->)]
    by (destruct o; simpl; eauto).
  - destruct (settle_stays s kt calls (c_worker c) wc o Hst) as (Hr & w' & Hws' & Hkw & Hkt);
      [rewrite Hws; exact Hw|].
    rewrite Hws in Hws'.
    destruct (c_worker c) as [|k]; simpl in Hws', Hw.
    + inversion Hw; subst wc.
      split; rewrite ?Hr, ?Hws'; simpl; auto.
      exists w'. split; [reflexivity|]. rewrite Hkt. exact Hflag.
    + split; rewrite ?Hr, ?Hws'; simpl; rewrite ?length_insert; auto.
      * rewrite (map_insert_same w_kw rest k wc w' Hw Hkw). exact Hacc.
      * exists w0. auto.
  - apply ktask_thread_iter_migrated in Ho as (Hnuma & Hkt & Hn & nid & j & -> & ->).
    destruct (c_worker c) as [|k]; simpl in Hw.
    + inversion Hw; subst wc. exfalso. destruct Hflag as [?|[?|?]]; congruence.
    + destruct (re_pin_cases (c_wild c) (kw_queue_nid (w_kw wc)) nid (st_rlim s))
        as (Hc' & Hm' & Hnm' & _).
      split; simpl; rewrite ?Hws; simpl; rewrite ?length_insert.
      * rewrite map_insert. cbn [w_kw].
        apply accounted_re_pin; [exact Hacc|rewrite length_map; exact Hroom|].
        rewrite list_lookup_fmap_Some. eauto.
      * exact Hroom.
      * rewrite Hc'. exact Hcur.
      * rewrite Hc'. exact Hle.
      * rewrite Hm'. exact Hmax.
      * rewrite Hnm'. exact Hnmax.
      * exists w0. auto.
Qed.

Lemma exec_books e g cs : ∀ s s',
  books e g s → exec e cs s = Some s' → books e g s'.
Proof.
  induction cs as [|c cs IH]; intros s s' Hb; simpl.
  - intros H; inversion H; subst; exact Hb.
  - destruct (step e c s) as [s1|] eqn:Hstep; simpl; [|discriminate].
    apply IH. eapply step_books; eauto.
Qed.

Lemma ktask_init_works_books e w nodes kt g nworks works_list g' :
  0 <= ktask_rlim_cur g <= ktask_rlim_max g → ktask_rlim_max g < 2 ^ SIZE_WIDTH →
  Forall (λ v, 0 <= v ∧ v + ktask_rlim_max g < 2 ^ SIZE_WIDTH)
    (ktask_rlim_node_cur g) →
  ktask_init_works e w nodes kt g = Some (nworks, works_list, g') →
  accounted (ktask_rlim_node_cur g) works_list (ktask_rlim_node_cur g') ∧
  headroom (ktask_rlim_node_cur g) (length works_list) ∧
  ktask_rlim_cur g' = ktask_rlim_cur g + Z.of_nat (length works_list) ∧
  ktask_rlim_cur g' <= ktask_rlim_max g ∧
  ktask_rlim_max g' = ktask_rlim_max g ∧
  ktask_rlim_node_max g' = ktask_rlim_node_max g.
Proof.
  intros Hcur Hsz Hnodes. unfold ktask_init_works.
  assert (∀ n, (Z.of_nat n <= ktask_rlim_max g - ktask_rlim_cur g) →
               headroom (ktask_rlim_node_cur g) n) as Hroom.
  { intros n Hn k v Hk. rewrite Forall_lookup in Hnodes.
    destruct (Hnodes k v Hk). split; lia. }
  destruct (ktask_wq e); simpl.
  - destruct (DIV_ROUND_UP _ _) as [c|]; simpl; [|discriminate]. intros Hiw.
    destruct (init_works_loop_limits _ _ _ _ _ _ _ _ _ _ Hiw) as (Hm & Hnm & Hc).
    destruct (Hc Hcur Hsz) as [Hc1 Hc2]. simpl in Hc1.
    apply init_works_loop_accounted with (base := ktask_rlim_node_cur g) in Hiw
      as [Hacc Hr]; auto.
    + split; [exact Hacc|]. split; [exact Hr|].
      split; [lia|]. split; [lia|]. split; assumption.
    + apply accounted_refl.
    + simpl. apply Hroom. lia.
  - intros H; inversion H; subst. simpl.
    split; [apply accounted_refl|]. split; [apply Hroom; simpl; lia|].
    repeat split; auto; lia.
Qed.

Lemma setup_books e w g nodes ctl s :
  caller_kthread e = false ∨ CONFIG_NUMA e = false ∨ num_online_nodes e = 1 →
  0 <= ktask_rlim_cur g <= ktask_rlim_max g → ktask_rlim_max g < 2 ^ SIZE_WIDTH →
  Forall (λ v, 0 <= v ∧ v + ktask_rlim_max g < 2 ^ SIZE_WIDTH)
    (ktask_rlim_node_cur g) →
  ktask_run_numa_setup e w g nodes ctl = Some (Running s) → books e g s.
Proof.
  intros Hflag Hcur Hsz Hnodes. unfold ktask_run_numa_setup.
  destruct (_ =? 0); [discriminate|].
  destruct (ktask_init_works _ _ _ _ _) as [[[nworks works] g']|] eqn:Hiw; simpl;
    [|discriminate].
  destruct (ktask_init_works_books _ _ _ _ _ _ _ _ Hcur Hsz Hnodes Hiw)
    as (Hacc & Hroom & Hc & Hle & Hm & Hnm).
  destruct (ktask_chunk_size _ _ _) as [chunk|]; simpl; [|discriminate].
  destruct (nodes !! 0%nat) as [kn|]; simpl; [|discriminate].
  intros H; inversion H; subst s; clear H.
  split; simpl; rewrite ?length_map; auto.
  - rewrite map_map. simpl. rewrite map_id. exact Hacc.
  - eexists. split; [reflexivity|]. simpl. tauto.
Qed.

(** X5: [ktask_run_numa] gives back what it takes.  When the caller is not a
    kernel thread, or the host has no NUMA or a single node, every
    completed run leaves the four resource limits exactly as it found
    them, whatever the schedule, the migrations and the callback's
    results were: every unit of [ktask_rlim_cur] and of
    [ktask_rlim_node_cur] taken by [ktask_init_works] or moved by
    [ktask_node_migrate] has been returned by [ktask_fini_works]. *)
Theorem ktask_run_numa_restores_limits e w g nodes ctl cs status g' calls :
  caller_kthread e = false ∨ CONFIG_NUMA e = false ∨ num_online_nodes e = 1 →
  0 <= ktask_rlim_cur g <= ktask_rlim_max g → ktask_rlim_max g < 2 ^ SIZE_WIDTH →
  Forall (λ v, 0 <= v ∧ v + ktask_rlim_max g < 2 ^ SIZE_WIDTH)
    (ktask_rlim_node_cur g) →
  ktask_run_numa e w g nodes ctl cs = Some (status, g', calls) →
  ktask_rlim_cur g' = ktask_rlim_cur g ∧
  ktask_rlim_node_cur g' = ktask_rlim_node_cur g ∧
  ktask_rlim_max g' = ktask_rlim_max g ∧
  ktask_rlim_node_max g' = ktask_rlim_node_max g.
Proof.
  intros Hflag Hcur Hsz Hnodes Hrun.
  destruct (ktask_run_numa_inv _ _ _ _ _ _ _ _ _ Hrun)
    as [(_ & _ & -> & _)|(s & Hr & _ & _ & _ & ->)]; [auto|].
  destruct (reach_inv _ _ _ _ _ _ _ Hr) as (s0 & Hs0 & Hex).
  pose proof (setup_books _ _ _ _ _ _ Hflag Hcur Hsz Hnodes Hs0) as Hb0.
  destruct (exec_books _ _ _ _ _ Hb0 Hex) as [Hacc Hroom Hc Hle Hm Hnm _].
  destruct (ktask_fini_works_accounted (ktask_rlim_node_cur g) w
              (map w_kw (tail (st_workers s))) (st_rlim s))
    as (H1 & H2 & H3 & H4).
  - exact Hacc.
  - rewrite length_map. exact Hroom.
  - rewrite length_map. lia.
  - rewrite H1, H2, H3, H4, length_map. repeat split; auto. lia.
Qed.

Lemma ktask_run_numa_restores_limits_witness :
  let g := rlim_of 5 [2; 3] in
  let g' := rlim_of 5 [2; 3] in
  ktask_rlim_cur g' = ktask_rlim_cur g ∧
  ktask_rlim_node_cur g' = ktask_rlim_node_cur g ∧
  ktask_rlim_max g' = ktask_rlim_max g ∧
  ktask_rlim_node_max g' = ktask_rlim_node_max g.
Proof.
  intros g g'.
  apply (ktask_run_numa_restores_limits (host true) no_wild g
           [node 0 4 0; node 100 8 1] (range_ctl 4 0)
           [pick 2 0 0; pick 2 0 0; pick 2 0 0; pick 1 0 0; pick 0 0 0;
            pick 1 0 0; pick 2 0 0] 0 g'
           [ {| call_node := 0; call_start := 0; call_end := 4; call_ret := 0 |};
             {| call_node := 1; call_start := 104; call_end := 108; call_ret := 0 |};
             {| call_node := 1; call_start := 100; call_end := 104; call_ret := 0 |} ]).
  - left. reflexivity.
  - split; vm_compute; discriminate.
  - reflexivity.
  - repeat constructor; vm_compute; try discriminate; reflexivity.
  - vm_compute. reflexivity.
Defined.

(** ** What a run has processed when it stops early *)

(** The state in which a completed run of [ktask_run_numa] over [nodes]
    ends, with the invariants of the run. *)
Lemma run_final e w g nodes ctl cs status g' calls :
  node_array nodes → node_ranges nodes → sum_sizes nodes < 2 ^ SIZE_WIDTH →
  admissible ctl →
  (∀ position size, kc_iter_func ctl position size = ktask_iter_range position size) →
  wrap (sum_sizes nodes) ≠ 0 →
  ktask_run_numa e w g nodes ctl cs = Some (status, g', calls) →
  ∃ s, reach e w g nodes ctl cs = Some s ∧ run_inv s ∧ cover_inv nodes s ∧
       st_calls s = calls ∧ kt_error (st_kt s) = status ∧
       Forall (λ w, w_pc w = Finished) (st_workers s).
Proof.
  intros Harr Hrng Hsum Hadm Hiter Hnz Hrun.
  destruct (ktask_run_numa_inv _ _ _ _ _ _ _ _ _ Hrun)
    as [(Hs & _)|(s & Hr & Hdone & -> & -> & _)].
  - destruct (setup_running e w g nodes ctl Harr Hadm Hnz) as (s0 & Hs0 & _).
    rewrite Hs in Hs0. discriminate.
  - destruct (reach_inv _ _ _ _ _ _ _ Hr) as (s0 & Hs0 & Hex).
    destruct (setup_cover_inv e w g nodes ctl s0 Harr Hrng Hsum Hadm Hiter Hs0)
      as (Hinv0 & Hcov0 & _).
    pose proof (exec_run_inv e cs s0 s Hinv0 Hex) as Hinv.
    pose proof (exec_cover_inv nodes e cs s0 s Hinv0 Hcov0 Hex) as Hcov.
    exists s. split; [exact Hr|]. split; [exact Hinv|]. split; [exact Hcov|].
    split; [reflexivity|]. split; [reflexivity|].
    pose proof (proj1 (inv_done s Hinv) Hdone) as Hall.
    eapply Forall_impl; [exact (all_finished _ Hall)|].
    intros wk. unfold finished. destruct (w_pc wk); try discriminate; auto.
Qed.

(** The ranges handed to the processing callback for each descriptor
    make up an initial part [start, stop) of the descriptor's range, and
    two calls made for one descriptor share no address. *)
Definition covers_prefix (nodes : list ktask_node) (calls : list call) : Prop :=
  (∀ i kn, nodes !! i = Some kn →
     ∃ stop, kn_start kn <= stop <= kn_start kn + kn_task_size kn ∧
       ∀ x, (∃ c, c ∈ calls ∧ in_call i x c) ↔ kn_start kn <= x < stop) ∧
  (∀ j k c1 c2 x, j ≠ k → calls !! j = Some c1 → calls !! k = Some c2 →
     call_node c1 = call_node c2 →
     ¬ (call_start c1 <= x < call_end c1 ∧ call_start c2 <= x < call_end c2)).

(** The hits of the calls of a completed run. *)
Lemma run_hits e w g nodes ctl cs status g' calls :
  node_array nodes → node_ranges nodes → sum_sizes nodes < 2 ^ SIZE_WIDTH →
  admissible ctl →
  (∀ position size, kc_iter_func ctl position size = ktask_iter_range position size) →
  ktask_run_numa e w g nodes ctl cs = Some (status, g', calls) →
  (∀ i kn, nodes !! i = Some kn →
     ∃ stop, kn_start kn <= stop <= kn_start kn + kn_task_size kn ∧
       ∀ x, hits_calls i x calls = if within (kn_start kn) stop x then 1 else 0) ∧
  (∀ i x, nodes !! i = None → hits_calls i x calls = 0).
Proof.
  intros Harr Hrng Hsum Hadm Hiter Hrun.
  destruct (Z.eq_dec (wrap (sum_sizes nodes)) 0) as [Hz|Hnz].
  - (* nothing to do: no call is made *)
    pose proof (setup_immediate e w g nodes ctl Hz) as Hs.
    unfold ktask_run_numa in Hrun. rewrite Hs in Hrun. simpl in Hrun.
    destruct cs; [|discriminate]. inversion Hrun; subst. split; [|reflexivity].
    intros i kn Hi. exists (kn_start kn).
    destruct Harr as [_ Hsz]. rewrite Forall_forall in Hsz.
    pose proof (Hsz kn (list_elem_of_lookup_2 _ _ _ Hi)) as Hk.
    unfold is_size_t in Hk. split; [lia|].
    intros x. simpl. unfold within.
    destruct (Z.leb_spec (kn_start kn) x), (Z.ltb_spec x (kn_start kn)); simpl; lia.
  - destruct (run_final _ _ _ _ _ _ _ _ _ Harr Hrng Hsum Hadm Hiter Hnz Hrun)
      as (s & Hr & Hinv & Hcov & <- & _ & Hfin).
    assert (∀ i x, hits_workers i x (st_workers s) = 0) as Hidle.
    { intros i x. apply hits_workers_idle.
      eapply Forall_impl; [exact Hfin|]. auto. }
    split.
    + intros i kn0 Hi.
      assert (i < length (kt_nodes (st_kt s)))%nat as Hlt
        by (rewrite (cov_len _ _ Hcov); eapply lookup_lt_Some; eauto).
      destruct (lookup_lt_is_Some_2 _ _ Hlt) as [kn Hkn].
      destruct (cov_node _ _ Hcov i kn0 kn Hi Hkn) as (Hstart & Hend & _).
      pose proof (inv_kt s Hinv) as [[_ Hsz] _ _ _].
      rewrite Forall_forall in Hsz.
      pose proof (Hsz kn (list_elem_of_lookup_2 _ _ _ Hkn)) as Hk.
      unfold is_size_t in Hk.
      exists (kn_start kn). split; [lia|]. intros x.
      pose proof (cov_hits _ _ Hcov i kn0 kn x Hi Hkn) as Hh.
      unfold hits in Hh. rewrite Hidle in Hh. lia.
    + intros i x Hi. pose proof (cov_out _ _ Hcov i x Hi) as Hh.
      unfold hits in Hh. rewrite Hidle in Hh. lia.
Qed.

(** Calls that hit no address twice are disjoint. *)
Lemma hits_disjoint calls :
  (∀ i x, hits_calls i x calls <= 1) →
  ∀ j k c1 c2 x, j ≠ k → calls !! j = Some c1 → calls !! k = Some c2 →
    call_node c1 = call_node c2 →
    ¬ (call_start c1 <= x < call_end c1 ∧ call_start c2 <= x < call_end c2).
Proof.
  intros Hone j k c1 c2 x Hne Hj Hk Hnode [H1 H2].
  assert (hit_call (call_node c1) x c1 = 1) as Hh1
    by (apply hit_call_in; split; auto).
  assert (hit_call (call_node c1) x c2 = 1) as Hh2
    by (apply hit_call_in; split; auto).
  pose proof (hits_calls_two (call_node c1) x calls j k c1 c2 Hne Hj Hk).
  pose proof (Hone (call_node c1) x). lia.
Qed.

Lemma run_hits_once e w g nodes ctl cs status g' calls :
  node_array nodes → node_ranges nodes → sum_sizes nodes < 2 ^ SIZE_WIDTH →
  admissible ctl →
  (∀ position size, kc_iter_func ctl position size = ktask_iter_range position size) →
  ktask_run_numa e w g nodes ctl cs = Some (status, g', calls) →
  ∀ i x, hits_calls i x calls <= 1.
Proof.
  intros Harr Hrng Hsum Hadm Hiter Hrun i x.
  destruct (run_hits _ _ _ _ _ _ _ _ _ Harr Hrng Hsum Hadm Hiter Hrun) as [Hin Hout].
  destruct (nodes !! i) as [kn|] eqn:Hi.
  - destruct (Hin i kn Hi) as (stop & _ & ->). destruct (within _ _ _); lia.
  - rewrite (Hout i x Hi). lia.
Qed.

(** X6: Whatever [ktask_run_numa] returns, success or the callback's error,
    nothing was processed twice and nothing was skipped in between: for
    each descriptor the calls made are disjoint and together cover an
    initial part of its range, everything up to the point where the run
    stopped claiming chunks. *)
Theorem ktask_run_numa_processed_prefix e w g nodes ctl cs status g' calls :
  node_array nodes → node_ranges nodes → sum_sizes nodes < 2 ^ SIZE_WIDTH →
  admissible ctl →
  (∀ position size, kc_iter_func ctl position size = ktask_iter_range position size) →
  ktask_run_numa e w g nodes ctl cs = Some (status, g', calls) →
  covers_prefix nodes calls.
Proof.
  intros Harr Hrng Hsum Hadm Hiter Hrun.
  destruct (run_hits _ _ _ _ _ _ _ _ _ Harr Hrng Hsum Hadm Hiter Hrun) as [Hin _].
  split.
  - intros i kn Hi. destruct (Hin i kn Hi) as (stop & Hstop & Hhits).
    exists stop. split; [exact Hstop|]. intros x.
    rewrite <- hits_calls_pos, (Hhits x). unfold within.
    destruct (Z.leb_spec (kn_start kn) x), (Z.ltb_spec x stop); simpl; lia.
  - apply hits_disjoint.
    eapply run_hits_once; [exact Harr|exact Hrng|exact Hsum|exact Hadm|exact Hiter
                          |exact Hrun].
Qed.

Lemma ktask_run_numa_processed_prefix_witness :
  covers_prefix [node 0 8 0; node 100 4 1]
    [ {| call_node := 0; call_start := 0; call_end := 4; call_ret := 7 |};
      {| call_node := 1; call_start := 100; call_end := 104; call_ret := 0 |} ].
Proof.
  apply (ktask_run_numa_processed_prefix (host true) no_wild (rlim_of 5 [2; 3])
           [node 0 8 0; node 100 4 1] (range_ctl 4 0)
           [pick 0 0 0; pick 1 0 0; pick 0 7 0; pick 1 0 0; pick 2 0 0]
           7 (rlim_of 5 [2; 3])).
  - concrete_node_array.
  - repeat constructor; vm_compute; try discriminate; reflexivity.
  - reflexivity.
  - split; vm_compute; discriminate.
  - intros position size. reflexivity.
  - vm_compute. reflexivity.
Defined.

(** ** Chunks in progress *)

Lemma hit_worker_bounds i x w : 0 <= hit_worker i x w <= 1.
Proof.
  unfold hit_worker. destruct (w_pc w); try lia.
  destruct (decide _); [destruct (within _ _ _)|]; lia.
Qed.

Lemma hit_worker_in i x w n a b :
  w_pc w = InCall n a b → n = i → a <= x < b → hit_worker i x w = 1.
Proof.
  intros Hpc Hn Hx. unfold hit_worker, within. rewrite Hpc.
  destruct (decide (n = i)); [|contradiction].
  destruct (Z.leb_spec a x), (Z.ltb_spec x b); simpl; lia.
Qed.

Lemma hits_workers_nonneg i x ws : 0 <= hits_workers i x ws.
Proof.
  induction ws as [|w rest IH]; simpl; [lia|].
  pose proof (hit_worker_bounds i x w). lia.
Qed.

Lemma hits_workers_ge i x ws : ∀ k w,
  ws !! k = Some w → hit_worker i x w <= hits_workers i x ws.
Proof.
  induction ws as [|w' rest IH]; intros [|k] w Hk; simpl in *; try discriminate.
  - inversion Hk; subst. pose proof (hits_workers_nonneg i x rest). lia.
  - pose proof (IH k w Hk). pose proof (hit_worker_bounds i x w'). lia.
Qed.

Lemma hits_workers_two i x ws : ∀ j k w1 w2,
  j ≠ k → ws !! j = Some w1 → ws !! k = Some w2 →
  hit_worker i x w1 + hit_worker i x w2 <= hits_workers i x ws.
Proof.
  induction ws as [|w rest IH]; intros [|j] [|k] w1 w2 Hne Hj Hk;
    simpl in *; try discriminate; try congruence.
  - inversion Hj; subst. pose proof (hits_workers_ge i x rest k w2 Hk). lia.
  - inversion Hk; subst. pose proof (hits_workers_ge i x rest j w1 Hj). lia.
  - assert (j ≠ k) as Hjk by congruence.
    pose proof (IH j k w1 w2 Hjk Hj Hk).
    pose proof (hit_worker_bounds i x w). lia.
Qed.

Lemma hits_at_most_once nodes s i x : cover_inv nodes s → hits i x s <= 1.
Proof.
  intros Hcov. destruct (nodes !! i) as [kn0|] eqn:Hn.
  - assert (i < length (kt_nodes (st_kt s)))%nat as Hlt
      by (rewrite (cov_len _ _ Hcov); eapply lookup_lt_Some; eauto).
    destruct (lookup_lt_is_Some_2 _ _ Hlt) as [kn Hkn].
    rewrite (cov_hits _ _ Hcov i kn0 kn x Hn Hkn). destruct (within _ _ _); lia.
  - rewrite (cov_out _ _ Hcov i x Hn). lia.
Qed.

(** X7: At no point of a run do two threads work on the same address, nor
    does a thread work on an address that was processed before: in every
    state the run reaches, the chunks of one descriptor that are being
    processed are disjoint from each other and from every chunk of that
    descriptor already finished. *)
Theorem chunks_in_progress_disjoint e w g nodes ctl cs ws calls :
  node_array nodes → node_ranges nodes → sum_sizes nodes < 2 ^ SIZE_WIDTH →
  admissible ctl →
  (∀ position size, kc_iter_func ctl position size = ktask_iter_range position size) →
  (λ s, (st_workers s, st_calls s)) <$> reach e w g nodes ctl cs = Some (ws, calls) →
  (∀ j k w1 w2 n a1 b1 a2 b2 x,
     j ≠ k → ws !! j = Some w1 → ws !! k = Some w2 →
     w_pc w1 = InCall n a1 b1 → w_pc w2 = InCall n a2 b2 →
     ¬ (a1 <= x < b1 ∧ a2 <= x < b2)) ∧
  (∀ j w1 n a b c x,
     ws !! j = Some w1 → w_pc w1 = InCall n a b → c ∈ calls → call_node c = n →
     ¬ (a <= x < b ∧ call_start c <= x < call_end c)).
Proof.
  intros Harr Hrng Hsum Hadm Hiter Hr.
  destruct (reach e w g nodes ctl cs) as [s|] eqn:Hs; simpl in Hr; [|discriminate].
  inversion Hr; subst ws calls. clear Hr.
  destruct (reach_inv _ _ _ _ _ _ _ Hs) as (s0 & Hs0 & Hex).
  destruct (setup_cover_inv e w g nodes ctl s0 Harr Hrng Hsum Hadm Hiter Hs0)
    as (Hinv0 & Hcov0 & _).
  pose proof (exec_cover_inv nodes e cs s0 s Hinv0 Hcov0 Hex) as Hcov.
  split.
  - intros j k w1 w2 n a1 b1 a2 b2 x Hne Hj Hk Hp1 Hp2 [H1 H2].
    pose proof (hits_at_most_once nodes s n x Hcov) as Hle.
    pose proof (hits_workers_two n x _ j k w1 w2 Hne Hj Hk) as Htwo.
    rewrite (hit_worker_in n x w1 n a1 b1 Hp1 eq_refl H1) in Htwo.
    rewrite (hit_worker_in n x w2 n a2 b2 Hp2 eq_refl H2) in Htwo.
    pose proof (hits_calls_nonneg n x (st_calls s)). unfold hits in Hle. lia.
  - intros j w1 n a b c x Hj Hp Hc Hn [H1 H2].
    pose proof (hits_at_most_once nodes s n x Hcov) as Hle.
    pose proof (hits_workers_ge n x _ j w1 Hj) as Hw.
    rewrite (hit_worker_in n x w1 n a b Hp eq_refl H1) in Hw.
    assert (0 < hits_calls n x (st_calls s)) as Hpos
      by (apply hits_calls_pos; exists c; split; [exact Hc|split; assumption]).
    unfold hits in Hle. lia.
Qed.

Lemma chunks_in_progress_disjoint_witness :
  let ws :=
    [ {| w_kw := ktask_init_work 0 0; w_kthread := false; w_pc := InCall 0 0 4 |};
      {| w_kw := ktask_init_work 0 0; w_kthread := true; w_pc := Queued |};
      {| w_kw := ktask_init_work 0 0; w_kthread := true; w_pc := InCall 0 4 8 |} ] in
  let calls :=
    [ {| call_node := 1; call_start := 100; call_end := 104; call_ret := 0 |} ] in
  (∀ j k w1 w2 n a1 b1 a2 b2 x,
     j ≠ k → ws !! j = Some w1 → ws !! k = Some w2 →
     w_pc w1 = InCall n a1 b1 → w_pc w2 = InCall n a2 b2 →
     ¬ (a1 <= x < b1 ∧ a2 <= x < b2)) ∧
  (∀ j w1 n a b c x,
     ws !! j = Some w1 → w_pc w1 = InCall n a b → c ∈ calls → call_node c = n →
     ¬ (a <= x < b ∧ call_start c <= x < call_end c)).
Proof.
  intros ws calls.
  apply (chunks_in_progress_disjoint (host true) no_wild (rlim_of 5 [2; 3])
           [node 0 8 0; node 100 4 1] (range_ctl 4 0)
           [pick 1 0 0; pick 0 0 0; pick 1 0 0; pick 2 0 0] ws calls).
  - concrete_node_array.
  - repeat constructor; vm_compute; try discriminate; reflexivity.
  - reflexivity.
  - split; vm_compute; discriminate.
  - intros position size. reflexivity.
  - vm_compute. reflexivity.
Defined.

(** ** The size of the chunks *)

(** X8: Every call of the processing callback gets one chunk.  With [chunk]
    the size [ktask_chunk_size] computes for the job and its number of
    threads, each range handed to the callback holds at least one unit
    and at most [chunk], and one that is shorter than [chunk] runs to the
    end of its descriptor's range. *)
Theorem ktask_run_numa_calls_are_chunks e w g nodes ctl cs status g' calls :
  node_array nodes → node_ranges nodes → sum_sizes nodes < 2 ^ SIZE_WIDTH →
  admissible ctl →
  (∀ position size, kc_iter_func ctl position size = ktask_iter_range position size) →
  ktask_run_numa e w g nodes ctl cs = Some (status, g', calls) →
  ∃ nworks chunk,
    1 <= nworks ∧
    ktask_chunk_size (sum_sizes nodes) (kc_min_chunk_size ctl) nworks = Some chunk ∧
    ∀ c, c ∈ calls →
      ∃ kn, nodes !! call_node c = Some kn ∧
        1 <= call_end c - call_start c <= chunk ∧
        (call_end c - call_start c = chunk ∨
         call_end c = kn_start kn + kn_task_size kn).
Proof.
  intros Harr Hrng Hsum Hadm Hiter Hrun.
  pose proof (sum_sizes_nonneg nodes (proj2 Harr)) as Hnn.
  destruct (Z.eq_dec (wrap (sum_sizes nodes)) 0) as [Hz|Hnz].
  - pose proof (setup_immediate e w g nodes ctl Hz) as Hs.
    unfold ktask_run_numa in Hrun. rewrite Hs in Hrun. simpl in Hrun.
    destruct cs; [|discriminate]. inversion Hrun; subst.
    exists 1, (sum_sizes nodes). split; [lia|]. split; [reflexivity|].
    intros c Hc. inversion Hc.
  - destruct (ktask_run_numa_inv _ _ _ _ _ _ _ _ _ Hrun)
      as [(Hs & _)|(s & Hr & _ & _ & -> & _)].
    + destruct (setup_running e w g nodes ctl Harr Hadm Hnz) as (s0 & Hs0 & _).
      rewrite Hs in Hs0. discriminate.
    + destruct (reach_inv _ _ _ _ _ _ _ Hr) as (s0 & Hs0 & Hex).
      destruct (setup_cover_inv e w g nodes ctl s0 Harr Hrng Hsum Hadm Hiter Hs0)
        as (Hinv0 & Hcov0 & _).
      destruct (setup_running e w g nodes ctl Harr Hadm Hnz)
        as (s0' & Hs0' & _ & _ & _ & Hcalls & _ & Hq & Hnw & Hchunk).
      rewrite Hs0 in Hs0'. inversion Hs0'; subst s0'. clear Hs0'.
      rewrite wrap_small in Hchunk by (unfold is_size_t; lia).
      assert (chunk_inv nodes (kt_chunk_size (st_kt s0)) s0) as Hch0.
      { split; [reflexivity|rewrite Hcalls; constructor|].
        eapply Forall_impl; [exact Hq|]. intros wk Hwk. unfold pc_ok.
        rewrite Hwk. exact I. }
      pose proof (exec_chunk_inv _ _ _ _ _ _ Hinv0 Hcov0 Hch0 Hex) as [_ Hcalls' _].
      exists (kt_nworks (st_kt s0)), (kt_chunk_size (st_kt s0)).
      split; [lia|]. split; [exact Hchunk|].
      intros c Hc. rewrite Forall_forall in Hcalls'. apply (Hcalls' c Hc).
Qed.

Lemma ktask_run_numa_calls_are_chunks_witness :
  ∃ nworks chunk,
    1 <= nworks ∧ ktask_chunk_size 14 (kc_min_chunk_size (range_ctl 4 0)) nworks
                  = Some chunk ∧
    ∀ c, c ∈ [ {| call_node := 0; call_start := 0; call_end := 4; call_ret := 0 |};
               {| call_node := 0; call_start := 4; call_end := 8; call_ret := 0 |};
               {| call_node := 0; call_start := 8; call_end := 10; call_ret := 0 |};
               {| call_node := 1; call_start := 100; call_end := 104; call_ret := 0 |} ] →
      ∃ kn, [node 0 10 0; node 100 4 1] !! call_node c = Some kn ∧
        1 <= call_end c - call_start c <= chunk ∧
        (call_end c - call_start c = chunk ∨
         call_end c = kn_start kn + kn_task_size kn).
Proof.
  apply (ktask_run_numa_calls_are_chunks (host true) no_wild (rlim_of 5 [2; 3])
           [node 0 10 0; node 100 4 1] (range_ctl 4 0)
           [pick 0 0 0; pick 0 0 0; pick 0 0 0; pick 1 0 0; pick 0 0 0;
            pick 1 0 0; pick 2 0 0; pick 3 0 0]
           0 (rlim_of 5 [2; 3])).
  - concrete_node_array.
  - repeat constructor; vm_compute; try discriminate; reflexivity.
  - reflexivity.
  - split; vm_compute; discriminate.
  - intros position size. reflexivity.
  - vm_compute. reflexivity.
Defined.

(** ** The bookkeeping of a job *)

Lemma step_sum_sizes e c s s' :
  run_inv s → step e c s = Some s' →
  sum_sizes (kt_nodes (st_kt s')) <= sum_sizes (kt_nodes (st_kt s)).
Proof.
  intros Hs Hstep.
  destruct (step_pass e c s s' Hs Hstep)
    as (w & kt & calls & i0 & o & Hw & He & Hk & Hp & ->).
  destruct (entry_fields _ _ _ _ _ _ He) as (_ & _ & _ & Hnodes & _).
  destruct Hp as [Hexit|j kn Hpos Hok Hj Hnz|old j kn q g Hpos Hok Hi Hz Hj Hnz].
  - destruct (ktask_thread_exit_fields kt) as (_ & _ & _ & Hn' & _).
    simpl. rewrite Hn', Hnodes. lia.
  - destruct (ktask_claim_inv kt j kn Hk Hj Hnz) as (kt' & end_ & -> & _ & Hsum & _).
    simpl. rewrite <- Hnodes. lia.
  - simpl. rewrite Hnodes. lia.
Qed.

Lemma exec_sum_sizes e cs : ∀ s s',
  run_inv s → exec e cs s = Some s' →
  sum_sizes (kt_nodes (st_kt s')) <= sum_sizes (kt_nodes (st_kt s)).
Proof.
  induction cs as [|c cs IH]; intros s s' Hs; simpl.
  - intros H; inversion H; subst; lia.
  - destruct (step e c s) as [s1|] eqn:Hstep; simpl; [|discriminate].
    intros Hex. pose proof (step_sum_sizes e c s s1 Hs Hstep).
    pose proof (IH s1 s' (step_run_inv e c s s1 Hs Hstep) Hex). lia.
Qed.

Lemma no_size_no_work nodes :
  Forall (λ kn, kn_task_size kn = 0) nodes → nodes_with_work nodes = 0.
Proof.
  induction 1 as [|kn rest Hkn _ IH]; simpl; [reflexivity|].
  unfold has_work. rewrite Hkn, IH. reflexivity.
Qed.

(** X9: The counters of a job agree with what they count, in every state a
    run reaches (for sizes that sum to less than 2^64): [kt_total_size]
    is the sum of the sizes left, [kt_nr_nodes_left] the number of
    descriptors with work left, and one is zero exactly when the other
    is; [kt_nworks_fini] is the number of threads that have left
    [ktask_thread], never more than [kt_nworks]; the job is marked done
    exactly when the two are equal; and a thread has left only if no work
    is left or an error was recorded.  So none of the assertions on these
    counters in [ktask_thread] can fail. *)
Theorem job_counters_consistent e w g nodes ctl cs s :
  node_array nodes → sum_sizes nodes < 2 ^ SIZE_WIDTH → admissible ctl →
  reach e w g nodes ctl cs = Some s →
  let kt := st_kt s in
  kt_total_size kt = sum_sizes (kt_nodes kt) ∧
  kt_nr_nodes_left kt = nodes_with_work (kt_nodes kt) ∧
  (kt_total_size kt = 0 ↔ kt_nr_nodes_left kt = 0) ∧
  kt_nworks kt = Z.of_nat (length (st_workers s)) ∧
  kt_nworks_fini kt = count_finished (st_workers s) ∧
  kt_nworks_fini kt <= kt_nworks kt ∧
  (kt_ktask_done kt = true ↔ kt_nworks_fini kt = kt_nworks kt) ∧
  (0 < kt_nworks_fini kt →
   kt_nr_nodes_left kt = 0 ∨ kt_error kt ≠ KTASK_RETURN_SUCCESS).
Proof.
  intros Harr Hsum Hadm Hr kt. subst kt.
  destruct (reach_inv _ _ _ _ _ _ _ Hr) as (s0 & Hs0 & Hex).
  assert (wrap (sum_sizes nodes) ≠ 0) as Hnz.
  { intros Hz. rewrite (setup_immediate e w g nodes ctl Hz) in Hs0. discriminate. }
  destruct (setup_running e w g nodes ctl Harr Hadm Hnz)
    as (s0' & Hs0' & Hinv0 & Hnodes0 & _).
  rewrite Hs0 in Hs0'. inversion Hs0'; subst s0'. clear Hs0'.
  pose proof (exec_run_inv e cs s0 s Hinv0 Hex) as Hinv.
  pose proof (exec_sum_sizes e cs s0 s Hinv0 Hex) as Hle. rewrite Hnodes0 in Hle.
  destruct Hinv as [[[Hlen Hsz] Hleft Htot Hchunk] _ Hnw _ Hfini Hdone Hexit].
  pose proof (sum_sizes_nonneg _ Hsz) as Hnn.
  rewrite wrap_small in Htot by (unfold is_size_t; lia).
  pose proof (count_finished_bounds (st_workers s)) as Hcf.
  assert (kt_total_size (st_kt s) = 0 ↔ kt_nr_nodes_left (st_kt s) = 0) as Hzero.
  { rewrite Htot, Hleft. split.
    - intros Hz. apply no_size_no_work, sum_zero_sizes; assumption.
    - intros Hz. apply no_work_no_size; assumption. }
  split; [exact Htot|]. split; [exact Hleft|]. split; [exact Hzero|].
  split; [exact Hnw|]. split; [exact Hfini|]. split; [lia|].
  split; [rewrite Hfini, Hnw; exact Hdone|].
  intros Hpos. rewrite Hfini in Hpos.
  destruct (Hexit Hpos) as [Hz|He]; [left; apply Hzero; exact Hz|right; exact He].
Qed.

Lemma job_counters_consistent_witness :
  let kt := st_kt sample_state in
  kt_total_size kt = sum_sizes (kt_nodes kt) ∧
  kt_nr_nodes_left kt = nodes_with_work (kt_nodes kt) ∧
  (kt_total_size kt = 0 ↔ kt_nr_nodes_left kt = 0) ∧
  kt_nworks kt = Z.of_nat (length (st_workers sample_state)) ∧
  kt_nworks_fini kt = count_finished (st_workers sample_state) ∧
  kt_nworks_fini kt <= kt_nworks kt ∧
  (kt_ktask_done kt = true ↔ kt_nworks_fini kt = kt_nworks kt) ∧
  (0 < kt_nworks_fini kt →
   kt_nr_nodes_left kt = 0 ∨ kt_error kt ≠ KTASK_RETURN_SUCCESS).
Proof.
  apply (job_counters_consistent (host true) no_wild (rlim_of 5 [1; 4])
           [node 0 4 0; node 100 8 1] (const_ctl 4 0)
           [pick 2 0 0; pick 2 0 0; pick 0 0 0] sample_state).
  - concrete_node_array.
  - reflexivity.
  - split; vm_compute; discriminate.
  - vm_compute. reflexivity.
Defined.

(** ** Start-up: the limits and the workqueues *)

Definition sum_list (l : list Z) : Z := foldr Z.add 0 l.

Lemma mult_frac_cap c :
  0 <= c →
  let m := mult_frac c KTASK_CPUFRAC_NUMER KTASK_CPUFRAC_DENOM in
  0 <= m ∧ 5 * m <= 4 * c ∧ 4 * c < 5 * (m + 1).
Proof.
  intros Hc. unfold mult_frac, KTASK_CPUFRAC_NUMER, KTASK_CPUFRAC_DENOM. simpl.
  pose proof (Z.div_mod (c * 4) 5 ltac:(lia)).
  pose proof (Z.mod_pos_bound (c * 4) 5 ltac:(lia)).
  assert (0 <= c * 4 / 5) by (apply Z.div_pos; lia). lia.
Qed.

Lemma sum_node_caps node_cpus :
  Forall (λ c, 0 <= c) node_cpus →
  5 * sum_list (map (λ c, mult_frac c KTASK_CPUFRAC_NUMER KTASK_CPUFRAC_DENOM)
                    node_cpus)
  <= 4 * sum_list node_cpus.
Proof.
  induction 1 as [|c rest Hc _ IH]; simpl; [lia|].
  pose proof (mult_frac_cap c Hc) as (_ & Hm & _).
  unfold sum_list in *. simpl in *. lia.
Qed.

(** X10: Modelled from the spec: [mult_frac].  The limits [ktask_rlim_init]
    sets up on a host with at least two CPUs, whose nodes hold no more
    CPUs together than are online: no work item is queued yet; the global
    limit is at least 1 and leaves at least one CPU free; each node's
    limit is four fifths of its CPUs rounded down, so below the CPU count
    of any node that has one, and 0 for a node of one CPU; together the
    node limits stay within the global limit. *)
Theorem ktask_rlim_init_caps nr_cpus node_cpus :
  2 <= nr_cpus → Forall (λ c, 0 <= c) node_cpus → sum_list node_cpus <= nr_cpus →
  ∃ g, ktask_rlim_init nr_cpus node_cpus = Some g ∧
    ktask_rlim_cur g = 0 ∧
    Forall (λ cur, cur = 0) (ktask_rlim_node_cur g) ∧
    length (ktask_rlim_node_cur g) = length node_cpus ∧
    length (ktask_rlim_node_max g) = length node_cpus ∧
    1 <= ktask_rlim_max g < nr_cpus ∧
    (∀ n c max, node_cpus !! n = Some c → ktask_rlim_node_max g !! n = Some max →
       0 <= max <= c ∧ (0 < c → max < c) ∧ (c = 1 → max = 0)) ∧
    sum_list (ktask_rlim_node_max g) <= ktask_rlim_max g.
Proof.
  intros Hnr Hnodes Hsum. unfold ktask_rlim_init.
  destruct (Z.eqb_spec nr_cpus 1) as [|_]; [lia|].
  eexists. split; [reflexivity|]. simpl.
  pose proof (mult_frac_cap nr_cpus ltac:(lia)) as (H0 & H1 & H2). simpl in H0, H1, H2.
  split; [reflexivity|].
  split; [apply Forall_forall; intros x Hx; apply elem_of_replicate in Hx; tauto|].
  split; [apply length_replicate|]. split; [apply length_map|].
  split; [lia|]. split.
  - intros n c max Hc Hmax.
    change (map ?f node_cpus) with (f <$> node_cpus) in Hmax.
    rewrite list_lookup_fmap, Hc in Hmax. simpl in Hmax. inversion Hmax; subst max.
    rewrite Forall_lookup in Hnodes. pose proof (Hnodes n c Hc) as Hc0.
    pose proof (mult_frac_cap c Hc0) as (? & ? & ?). simpl in *. lia.
  - pose proof (sum_node_caps node_cpus Hnodes). lia.
Qed.

Lemma ktask_rlim_init_caps_witness :
  ∃ g, ktask_rlim_init 5 [2; 3] = Some g ∧
    ktask_rlim_cur g = 0 ∧
    Forall (λ cur, cur = 0) (ktask_rlim_node_cur g) ∧
    length (ktask_rlim_node_cur g) = length [2; 3] ∧
    length (ktask_rlim_node_max g) = length [2; 3] ∧
    1 <= ktask_rlim_max g < 5 ∧
    (∀ n c max, [2; 3] !! n = Some c → ktask_rlim_node_max g !! n = Some max →
       0 <= max <= c ∧ (0 < c → max < c) ∧ (c = 1 → max = 0)) ∧
    sum_list (ktask_rlim_node_max g) <= ktask_rlim_max g.
Proof.
  apply (ktask_rlim_init_caps 5 [2; 3]).
  - lia.
  - repeat constructor; lia.
  - vm_compute. discriminate.
Defined.

(** X11: [ktask_init] sets both workqueues or neither: [ktask_wq] and
    [ktask_nonuma_wq] are both set exactly when the host has more than
    one CPU and every allocation and [apply_workqueue_attrs] succeeded;
    any failure leaves both cleared.  So when ktask is enabled,
    [ktask_queue_work] sends a work item that is bound to no node to
    [ktask_nonuma_wq] with [WORK_CPU_UNBOUND], and never falls back to
    [ktask_wq] for it; a work item bound to a node goes to [ktask_wq] on
    a CPU of that node. *)
Theorem ktask_init_both_or_neither b nr_cpus node_cpus :
  let kg := ktask_init b nr_cpus node_cpus in
  kg_nonuma_wq kg = kg_wq kg ∧
  (kg_wq kg = true ↔
   nr_cpus ≠ 1 ∧ alloc_ktask_wq b = true ∧ alloc_ktask_nonuma_wq b = true ∧
   alloc_attrs b = true ∧ apply_workqueue_attrs b = 0) ∧
  (kg_wq kg = true →
   ∀ kw, ktask_queue_work kg kw
         = if kw_queue_nid kw =? NUMA_NO_NODE
           then (WORK_CPU_UNBOUND, the_ktask_nonuma_wq)
           else (cpu_of_node (kw_queue_nid kw), the_ktask_wq)) ∧
  (kg_wq kg = false →
   ∀ kw, (ktask_queue_work kg kw).2 = no_workqueue).
Proof.
  unfold ktask_init, ktask_rlim_init, ktask_queue_work.
  destruct (Z.eqb_spec nr_cpus 1) as [H1|H1]; cbv zeta.
  - cbn [kg_wq kg_nonuma_wq]. split; [reflexivity|].
    split; [split; [discriminate|tauto]|].
    split; [discriminate|]. intros _ kw. destruct (_ =? _); reflexivity.
  - destruct (alloc_ktask_wq b), (alloc_ktask_nonuma_wq b), (alloc_attrs b),
      (Z.eqb_spec (apply_workqueue_attrs b) 0);
      cbn [negb kg_wq kg_nonuma_wq]; (split; [reflexivity|]);
      (split; [split; [try discriminate; tauto
                      |intros (_ & ? & ? & ? & ?); congruence]|]);
      (split; [try discriminate; intros _ kw; destruct (_ =? _); reflexivity
              |try discriminate; intros _ kw; destruct (_ =? _); reflexivity]).
Qed.

(** ** One thread: the serial run *)

(** The call [a, b) for descriptor [n] is the descriptor's whole range. *)
Definition full_range (nodes0 : list ktask_node) (n : nat) (a b : Z) : Prop :=
  ∃ kn0, nodes0 !! n = Some kn0 ∧ a = kn_start kn0 ∧
         b = kn_start kn0 + kn_task_size kn0 ∧ 0 < kn_task_size kn0.

Definition pc_full (nodes0 : list ktask_node) (w : worker) : Prop :=
  match w_pc w with
  | InCall n a b => full_range nodes0 n a b
  | _ => True
  end.

(** A run whose chunk size is at least the size of the whole job: every
    descriptor is untouched or used up. *)
Record serial_inv (nodes0 : list ktask_node) (s : state) : Prop := {
  ser_chunk : sum_sizes nodes0 <= kt_chunk_size (st_kt s);
  ser_nodes : ∀ i kn0 kn,
    nodes0 !! i = Some kn0 → kt_nodes (st_kt s) !! i = Some kn →
    kn = kn0 ∨ kn_task_size kn = 0;
  ser_calls : Forall (λ c, full_range nodes0 (call_node c) (call_start c)
                             (call_end c)) (st_calls s);
  ser_workers : Forall (pc_full nodes0) (st_workers s);
}.

Lemma size_le_sum nodes : ∀ i kn,
  Forall (λ kn, is_size_t (kn_task_size kn)) nodes →
  nodes !! i = Some kn → kn_task_size kn <= sum_sizes nodes.
Proof.
  induction nodes as [|x rest IH]; intros [|i] kn Hall Hi; simpl in *;
    try discriminate; apply Forall_cons in Hall as [Hx Hrest].
  - inversion Hi; subst. pose proof (sum_sizes_nonneg rest Hrest). lia.
  - pose proof (IH i kn Hrest Hi). unfold is_size_t in Hx. lia.
Qed.

Lemma step_serial_inv nodes0 e c s s' :
  Forall (λ kn, is_size_t (kn_task_size kn)) nodes0 →
  run_inv s → cover_inv nodes0 s → serial_inv nodes0 s →
  step e c s = Some s' → serial_inv nodes0 s'.
Proof.
  intros Hsz0 Hs Hcov [Hchunk Hnd Hcalls Hws] Hstep.
  destruct (step_pass e c s s' Hs Hstep)
    as (w & kt & calls & i0 & o & Hw & He & Hk & Hp & ->).
  destruct (entry_fields _ _ _ _ _ _ He) as (Hctl & _ & Hch & Hnodes & _).
  assert (Forall (λ c, full_range nodes0 (call_node c) (call_start c)
                         (call_end c)) calls) as Hcalls'.
  { destruct He as [Hpc|n a b Hpc]; [exact Hcalls|].
    apply Forall_app. split; [exact Hcalls|]. constructor; [|constructor]. simpl.
    rewrite Forall_lookup in Hws. pose proof (Hws _ _ Hw) as Hok.
    unfold pc_full in Hok. rewrite Hpc in Hok. exact Hok. }
  destruct Hp as [Hexit|j kn Hpos Hok Hj Hnz|old j kn q g Hpos Hok Hi Hz Hj Hnz].
  - destruct (ktask_thread_exit_fields kt) as (_ & _ & Hch' & Hn' & _).
    split; simpl; [rewrite Hch', Hch; exact Hchunk|rewrite Hn', Hnodes; exact Hnd
                  |exact Hcalls'|].
    apply Forall_insert; [exact Hws|exact I].
  - destruct (ktask_claim_nodes kt j kn Hk Hj Hnz) as (kt' & Heq & Hn' & _ & Hsize).
    rewrite Heq. pose proof (ktask_claim_chunk_size _ _ _ _ _ _ Heq) as Hch'.
    destruct Hcov as [Hit Hlen _ Hnode _ _].
    assert (j < length nodes0)%nat as Hjlt
      by (rewrite <- Hlen, <- Hnodes; eapply lookup_lt_Some; eauto).
    destruct (lookup_lt_is_Some_2 nodes0 j Hjlt) as [kn0 Hkn0].
    rewrite Hnodes in Hj.
    destruct (Hnd j kn0 kn Hkn0 Hj) as [->|Hzero]; [|contradiction].
    destruct (Hnode j kn0 kn0 Hkn0 Hj) as (Hst & _ & Hfit).
    pose proof (size_le_sum nodes0 j kn0 Hsz0 Hkn0) as Hle.
    assert (Z.min (kt_chunk_size kt) (kn_task_size kn0) = kn_task_size kn0) as Hmin
      by (rewrite Hch; lia).
    rewrite Hmin in *.
    assert (kc_iter_func (kt_ctl kt) (kn_start kn0) (kn_task_size kn0)
            = kn_start kn0 + kn_task_size kn0) as Hiter.
    { rewrite Hctl, Hit. unfold ktask_iter_range. apply wrap_small.
      unfold is_size_t. lia. }
    rewrite Hiter in *.
    split; simpl; [rewrite Hch', Hch; exact Hchunk| |exact Hcalls'|].
    + rewrite Hn', Hnodes. intros i kn0' kn' Hl0 Hl1.
      destruct (decide (i = j)) as [->|Hne].
      * rewrite list_lookup_insert_eq in Hl1 by (eapply lookup_lt_Some; eauto).
        inversion Hl1; subst kn'. right. simpl. lia.
      * rewrite list_lookup_insert_ne in Hl1 by congruence. eapply Hnd; eauto.
    + apply Forall_insert; [exact Hws|]. unfold pc_full. simpl.
      exists kn0. repeat split; auto. lia.
  - split; simpl; [rewrite Hch; exact Hchunk|rewrite Hnodes; exact Hnd|exact Hcalls'|].
    apply Forall_insert; [exact Hws|exact I].
Qed.

Lemma exec_serial_inv nodes0 e cs : ∀ s s',
  Forall (λ kn, is_size_t (kn_task_size kn)) nodes0 →
  run_inv s → cover_inv nodes0 s → serial_inv nodes0 s →
  exec e cs s = Some s' → serial_inv nodes0 s'.
Proof.
  induction cs as [|c cs IH]; intros s s' Hsz Hs Hc Hser; simpl.
  - intros H; inversion H; subst; exact Hser.
  - destruct (step e c s) as [s1|] eqn:Hstep; simpl; [|discriminate].
    apply IH; [exact Hsz|eapply step_run_inv|eapply step_cover_inv
              |eapply step_serial_inv]; eauto.
Qed.

Lemma setup_nworks e w g nodes ctl s :
  ktask_run_numa_setup e w g nodes ctl = Some (Running s) →
  ∃ works_list g',
    ktask_init_works e w nodes (ktask_task_init nodes ctl) g
    = Some (kt_nworks (st_kt s), works_list, g').
Proof.
  unfold ktask_run_numa_setup.
  destruct (_ =? 0); [discriminate|].
  destruct (ktask_init_works _ _ _ _ _) as [[[nworks works] g']|]; simpl;
    [|discriminate].
  destruct (ktask_chunk_size _ _ _) as [chunk|]; simpl; [|discriminate].
  destruct (nodes !! 0%nat) as [kn|]; simpl; [|discriminate].
  intros H; inversion H. simpl. eauto.
Qed.

(** When a job runs on one thread.  *)
Definition single_thread (e : env) (nodes : list ktask_node) (ctl : ktask_ctl) : Prop :=
  ktask_wq e = false ∨ num_online_cpus e = 1%positive ∨
  kc_max_threads ctl = 1 ∨ sum_sizes nodes <= kc_min_chunk_size ctl.

Lemma single_thread_nworks e w g nodes ctl s :
  node_array nodes → sum_sizes nodes < 2 ^ SIZE_WIDTH → admissible ctl →
  single_thread e nodes ctl →
  ktask_run_numa_setup e w g nodes ctl = Some (Running s) →
  kt_nworks (st_kt s) = 1.
Proof.
  intros Harr Hsum [Hmin Hmax] Hone Hs.
  pose proof (sum_sizes_nonneg nodes (proj2 Harr)) as Hnn.
  assert (wrap (sum_sizes nodes) ≠ 0) as Hnz.
  { intros Hz. rewrite (setup_immediate e w g nodes ctl Hz) in Hs. discriminate. }
  rewrite wrap_small in Hnz by (unfold is_size_t; lia).
  destruct (setup_nworks _ _ _ _ _ _ Hs) as (works & g' & Hiw).
  assert (0 < kt_total_size (ktask_task_init nodes ctl)) as Hpos
    by (rewrite ktask_task_init_total, wrap_small by (unfold is_size_t; lia); lia).
  destruct (init_works_result e w g nodes ctl Hpos Hmin Hmax)
    as (nworks & works' & g'' & Hiw' & Hb & _ & _ & _ & Hoff).
  rewrite Hiw in Hiw'. inversion Hiw'; subst nworks works' g''. clear Hiw'.
  destruct Hone as [Hwq|Hone]; [apply Hoff; exact Hwq|].
  assert (wanted_works e (ktask_task_init nodes ctl) <= 1) as Hw; [|lia].
  unfold wanted_works. rewrite ktask_task_init_ctl, ktask_task_init_total.
  rewrite wrap_small by (unfold is_size_t; lia).
  destruct Hone as [Hcpu|[Hthr|Hsmall]].
  - rewrite Hcpu. lia.
  - rewrite Hthr. simpl. lia.
  - assert (ceil_div (sum_sizes nodes) (kc_min_chunk_size ctl) = 1) as ->; [|lia].
    unfold ceil_div.
    destruct (Z.eq_dec (sum_sizes nodes) (kc_min_chunk_size ctl)) as [->|Hne].
    + rewrite Z.mod_same, Z.div_same by lia. reflexivity.
    + rewrite Z.mod_small, Z.div_small by lia.
      destruct (Z.eqb_spec (sum_sizes nodes) 0); [lia|reflexivity].
Qed.

(** X12: The serial fallback.  When ktask is disabled ([ktask_wq] was never
    set up), the host has one CPU, the caller asks for one thread, or
    the whole job is no larger than the minimum chunk, the job runs on
    one thread taking the whole job as its chunk: whatever the run
    returns, each call of the processing callback covers the complete
    range of a descriptor that has work, and no descriptor is called
    twice. *)
Theorem single_thread_whole_nodes e w g nodes ctl cs status g' calls :
  node_array nodes → node_ranges nodes → sum_sizes nodes < 2 ^ SIZE_WIDTH →
  admissible ctl →
  (∀ position size, kc_iter_func ctl position size = ktask_iter_range position size) →
  single_thread e nodes ctl →
  ktask_run_numa e w g nodes ctl cs = Some (status, g', calls) →
  (∀ c, c ∈ calls →
     ∃ kn, nodes !! call_node c = Some kn ∧ 0 < kn_task_size kn ∧
       call_start c = kn_start kn ∧
       call_end c = kn_start kn + kn_task_size kn) ∧
  NoDup (map call_node calls).
Proof.
  intros Harr Hrng Hsum Hadm Hiter Hone Hrun.
  pose proof (sum_sizes_nonneg nodes (proj2 Harr)) as Hnn.
  assert (∀ c, c ∈ calls → full_range nodes (call_node c) (call_start c) (call_end c))
    as Hfull.
  { destruct (ktask_run_numa_inv _ _ _ _ _ _ _ _ _ Hrun)
      as [(_ & _ & _ & ->)|(s & Hr & _ & _ & -> & _)];
      [intros c Hc; inversion Hc|].
    destruct (reach_inv _ _ _ _ _ _ _ Hr) as (s0 & Hs0 & Hex).
    destruct (setup_cover_inv e w g nodes ctl s0 Harr Hrng Hsum Hadm Hiter Hs0)
      as (Hinv0 & Hcov0 & _).
    assert (wrap (sum_sizes nodes) ≠ 0) as Hnz.
    { intros Hz. rewrite (setup_immediate e w g nodes ctl Hz) in Hs0. discriminate. }
    destruct (setup_running e w g nodes ctl Harr Hadm Hnz)
      as (s0' & Hs0' & _ & Hnodes & _ & Hcalls & _ & Hq & _ & Hchunk).
    rewrite Hs0 in Hs0'. inversion Hs0'; subst s0'. clear Hs0'.
    rewrite (single_thread_nworks e w g nodes ctl s0 Harr Hsum Hadm Hone Hs0) in Hchunk.
    rewrite wrap_small in Hchunk by (unfold is_size_t; lia).
    unfold ktask_chunk_size in Hchunk. simpl in Hchunk. inversion Hchunk as [Hc].
    assert (serial_inv nodes s0) as Hser0.
    { split.
      - rewrite <- Hc. lia.
      - rewrite Hnodes. intros i kn0 kn H0 H1. left. congruence.
      - rewrite Hcalls. constructor.
      - eapply Forall_impl; [exact Hq|]. intros wk Hwk. unfold pc_full.
        rewrite Hwk. exact I. }
    pose proof (exec_serial_inv nodes e cs s0 s (proj2 Harr) Hinv0 Hcov0 Hser0 Hex)
      as [_ _ Hcalls' _].
    rewrite Forall_forall in Hcalls'. exact Hcalls'. }
  split.
  - intros c Hc. destruct (Hfull c Hc) as (kn & Hkn & Ha & Hb & Hpos).
    exists kn. auto.
  - pose proof (hits_disjoint calls
                  (run_hits_once _ _ _ _ _ _ _ _ _ Harr Hrng Hsum Hadm Hiter Hrun))
      as Hdis.
    apply NoDup_alt. intros j k n Hj Hk.
    destruct (decide (j = k)) as [|Hne]; [assumption|exfalso].
    change (map call_node calls) with (call_node <$> calls) in Hj, Hk.
    apply list_lookup_fmap_Some in Hj as (c1 & Hn1 & Hc1).
    apply list_lookup_fmap_Some in Hk as (c2 & Hn2 & Hc2).
    destruct (Hfull c1 (list_elem_of_lookup_2 _ _ _ Hc1)) as (kn1 & Hk1 & Ha1 & Hb1 & Hp1).
    destruct (Hfull c2 (list_elem_of_lookup_2 _ _ _ Hc2)) as (kn2 & Hk2 & Ha2 & Hb2 & Hp2).
    assert (call_node c1 = call_node c2) as Hsame by congruence.
    rewrite Hsame, Hk2 in Hk1. inversion Hk1; subst kn1.
    apply (Hdis j k c1 c2 (kn_start kn2) Hne Hc1 Hc2 Hsame). lia.
Qed.

Lemma single_thread_whole_nodes_witness :
  let nodes := [node 0 8 0; node 100 4 1] in
  let calls :=
    [ {| call_node := 0; call_start := 0; call_end := 8; call_ret := 0 |};
      {| call_node := 1; call_start := 100; call_end := 104; call_ret := 0 |} ] in
  (∀ c, c ∈ calls →
     ∃ kn, nodes !! call_node c = Some kn ∧ 0 < kn_task_size kn ∧
       call_start c = kn_start kn ∧
       call_end c = kn_start kn + kn_task_size kn) ∧
  NoDup (map call_node calls).
Proof.
  intros nodes calls.
  apply (single_thread_whole_nodes (host true) no_wild (rlim_of 5 [2; 3])
           nodes (range_ctl 4 1) [pick 0 0 0; pick 0 0 0; pick 0 0 0]
           0 (rlim_of 5 [2; 3]) calls).
  - concrete_node_array.
  - repeat constructor; vm_compute; try discriminate; reflexivity.
  - reflexivity.
  - split; vm_compute; discriminate.
  - intros position size. reflexivity.
  - right. right. left. reflexivity.
  - vm_compute. reflexivity.
Defined.

(** ** Jobs on one node: [ktask_run] *)

Lemma ktask_thread_iter_one_nid e c on_kthread g kt kw i o nid :
  Forall (λ kn, kn_nid kn = nid) (kt_nodes kt) →
  ktask_thread_iter e c on_kthread g kt kw i = Some o →
  stays o ∧
  ∀ kt', (o = Returned kt' ∨ ∃ j a b, o = Claimed kt' j a b) →
         Forall (λ kn, kn_nid kn = nid) (kt_nodes kt').
Proof.
  intros Hnid. unfold ktask_thread_iter.
  assert (∀ j kn, kt_nodes kt !! j = Some kn →
            stays (ktask_claim kt j kn) ∧
            ∀ kt', (ktask_claim kt j kn = Returned kt' ∨
                    ∃ j' a b, ktask_claim kt j kn = Claimed kt' j' a b) →
                   Forall (λ kn, kn_nid kn = nid) (kt_nodes kt')) as Hclaim.
  { intros j kn Hj. split; [exact I|]. intros kt' [Hr|(j' & a & b & Hc)];
      [discriminate|].
    pose proof (proj1 (Forall_lookup _ _) Hnid j kn Hj) as Hk. simpl in Hk.
    unfold ktask_claim in Hc. inversion Hc as [[Hkt Hj' Ha Hb]]. clear Hc Ha Hb Hj'.
    match goal with
    | |- Forall _ (kt_nodes (if ?b then _ else _)) => destruct b
    end; simpl; (apply Forall_insert; [exact Hnid|exact Hk]). }
  destruct (_ && _).
  - destruct (kt_nodes kt !! i) as [old|] eqn:Hi; simpl; [|discriminate].
    destruct (kn_task_size old =? 0).
    + destruct (prandom_u32_max c (kt_nr_nodes_left kt)) as [r|]; simpl; [|discriminate].
      destruct (kt_nodes kt !! select_node kt r) as [kn|] eqn:Hsel; simpl;
        [|discriminate].
      rewrite ktask_node_migrate_stays.
      * intros H; inversion H; subst o. apply Hclaim. exact Hsel.
      * right. right. left. rewrite Forall_lookup in Hnid.
        rewrite (Hnid _ _ Hi), (Hnid _ _ Hsel). reflexivity.
    + intros H; inversion H; subst o. apply Hclaim. exact Hi.
  - intros H; inversion H; subst o. split; [exact I|].
    intros kt' [Hr|(j' & a & b & Hc)]; [|discriminate].
    inversion Hr; subst kt'.
    destruct (ktask_thread_exit_fields kt) as (_ & _ & _ & -> & _). exact Hnid.
Qed.

Lemma step_one_nid e c s s' nid :
  Forall (λ kn, kn_nid kn = nid) (kt_nodes (st_kt s)) →
  step e c s = Some s' →
  Forall (λ kn, kn_nid kn = nid) (kt_nodes (st_kt s')) ∧
  st_rlim s' = st_rlim s ∧
  map w_kw (st_workers s') = map w_kw (st_workers s).
Proof.
  intros Hnid Hstep.
  destruct (step_entry e c s s' Hstep) as (wc & kt & calls & i & o & Hw & He & Ho & ->).
  destruct (entry_fields _ _ _ _ _ _ He) as (_ & _ & _ & Hnodes & _).
  rewrite <- Hnodes in Hnid.
  destruct (ktask_thread_iter_one_nid _ _ _ _ _ _ _ _ nid Hnid Ho) as [Hst Hn'].
  destruct (settle_stays s kt calls (c_worker c) wc o Hst Hw) as (Hr & w' & Hws & Hkw & _).
  split; [|split; [exact Hr|rewrite Hws; eapply map_insert_same; eauto]].
  destruct o as [kt' j a b|kw' g'|kt']; simpl; [|contradiction|].
  - apply Hn'. right. eauto.
  - apply Hn'. left. reflexivity.
Qed.

Lemma exec_one_nid e cs nid : ∀ s s',
  Forall (λ kn, kn_nid kn = nid) (kt_nodes (st_kt s)) →
  exec e cs s = Some s' →
  st_rlim s' = st_rlim s ∧ map w_kw (st_workers s') = map w_kw (st_workers s).
Proof.
  induction cs as [|c cs IH]; intros s s' Hnid; simpl.
  - intros H; inversion H; subst; auto.
  - destruct (step e c s) as [s1|] eqn:Hstep; simpl; [|discriminate].
    destruct (step_one_nid e c s s1 nid Hnid Hstep) as (Hnid1 & Hr1 & Hw1).
    intros Hex. destruct (IH s1 s' Hnid1 Hex) as [Hr Hw]. split; congruence.
Qed.

Lemma setup_accounts e w g nodes ctl s :
  0 <= ktask_rlim_cur g <= ktask_rlim_max g → ktask_rlim_max g < 2 ^ SIZE_WIDTH →
  Forall (λ v, 0 <= v ∧ v + ktask_rlim_max g < 2 ^ SIZE_WIDTH)
    (ktask_rlim_node_cur g) →
  ktask_run_numa_setup e w g nodes ctl = Some (Running s) →
  kt_nodes (st_kt s) = nodes ∧
  accounted (ktask_rlim_node_cur g) (map w_kw (tail (st_workers s)))
    (ktask_rlim_node_cur (st_rlim s)) ∧
  headroom (ktask_rlim_node_cur g) (length (tail (st_workers s))) ∧
  ktask_rlim_cur (st_rlim s)
  = ktask_rlim_cur g + Z.of_nat (length (tail (st_workers s))) ∧
  ktask_rlim_cur (st_rlim s) <= ktask_rlim_max g ∧
  ktask_rlim_max (st_rlim s) = ktask_rlim_max g ∧
  ktask_rlim_node_max (st_rlim s) = ktask_rlim_node_max g.
Proof.
  intros Hcur Hsz Hnodes. unfold ktask_run_numa_setup.
  destruct (_ =? 0); [discriminate|].
  destruct (ktask_init_works _ _ _ _ _) as [[[nworks works] g']|] eqn:Hiw; simpl;
    [|discriminate].
  destruct (ktask_init_works_books _ _ _ _ _ _ _ _ Hcur Hsz Hnodes Hiw)
    as (Hacc & Hroom & Hc & Hle & Hm & Hnm).
  destruct (ktask_chunk_size _ _ _) as [chunk|]; simpl; [|discriminate].
  destruct (nodes !! 0%nat) as [kn|]; simpl; [|discriminate].
  intros H; inversion H; subst s; clear H. simpl. rewrite ?length_map.
  split; [apply ktask_task_init_nodes|].
  split; [rewrite map_map; simpl; rewrite map_id; exact Hacc|]. auto.
Qed.

Lemma map_tail {A B} (f : A → B) (l : list A) : map f (tail l) = tail (map f l).
Proof. destruct l; reflexivity. Qed.

(** X13: [ktask_run] gives back what it takes, whoever calls it.  A job whose
    descriptors all name the same node never moves a work item, on any
    host and also when the caller is a kernel thread; so every completed
    run of [ktask_run_numa] over such descriptors, and every completed
    run of [ktask_run], leaves the four resource limits as it found
    them. *)
Theorem ktask_run_restores_limits e w g ctl :
  0 <= ktask_rlim_cur g <= ktask_rlim_max g → ktask_rlim_max g < 2 ^ SIZE_WIDTH →
  Forall (λ v, 0 <= v ∧ v + ktask_rlim_max g < 2 ^ SIZE_WIDTH)
    (ktask_rlim_node_cur g) →
  let restored g' :=
    ktask_rlim_cur g' = ktask_rlim_cur g ∧
    ktask_rlim_node_cur g' = ktask_rlim_node_cur g ∧
    ktask_rlim_max g' = ktask_rlim_max g ∧
    ktask_rlim_node_max g' = ktask_rlim_node_max g in
  (∀ nodes nid cs status g' calls,
     Forall (λ kn, kn_nid kn = nid) nodes →
     ktask_run_numa e w g nodes ctl cs = Some (status, g', calls) → restored g') ∧
  (∀ start task_size cs status g' calls,
     ktask_run e w g start task_size ctl cs = Some (status, g', calls) →
     restored g').
Proof.
  intros Hcur Hsz Hnodes restored.
  assert (∀ nodes nid cs status g' calls,
            Forall (λ kn, kn_nid kn = nid) nodes →
            ktask_run_numa e w g nodes ctl cs = Some (status, g', calls) →
            restored g') as Hnuma.
  { intros nodes nid cs status g' calls Hnid Hrun. unfold restored.
    destruct (ktask_run_numa_inv _ _ _ _ _ _ _ _ _ Hrun)
      as [(_ & _ & -> & _)|(s & Hr & _ & _ & _ & ->)]; [auto|].
    destruct (reach_inv _ _ _ _ _ _ _ Hr) as (s0 & Hs0 & Hex).
    destruct (setup_accounts _ _ _ _ _ _ Hcur Hsz Hnodes Hs0)
      as (Hn0 & Hacc & Hroom & Hc & Hle & Hm & Hnm).
    rewrite <- Hn0 in Hnid.
    destruct (exec_one_nid e cs nid s0 s Hnid Hex) as [-> Hws].
    rewrite map_tail, Hws, <- map_tail.
    destruct (ktask_fini_works_accounted (ktask_rlim_node_cur g) w
                (map w_kw (tail (st_workers s0))) (st_rlim s0))
      as (H1 & H2 & H3 & H4).
    - exact Hacc.
    - rewrite length_map. exact Hroom.
    - rewrite length_map. lia.
    - rewrite H1, H2, H3, H4, length_map. repeat split; auto. lia. }
  split; [exact Hnuma|].
  intros start task_size cs status g' calls Hrun. unfold ktask_run in Hrun.
  eapply (Hnuma _ (numa_node_id e)); [|exact Hrun].
  constructor; [reflexivity|constructor].
Qed.

(** A NUMA host on which the caller of the entry points is itself a
    kernel thread. *)
Definition kthread_host : env :=
  {| ktask_wq := true; num_online_cpus := 5; num_online_nodes := 2;
     CONFIG_NUMA := true; numa_node_id := 0; caller_kthread := true |}.

Lemma ktask_run_restores_limits_witness :
  let g := rlim_of 5 [2; 3] in
  let g' := rlim_of 5 [2; 3] in
  ktask_rlim_cur g' = ktask_rlim_cur g ∧
  ktask_rlim_node_cur g' = ktask_rlim_node_cur g ∧
  ktask_rlim_max g' = ktask_rlim_max g ∧
  ktask_rlim_node_max g' = ktask_rlim_node_max g.
Proof.
  intros g g'.
  destruct (ktask_run_restores_limits kthread_host no_wild g (range_ctl 4 0))
    as [_ Hrun].
  - split; vm_compute; discriminate.
  - reflexivity.
  - repeat constructor; vm_compute; try discriminate; reflexivity.
  - apply (Hrun 0 12 [pick 0 0 0; pick 1 0 0; pick 0 0 0; pick 1 0 0; pick 0 0 0;
                      pick 2 0 0] 0 g'
             [ {| call_node := 0; call_start := 0; call_end := 4; call_ret := 0 |};
               {| call_node := 0; call_start := 4; call_end := 8; call_ret := 0 |};
               {| call_node := 0; call_start := 8; call_end := 12; call_ret := 0 |} ]).
    vm_compute. reflexivity.
Defined.

(** ** Enough chunks for the threads *)

Lemma ceil_div_above n d k : 1 <= d → d * (k - 1) < n → k <= ceil_div n d.
Proof.
  intros Hd Hk. unfold ceil_div.
  pose proof (Z.div_mod n d) as Hdm. pose proof (Z.mod_pos_bound n d) as Hb.
  destruct (Z.eqb_spec (n mod d) 0) as [Hz|Hnz]; nia.
Qed.

Lemma ceil_div_below n d k : 1 <= d → k <= ceil_div n d → d * (k - 1) < n.
Proof.
  intros Hd. unfold ceil_div.
  pose proof (Z.div_mod n d) as Hdm. pose proof (Z.mod_pos_bound n d) as Hb.
  destruct (Z.eqb_spec (n mod d) 0) as [Hz|Hnz]; nia.
Qed.

Lemma chunk_size_spec_enough total min_grain workers :
  0 < total → 1 <= min_grain → 1 <= workers →
  min_grain * (workers - 1) < total →
  let chunk := chunk_size_spec total min_grain workers in
  1 <= chunk ∧ chunk * (workers - 1) < total.
Proof.
  intros Ht Hm Hw Hroom. unfold chunk_size_spec.
  destruct (Z.eqb_spec workers 1) as [->|Hmulti]; [simpl; lia|].
  rewrite Z.shiftr_div_pow2 by lia. change (2 ^ 2) with 4.
  set (c := total / workers / 4).
  assert (0 <= total / workers) as Hq by (apply Z.div_pos; lia).
  assert (workers * (total / workers) <= total) as Hmul
    by (apply Z.mul_div_le; lia).
  assert (0 <= c) as Hc0 by (apply Z.div_pos; lia).
  assert (4 * c <= total / workers) as Hc4 by (apply Z.mul_div_le; lia).
  destruct (Z.ltb_spec min_grain c) as [Hlt|Hge]; simpl.
  - assert (1 <= c / min_grain) by (apply Z.div_le_lower_bound; lia).
    assert (min_grain * (c / min_grain) <= c) by (apply Z.mul_div_le; lia).
    rewrite Z.max_l by nia. split; [nia|]. nia.
  - rewrite Z.max_r by lia. split; lia.
Qed.

(** X14: "The number of chunks will be at least the number of works" (the
    comment above [ktask_chunk_size]).  For a job with work, a minimum
    chunk size of at least 1 and a number of threads that is at most the
    ceiling of [task_size / min_chunk_size], as [ktask_init_works]
    ensures, the chunk size computed is at least 1 and cutting the job into chunks of that
    size gives at least as many chunks as there are threads; and this is
    how [ktask_run_numa] sets up every job that has work. *)
Theorem ktask_chunk_size_enough_chunks e w g nodes ctl :
  1 <= kc_min_chunk_size ctl →
  (∀ task_size nworks,
     0 < task_size → 1 <= nworks <= ceil_div task_size (kc_min_chunk_size ctl) →
     ∃ chunk_size,
       ktask_chunk_size task_size (kc_min_chunk_size ctl) nworks = Some chunk_size ∧
       1 <= chunk_size ∧ nworks <= ceil_div task_size chunk_size) ∧
  (node_array nodes → 0 <= kc_max_threads ctl → wrap (sum_sizes nodes) ≠ 0 →
   ∃ s, ktask_run_numa_setup e w g nodes ctl = Some (Running s) ∧
     1 <= kt_chunk_size (st_kt s) ∧
     1 <= kt_nworks (st_kt s)
       <= ceil_div (kt_total_size (st_kt s)) (kt_chunk_size (st_kt s))).
Proof.
  intros Hmin.
  assert (∀ task_size nworks,
     0 < task_size → 1 <= nworks <= ceil_div task_size (kc_min_chunk_size ctl) →
     ∃ chunk_size,
       ktask_chunk_size task_size (kc_min_chunk_size ctl) nworks = Some chunk_size ∧
       1 <= chunk_size ∧ nworks <= ceil_div task_size chunk_size) as Hpure.
  { intros total nworks Ht [Hw1 Hw2].
    rewrite chunk_size_total by lia. eexists. split; [reflexivity|].
    pose proof (ceil_div_below _ _ _ Hmin Hw2) as Hroom.
    destruct (chunk_size_spec_enough total (kc_min_chunk_size ctl) nworks
                Ht Hmin Hw1 Hroom) as [Hc1 Hc2].
    split; [exact Hc1|]. apply ceil_div_above; assumption. }
  split; [exact Hpure|].
  intros Harr Hmax Hnz.
  destruct (setup_running e w g nodes ctl Harr (conj Hmin Hmax) Hnz)
    as (s & Hs & Hinv & _ & _ & _ & _ & _ & Hnw & Hchunk).
  exists s. split; [exact Hs|].
  pose proof (wrap_range (sum_sizes nodes)) as Hr. unfold is_size_t in Hr.
  assert (kt_total_size (st_kt s) = wrap (sum_sizes nodes)) as Htot'.
  { unfold ktask_run_numa_setup in Hs. rewrite ktask_task_init_total in Hs.
    destruct (Z.eqb_spec (wrap (sum_sizes nodes)) 0); [contradiction|].
    destruct (ktask_init_works _ _ _ _ _) as [r|]; simpl in Hs; [|discriminate].
    destruct (ktask_chunk_size _ _ _) as [chunk|]; simpl in Hs; [|discriminate].
    destruct (nodes !! 0%nat) as [kn|]; simpl in Hs; [|discriminate].
    inversion Hs. simpl. apply ktask_task_init_total. }
  assert (kt_nworks (st_kt s)
          <= ceil_div (wrap (sum_sizes nodes)) (kc_min_chunk_size ctl)) as Hle.
  { destruct Hnw as [_ Hnw]. unfold wanted_works in Hnw.
    rewrite ktask_task_init_ctl, ktask_task_init_total in Hnw. lia. }
  destruct (Hpure (wrap (sum_sizes nodes)) (kt_nworks (st_kt s)) ltac:(lia)
              ltac:(lia)) as (chunk & Hc & Hc1 & Hc2).
  rewrite Hchunk in Hc. inversion Hc; subst chunk.
  rewrite Htot'. split; [exact Hc1|]. lia.
Qed.

Lemma ktask_chunk_size_enough_chunks_witness :
  (∀ task_size nworks,
     0 < task_size →
     1 <= nworks <= ceil_div task_size (kc_min_chunk_size (range_ctl 4 0)) →
     ∃ chunk_size,
       ktask_chunk_size task_size (kc_min_chunk_size (range_ctl 4 0)) nworks
       = Some chunk_size ∧
       1 <= chunk_size ∧ nworks <= ceil_div task_size chunk_size) ∧
  (node_array [node 0 8 0; node 100 4 1] → 0 <= kc_max_threads (range_ctl 4 0) →
   wrap (sum_sizes [node 0 8 0; node 100 4 1]) ≠ 0 →
   ∃ s, ktask_run_numa_setup (host true) no_wild (rlim_of 5 [2; 3])
          [node 0 8 0; node 100 4 1] (range_ctl 4 0) = Some (Running s) ∧
     1 <= kt_chunk_size (st_kt s) ∧
     1 <= kt_nworks (st_kt s)
       <= ceil_div (kt_total_size (st_kt s)) (kt_chunk_size (st_kt s))).
Proof.
  apply (ktask_chunk_size_enough_chunks (host true) no_wild (rlim_of 5 [2; 3])
           [node 0 8 0; node 100 4 1] (range_ctl 4 0)).
  vm_compute. discriminate.
Defined.

(** ** The node limits in [ktask_init_works] *)

(** Counters and limits of the nodes as [ktask_rlim_init] lays them out
    and the code keeps them: arrays of one length, limits that are
    [size_t], counters within their limits. *)
Definition node_limits_ok (g : rlim) : Prop :=
  length (ktask_rlim_node_max g) = length (ktask_rlim_node_cur g) ∧
  Forall (λ max, max < 2 ^ SIZE_WIDTH) (ktask_rlim_node_max g) ∧
  Forall (λ cur, 0 <= cur) (ktask_rlim_node_cur g) ∧
  within_node_limits g.

(** A node id [ktask_init_works] may be handed. *)
Definition valid_nid (g : rlim) (nid : Z) : Prop :=
  nid = NUMA_NO_NODE ∨ 0 <= nid < Z.of_nat (length (ktask_rlim_node_cur g)).

Lemma try_reserve_node_cur w nid g :
  ktask_rlim_node_cur (try_reserve w nid g).2 = ktask_rlim_node_cur g ∨
  ∃ v, ktask_rlim_node_cur (try_reserve w nid g).2
       = <[Z.to_nat nid := wrap v]> (ktask_rlim_node_cur g).
Proof.
  unfold try_reserve. destruct (_ =? _); [left; reflexivity|].
  unfold mbind, gov_bind, mret, gov_ret, rlim_cur_incr. simpl.
  destruct (reserve_node_cases w nid g) as [[_ ->]|(_ & g2 & Hg2 & ->)];
    [left; reflexivity|].
  destruct (node_cur_incr_cur w nid g2) as (-> & _). rewrite Hg2.
  destruct (in_array _ _); [right; eauto|left; reflexivity].
Qed.

Lemma try_reserve_node_limits_ok w nid g :
  node_limits_ok g → node_limits_ok (try_reserve w nid g).2.
Proof.
  intros (Hlen & Hmax & Hcur & Hin).
  pose proof (try_reserve_within_node_limits w nid g Hlen Hmax Hcur Hin) as Hin'.
  pose proof (try_reserve_node_cur w nid g) as Hnc.
  destruct (try_reserve w nid g) as [r g'] eqn:Hr.
  destruct (try_reserve_effect _ _ _ _ _ Hr) as (_ & Hnm & _).
  simpl in *. unfold node_limits_ok. rewrite Hnm.
  destruct Hnc as [->|(v & ->)].
  - auto.
  - rewrite length_insert. split; [exact Hlen|]. split; [exact Hmax|].
    split; [|exact Hin'].
    apply Forall_insert; [exact Hcur|]. pose proof (wrap_range v) as Hv.
    unfold is_size_t in Hv. lia.
Qed.

Lemma try_reserve_no_stray w nid g :
  length (ktask_rlim_node_max g) = length (ktask_rlim_node_cur g) →
  valid_nid g nid → rlim_stray (try_reserve w nid g).2 = rlim_stray g.
Proof.
  intros Hlen Hnid.
  assert (in_array (ktask_rlim_node_max g) nid
          = in_array (ktask_rlim_node_cur g) nid) as Harr
    by (unfold in_array; rewrite Hlen; reflexivity).
  destruct Hnid as [->|Hnid].
  - unfold try_reserve, reserve_node. destruct (_ =? _); reflexivity.
  - assert (in_array (ktask_rlim_node_cur g) nid = true) as Hin.
    { unfold in_array. apply andb_true_iff. split; [apply Z.leb_le|apply Z.ltb_lt]; lia. }
    gov_unfold. gov_cases; rewrite ?Harr, ?Hin in *; simpl in *;
      try reflexivity; try congruence.
Qed.

Lemma init_works_loop_node_limits w nodes n : ∀ i nr_works works_list g nr_works' works_list' g',
  node_limits_ok g →
  init_works_loop w nodes n i nr_works works_list g
  = Some (nr_works', works_list', g') →
  node_limits_ok g' ∧
  length (ktask_rlim_node_cur g') = length (ktask_rlim_node_cur g) ∧
  (Forall (λ kn, valid_nid g (kn_nid kn)) nodes → rlim_stray g' = rlim_stray g).
Proof.
  induction n as [|n IH]; intros i nr works g nr' works' g' Hok; simpl.
  - intros H; inversion H; subst. auto.
  - destruct (umod i (Z.of_nat (length nodes))) as [ni|]; simpl; [|discriminate].
    destruct (nodes !! Z.to_nat ni) as [kn|] eqn:Hkn; simpl; [|discriminate].
    pose proof (try_reserve_node_limits_ok w (kn_nid kn) g Hok) as Hok1.
    pose proof (try_reserve_no_stray w (kn_nid kn) g (proj1 Hok)) as Hs1.
    pose proof (try_reserve_node_cur w (kn_nid kn) g) as Hnc.
    destruct (try_reserve w (kn_nid kn) g) as [[q|] g1] eqn:Hr; simpl in *.
    + intros H. destruct (IH _ _ _ _ _ _ _ Hok1 H) as (Hok' & Hlen' & Hstray').
      assert (length (ktask_rlim_node_cur g1) = length (ktask_rlim_node_cur g)) as Hl1
        by (destruct Hnc as [->|(v & ->)]; [reflexivity|apply length_insert]).
      split; [exact Hok'|]. split; [congruence|].
      intros Hvalid. rewrite Hstray'.
      * apply Hs1. rewrite Forall_forall in Hvalid.
        apply Hvalid. eapply list_elem_of_lookup_2; eauto.
      * eapply Forall_impl; [exact Hvalid|]. intros kn'. unfold valid_nid.
        rewrite Hl1. auto.
    + intros H; inversion H; subst. split; [exact Hok1|].
      split; [destruct Hnc as [->|(v & ->)]; [reflexivity|apply length_insert]|].
      intros Hvalid. apply Hs1. rewrite Forall_forall in Hvalid.
      apply Hvalid. eapply list_elem_of_lookup_2; eauto.
Qed.

(** X15: [ktask_init_works] respects the node limits: if every node's counter
    is within its limit before, it is so afterwards, whatever the job
    and the host are; and when every descriptor names an existing node
    or [NUMA_NO_NODE], the function touches nothing outside the two
    arrays. *)
Theorem ktask_init_works_node_limits e w g nodes kt nworks works_list g' :
  node_limits_ok g →
  ktask_init_works e w nodes kt g = Some (nworks, works_list, g') →
  node_limits_ok g' ∧
  (Forall (λ kn, valid_nid g (kn_nid kn)) nodes → rlim_stray g' = rlim_stray g).
Proof.
  intros Hok. unfold ktask_init_works.
  destruct (ktask_wq e); simpl.
  - destruct (DIV_ROUND_UP _ _) as [c|]; simpl; [|discriminate]. intros Hiw.
    destruct (init_works_loop_node_limits _ _ _ _ _ _ _ _ _ _ Hok Hiw)
      as (Hok' & _ & Hstray). auto.
  - intros H; inversion H; subst. auto.
Qed.

Lemma ktask_init_works_node_limits_witness :
  let g := rlim_of 5 [2; 3] in
  let g' := set_rlim_cur 2 (set_rlim_node_cur [1; 1] (rlim_of 5 [2; 3])) in
  let nodes := [node 0 8 0; node 100 4 1] in
  node_limits_ok g' ∧
  (Forall (λ kn, valid_nid g (kn_nid kn)) nodes → rlim_stray g' = rlim_stray g).
Proof.
  intros g g' nodes.
  apply (ktask_init_works_node_limits (host true) no_wild g nodes
           (ktask_task_init nodes (range_ctl 4 0)) 3
           [ktask_init_work 1 1; ktask_init_work 0 0] g').
  - split; [reflexivity|]. split; [repeat constructor|].
    split; [repeat constructor; lia|].
    intros n cur max.
    change (ktask_rlim_node_cur g) with [0; 0].
    change (ktask_rlim_node_max g) with [1; 2].
    destruct n as [|[|n]]; simpl; intros Hc Hm; inversion Hc; inversion Hm; lia.
  - vm_compute. reflexivity.
Defined.

(** ** A caller that is a kernel thread *)

(** The node a migrating thread goes to differs from the one it leaves. *)
Lemma ktask_thread_iter_migrated_from e c on_kthread g kt kw i kw' g' old :
  kt_nodes kt !! i = Some old →
  ktask_thread_iter e c on_kthread g kt kw i = Some (Migrated kw' g') →
  on_kthread = true ∧
  ∃ nid, nid ≠ kn_nid old ∧ g' = (re_pin (c_wild c) (kw_queue_nid kw) nid g).2.
Proof.
  intros Hi. unfold ktask_thread_iter. rewrite Hi.
  destruct (_ && _); [|discriminate]. simpl.
  destruct (kn_task_size old =? 0); [|discriminate].
  destruct (prandom_u32_max c (kt_nr_nodes_left kt)) as [r|]; simpl; [|discriminate].
  destruct (kt_nodes kt !! select_node kt r) as [kn|]; simpl; [|discriminate].
  unfold ktask_node_migrate.
  destruct (CONFIG_NUMA e); simpl; [|discriminate].
  destruct on_kthread; simpl; [|discriminate].
  destruct (Z.eqb_spec (kn_nid kn) (kn_nid old)) as [|Hne]; simpl; [discriminate|].
  destruct (num_online_nodes e =? 1); [discriminate|].
  unfold mbind, gov_bind, mret, gov_ret. simpl.
  intros H; inversion H; subst. split; [reflexivity|]. eauto.
Qed.

(** [re_pin] takes one unit from the counter of the node left. *)
Lemma re_pin_decrements w queue_nid nid g v :
  0 <= queue_nid → nid ≠ queue_nid →
  ktask_rlim_node_cur g !! Z.to_nat queue_nid = Some v →
  ktask_rlim_node_cur (re_pin w queue_nid nid g).2 !! Z.to_nat queue_nid
  = Some (wrap (v - 1)).
Proof.
  intros H0 Hne Hv.
  assert (in_array (ktask_rlim_node_cur g) queue_nid = true) as Hin.
  { unfold in_array. apply andb_true_iff. split; [apply Z.leb_le; lia|].
    apply Z.ltb_lt. apply lookup_lt_Some in Hv. lia. }
  destruct (re_pin_cases w queue_nid nid g) as (_ & _ & _ & Hcases).
  destruct (Z.eqb_spec queue_nid NUMA_NO_NODE) as [Hno|_];
    [unfold NUMA_NO_NODE in Hno; lia|].
  destruct (node_cur_decr_cur w queue_nid g) as (Hdecr & _).
  rewrite Hin, Hv in Hdecr. simpl in Hdecr.
  assert (∀ g1, ktask_rlim_node_cur g1 = ktask_rlim_node_cur (node_cur_decr w queue_nid g).2 →
            ktask_rlim_node_cur g1 !! Z.to_nat queue_nid = Some (wrap (v - 1))) as Hat.
  { intros g1 ->. rewrite Hdecr. apply list_lookup_insert_eq.
    eapply lookup_lt_Some; eauto. }
  destruct Hcases as [(_ & Hc)|(_ & g2 & Hg2 & Hc)]; rewrite Hc.
  - apply Hat. reflexivity.
  - destruct (node_cur_incr_cur w nid g2) as (-> & _).
    destruct (in_array (ktask_rlim_node_cur g2) nid) eqn:Hin2; [|apply Hat; exact Hg2].
    rewrite list_lookup_insert_ne; [apply Hat; exact Hg2|].
    unfold in_array in Hin2. apply andb_true_iff in Hin2 as [Hn0 _].
    apply Z.leb_le in Hn0. lia.
Qed.

(** X16: A caller that is a kernel thread.  The caller's own work item is set
    up bound to the node of the first descriptor, but [ktask_init_works]
    reserves nothing for it.  If the caller's first pass through
    [ktask_thread] moves it to another node, [ktask_node_migrate] takes
    a unit from that node's counter all the same: the counter ends one
    below the value the queued work items account for (2^64 - 1 when it
    was 0), with [ktask_rlim_cur] unchanged; and only a caller that is a
    kernel thread gets there. *)
Theorem kthread_caller_migration_unaccounted e w g nodes ctl s0 c s1 kn0 v :
  ktask_run_numa_setup e w g nodes ctl = Some (Running s0) →
  nodes !! 0%nat = Some kn0 → 0 <= kn_nid kn0 →
  ktask_rlim_node_cur (st_rlim s0) !! Z.to_nat (kn_nid kn0) = Some v →
  c_worker c = 0%nat → step e c s0 = Some s1 →
  w_kw <$> st_workers s1 !! 0%nat ≠ w_kw <$> st_workers s0 !! 0%nat →
  caller_kthread e = true ∧
  ktask_rlim_cur (st_rlim s1) = ktask_rlim_cur (st_rlim s0) ∧
  ktask_rlim_node_cur (st_rlim s1) !! Z.to_nat (kn_nid kn0) = Some (wrap (v - 1)).
Proof.
  intros Hs0 Hkn0 Hnid Hv Hc Hstep Hmoved.
  destruct (setup_caller _ _ _ _ _ _ Hs0) as (kn & w0 & Hkn & Hw0 & Hkw & Hkt).
  rewrite Hkn0 in Hkn. inversion Hkn; subst kn. clear Hkn.
  assert (kt_nodes (st_kt s0) = nodes ∧ w_pc w0 = Queued) as [Hnodes Hpc].
  { revert Hs0 Hw0. unfold ktask_run_numa_setup.
    destruct (_ =? 0); [discriminate|].
    destruct (ktask_init_works _ _ _ _ _) as [r|]; simpl; [|discriminate].
    destruct (ktask_chunk_size _ _ _) as [chunk|]; simpl; [|discriminate].
    destruct (nodes !! 0%nat) as [kn|]; simpl; [|discriminate].
    intros H; inversion H; subst s0; clear H. simpl.
    intros H; inversion H; subst w0. split; [apply ktask_task_init_nodes|reflexivity]. }
  destruct (step_entry e c s0 s1 Hstep) as (wc & kt & calls & i & o & Hw & He & Ho & ->).
  rewrite Hc in Hw, Hmoved. rewrite Hw0 in Hw. inversion Hw; subst wc. clear Hw.
  destruct He as [_|n a b Hcall]; [|congruence].
  assert (stays o ∨ ∃ kw' g', o = Migrated kw' g') as [Hst|(kw' & g' & ->)]
    by (destruct o; simpl; eauto).
  - exfalso. apply Hmoved.
    destruct (settle_stays s0 (st_kt s0) (st_calls s0) 0 w0 o Hst Hw0)
      as (_ & w' & -> & Hkw' & _).
    rewrite list_lookup_insert_eq by (eapply lookup_lt_Some; eauto).
    rewrite Hw0. simpl. congruence.
  - rewrite Hkw in Ho. simpl in Ho.
    assert (kt_nodes (st_kt s0) !! 0%nat = Some kn0) as Hold by (rewrite Hnodes; exact Hkn0).
    destruct (ktask_thread_iter_migrated_from _ _ _ _ _ _ _ _ _ _ Hold Ho)
      as (Hon & nid & Hne & ->).
    destruct (re_pin_cases (c_wild c) (kn_nid kn0) nid (st_rlim s0)) as (Hcur & _).
    simpl. split; [congruence|]. split; [exact Hcur|].
    apply re_pin_decrements; assumption.
Qed.

(** A job set up by a kernel thread whose first descriptor has no work,
    before and after the caller's first pass. *)
Definition kthread_start : state :=
  Eval vm_compute in
    default idle_state
      (reach kthread_host no_wild (rlim_of 5 [2; 3]) [node 0 0 0; node 100 4 1]
         (const_ctl 4 0) []).

Definition kthread_moved : state :=
  Eval vm_compute in
    default idle_state
      (reach kthread_host no_wild (rlim_of 5 [2; 3]) [node 0 0 0; node 100 4 1]
         (const_ctl 4 0) [pick 0 0 0]).

Lemma kthread_caller_migration_unaccounted_witness :
  caller_kthread kthread_host = true ∧
  ktask_rlim_cur (st_rlim kthread_moved) = ktask_rlim_cur (st_rlim kthread_start) ∧
  ktask_rlim_node_cur (st_rlim kthread_moved) !! Z.to_nat 0 = Some (wrap (0 - 1)).
Proof.
  apply (kthread_caller_migration_unaccounted kthread_host no_wild (rlim_of 5 [2; 3])
           [node 0 0 0; node 100 4 1] (const_ctl 4 0) kthread_start (pick 0 0 0)
           kthread_moved (node 0 0 0) 0).
  - vm_compute. reflexivity.
  - reflexivity.
  - simpl. lia.
  - reflexivity.
  - reflexivity.
  - vm_compute. reflexivity.
  - vm_compute. discriminate.
Defined.
